(** * alice-lg: the faceted search-filter engine and the community
      configuration parsers, embedded from the Go sources

    - [GoStrings]: the few functions of Go's [strings] and [strconv]
      packages the sources call.
    - [Api]: package [api] (search filters, filter groups, filter sets).
    - [Config]: package [config] (community label and range parsers).

    Go pointers to [SearchFilter] are locations of an explicit heap, so that
    sharing between filter sets is visible.  A Go call either returns, returns
    an [error], or panics; [result] keeps the three apart. *)

From Stdlib Require Import ZArith String Ascii List Bool Lia DecimalString
  DecimalPos DecimalZ.
From stdpp Require Import base option gmap strings list fin_maps.

Local Open Scope string_scope.
Local Open Scope Z_scope.

(** ** Outcomes of a Go call *)

Inductive result (A : Type) : Type :=
| Ok (a : A)
| Err (e : string)
| Panic.
Arguments Ok {A} a.
Arguments Err {A} e.
Arguments Panic {A}.

#[global] Instance result_ret : MRet result := fun A a => Ok a.
#[global] Instance result_bind : MBind result := fun A B k m =>
  match m with
  | Ok a => k a
  | Err e => Err e
  | Panic => Panic
  end.

Definition is_Ok {A} (r : result A) : bool :=
  match r with Ok _ => true | _ => false end.

(** ** Go's [int] (64 bit, two's complement) *)

Definition min_int : Z := - 2 ^ 63.
Definition max_int : Z := 2 ^ 63 - 1.
Definition wrap_int (z : Z) : Z := (z + 2 ^ 63) mod 2 ^ 64 - 2 ^ 63.

Module GoStrings.

(** [strings.Split(s, sep)] for a one-byte separator, which is all the
    sources use.  The result is never empty. *)
Fixpoint Split (s : string) (sep : ascii) : list string :=
  match s with
  | EmptyString => [EmptyString]
  | String c rest =>
      if Ascii.eqb c sep then EmptyString :: Split rest sep
      else match Split rest sep with
           | hd :: tl => String c hd :: tl
           | [] => [String c EmptyString]
           end
  end.

(** The text before and after the first [sep], when there is one. *)
Fixpoint cut (s : string) (sep : ascii) : option (string * string) :=
  match s with
  | EmptyString => None
  | String c rest =>
      if Ascii.eqb c sep then Some (EmptyString, rest)
      else match cut rest sep with
           | Some (a, b) => Some (String c a, b)
           | None => None
           end
  end.

(** [strings.SplitN(s, sep, 2)]: one piece without [sep], else two. *)
Definition SplitN2 (s : string) (sep : ascii) : list string :=
  match cut s sep with
  | Some (a, b) => [a; b]
  | None => [s]
  end.

(** White space within ASCII: tab, line feed, vertical tab, form feed,
    carriage return and space. *)
Definition isSpace (c : ascii) : bool :=
  let n := nat_of_ascii c in
  ((9 <=? n)%nat && (n <=? 13)%nat) || (n =? 32)%nat.

Definition byte (c : ascii) : N := N_of_ascii c.

(** The white space [unicode.IsSpace] accepts above U+007F, as the bytes
    of its UTF-8 encoding: U+0085 and U+00A0 in two bytes; *)
Definition isSpace2 (c d : ascii) : bool :=
  (byte c =? 0xC2)%N && ((byte d =? 0x85)%N || (byte d =? 0xA0)%N).

(** U+1680, U+2000 to U+200A, U+2028, U+2029, U+202F, U+205F and U+3000
    in three bytes. *)
Definition isSpace3 (c d e : ascii) : bool :=
  ((byte c =? 0xE1)%N && (byte d =? 0x9A)%N && (byte e =? 0x80)%N) ||
  ((byte c =? 0xE2)%N && (byte d =? 0x80)%N &&
   (((0x80 <=? byte e)%N && (byte e <=? 0x8A)%N) ||
    (byte e =? 0xA8)%N || (byte e =? 0xA9)%N || (byte e =? 0xAF)%N)) ||
  ((byte c =? 0xE2)%N && (byte d =? 0x81)%N && (byte e =? 0x9F)%N) ||
  ((byte c =? 0xE3)%N && (byte d =? 0x80)%N && (byte e =? 0x80)%N).

(** The bytes after the white-space runes they start with.  A byte
    sequence that decodes to no rune is no white space. *)
Fixpoint trimLeading (s : list ascii) : list ascii :=
  match s with
  | [] => []
  | c :: rest =>
      if isSpace c then trimLeading rest
      else
        match rest with
        | d :: rest2 =>
            if isSpace2 c d then trimLeading rest2
            else
              match rest2 with
              | e :: rest3 => if isSpace3 c d e then trimLeading rest3 else s
              | [] => s
              end
        | [] => s
        end
  end.

(** The same from the end: the bytes are given last byte first, and the
    rune that ends the string is looked for. *)
Fixpoint trimTrailing (r : list ascii) : list ascii :=
  match r with
  | [] => []
  | c :: rest =>
      if isSpace c then trimTrailing rest
      else
        match rest with
        | d :: rest2 =>
            if isSpace2 d c then trimTrailing rest2
            else
              match rest2 with
              | e :: rest3 => if isSpace3 e d c then trimTrailing rest3 else r
              | [] => r
              end
        | [] => r
        end
  end.

Definition TrimLeft (s : string) : string :=
  string_of_list_ascii (trimLeading (list_ascii_of_string s)).

Definition TrimRight (s : string) : string :=
  string_of_list_ascii
    (List.rev (trimTrailing (List.rev (list_ascii_of_string s)))).

(** [strings.TrimSpace(s)]: [s] without leading and trailing white space,
    as Unicode defines it, [s] being read as UTF-8. *)
Definition TrimSpace (s : string) : string := TrimRight (TrimLeft s).

(** [strings.HasPrefix(s, p)]. *)
Definition HasPrefix (s p : string) : bool := String.prefix p s.

Definition digit_of (c : ascii) : option Z :=
  let n := Z.of_nat (nat_of_ascii c) in
  if (48 <=? n) && (n <=? 57) then Some (n - 48) else None.

Fixpoint digits (s : string) (acc : Z) : option Z :=
  match s with
  | EmptyString => Some acc
  | String c rest =>
      match digit_of c with
      | Some d => digits rest (acc * 10 + d)
      | None => None
      end
  end.

Definition signed_digits (sign : Z) (s : string) : option Z :=
  match s with
  | EmptyString => None
  | _ =>
      match digits s 0 with
      | Some n =>
          let v := sign * n in
          if (min_int <=? v) && (v <=? max_int) then Some v else None
      | None => None
      end
  end.

(** [strconv.Atoi]: an optional sign and at least one decimal digit, in
    the range of [int]; [None] is Go's non-nil error. *)
Definition Atoi (s : string) : option Z :=
  match s with
  | EmptyString => None
  | String c rest =>
      if Ascii.eqb c "+"%char then signed_digits 1 rest
      else if Ascii.eqb c "-"%char then signed_digits (-1) rest
      else signed_digits 1 s
  end.

(** [strconv.Itoa]. *)
Definition Itoa (z : Z) : string := NilZero.string_of_int (Z.to_int z).

(** [strings.HasSuffix(s, suffix)]. *)
Definition HasSuffix (s suffix : string) : bool :=
  (String.length suffix <=? String.length s)%nat &&
  String.eqb
    (substring (String.length s - String.length suffix) (String.length suffix) s)
    suffix.

(** [strings.TrimSuffix(s, suffix)]: [s] without the suffix when it ends
    with it, else [s]. *)
Definition TrimSuffix (s suffix : string) : string :=
  if HasSuffix s suffix
  then substring 0 (String.length s - String.length suffix) s
  else s.

End GoStrings.

Module Api.
Import GoStrings.

(** *** Search keys *)

Definition SearchKeySources : string := "sources".
Definition SearchKeyASNS : string := "asns".
Definition SearchKeyCommunities : string := "communities".
Definition SearchKeyExtCommunities : string := "ext_communities".
Definition SearchKeyLargeCommunities : string := "large_communities".
Definition SearchKeyAddrFamily : string := "addr_family".

(** *** Values *)

(** [type Community []int] *)
Definition Community : Type := list Z.

(** An element of [type ExtCommunity []interface{}]: the sources put a
    string or an int there. *)
Inductive ExtElem : Type :=
| EString (s : string)
| EInt (z : Z).

Definition ExtCommunity : Type := list ExtElem.

(** A non-nil [*string]: its address and the string stored there. *)
Record StrPtr : Type := { addr : N; pointee : string }.

(** [type FilterValue interface{}]: the dynamic kinds the sources switch
    on.  [VNil] is the nil interface; a [*string] may be the nil pointer. *)
Inductive FilterValue : Type :=
| VNil
| VInt (z : Z)
| VUint8 (z : Z)
| VString (s : string)
| VStringPtr (p : option StrPtr)
| VCommunity (c : Community)
| VExtCommunity (c : ExtCommunity).

Record SearchFilter : Type := {
  Cardinality : Z;
  Name : string;
  Value : FilterValue
}.

(** [func (com Community) String() string] *)
Fixpoint Community_String_tail (com : list Z) : string :=
  match com with
  | [] => ""
  | v :: rest => ":" +:+ Itoa v +:+ Community_String_tail rest
  end.

Definition Community_String (com : Community) : string :=
  match com with
  | [] => ""
  | v :: rest => Itoa v +:+ Community_String_tail rest
  end.

(** [func (com ExtCommunity) String() string]: the assertions
    [v.(string)] at position 0 and [v.(int)] after it panic on another
    kind. *)
Fixpoint ExtCommunity_String_tail (com : list ExtElem) : result string :=
  match com with
  | [] => Ok ""
  | EInt v :: rest =>
      s ← ExtCommunity_String_tail rest; Ok (":" +:+ Itoa v +:+ s)
  | EString _ :: _ => Panic
  end.

Definition ExtCommunity_String (com : ExtCommunity) : result string :=
  match com with
  | [] => Ok ""
  | EString t :: rest => s ← ExtCommunity_String_tail rest; Ok (t +:+ s)
  | EInt _ :: _ => Panic
  end.

(** *** Comparing filter values *)

Definition ExtElem_eqb (a b : ExtElem) : bool :=
  match a, b with
  | EString x, EString y => String.eqb x y
  | EInt x, EInt y => (x =? y)
  | _, _ => false
  end.

(** Go's [==] on two [*string]: the addresses are compared. *)
Definition StrPtr_eqb (p q : option StrPtr) : bool :=
  match p, q with
  | None, None => true
  | Some a, Some b => (addr a =? addr b)%N
  | _, _ => false
  end.

Definition searchFilterCmpInt (a b : FilterValue) : result bool :=
  match a, b with
  | VInt x, VInt y => Ok (x =? y)
  | _, _ => Panic
  end.

(** The value of a string operand of [searchFilterCmpString]: the pointer
    is dereferenced, anything else is asserted to be a [string]. *)
Definition stringOperand (a : FilterValue) : result string :=
  match a with
  | VStringPtr (Some p) => Ok (pointee p)
  | VStringPtr None => Panic
  | VString s => Ok s
  | _ => Panic
  end.

Definition searchFilterCmpString (a b : FilterValue) : result bool :=
  match a, b with
  | VStringPtr p, VStringPtr q => Ok (StrPtr_eqb p q)
  | _, _ =>
      valA ← stringOperand a;
      valB ← stringOperand b;
      Ok (String.eqb valA valB)
  end.

Fixpoint components_eqb (ca cb : list Z) : bool :=
  match ca, cb with
  | [], _ => true
  | x :: ra, y :: rb => if x =? y then components_eqb ra rb else false
  | _ :: _, [] => false
  end.

Definition searchFilterCmpCommunity (a b : FilterValue) : result bool :=
  match a, b with
  | VCommunity ca, VCommunity cb =>
      if negb (length ca =? length cb)%nat then Ok false
      else Ok (components_eqb ca cb)
  | _, _ => Panic
  end.

Definition searchFilterCmpExtCommunity (a b : FilterValue) : result bool :=
  match a, b with
  | VExtCommunity ca, VExtCommunity cb =>
      match ca, cb with
      | [a0; a1; a2], [b0; b1; b2] =>
          Ok (ExtElem_eqb a0 b0 && ExtElem_eqb a1 b1 && ExtElem_eqb a2 b2)
      | _, _ => Ok false
      end
  | _, _ => Panic
  end.

(** The type switch of [Equal] on [other.Value]; [None] is the nil
    [cmp], for which [Equal] logs "Unknown search filter value type". *)
Definition selectCmp (v : FilterValue)
  : option (FilterValue -> FilterValue -> result bool) :=
  match v with
  | VCommunity _ => Some searchFilterCmpCommunity
  | VExtCommunity _ => Some searchFilterCmpExtCommunity
  | VInt _ => Some searchFilterCmpInt
  | VString _ => Some searchFilterCmpString
  | VStringPtr _ => Some searchFilterCmpString
  | VUint8 _ | VNil => None
  end.

(** [func (f *SearchFilter) Equal(other *SearchFilter) bool] *)
Definition Equal (f other : SearchFilter) : result bool :=
  match selectCmp (Value other) with
  | None => Ok false
  | Some cmp => cmp (Value f) (Value other)
  end.

(** [filterValueAsString] *)
Definition filterValueAsString (value : FilterValue) : result string :=
  match value with
  | VInt v => Ok (Itoa v)
  | VUint8 v => Ok (Itoa v)
  | VStringPtr (Some p) => Ok (pointee p)
  | VStringPtr None => Panic
  | VString v => Ok v
  | VCommunity v => Ok (Community_String v)
  | VExtCommunity v => ExtCommunity_String v
  | VNil => Panic
  end.

(** *** The heap of filters and filter groups *)

(** A [*SearchFilter] is a location; a location outside the heap is the
    nil pointer. *)
Abbreviation loc := nat.
Abbreviation heap := (gmap nat SearchFilter).

Definition deref (h : heap) (l : loc) : result SearchFilter :=
  match h !! l with
  | Some f => Ok f
  | None => Panic
  end.

(** [filtersIdx] is [None] for Go's nil map, which can be read but not
    written. *)
Record SearchFilterGroup : Type := {
  Key : string;
  Filters : list loc;
  filtersIdx : option (gmap string nat)
}.

(** [f.Equal(other)] through the two pointers: the type switch reads
    [other.Value] first; [f.Value] is read when a comparator is called, so
    a nil [f] is not dereferenced when the kind of [other] is unknown. *)
Definition equalAt (h : heap) (f other : loc) : result bool :=
  o ← deref h other;
  match selectCmp (Value o) with
  | None => Ok false
  | Some cmp => x ← deref h f; cmp (Value x) (Value o)
  end.

(** [FindFilter], on the [Filters] of the group. *)
Fixpoint FindFilter (h : heap) (fs : list loc) (filter : loc)
  : result (option loc) :=
  match fs with
  | [] => Ok None
  | l :: rest =>
      same ← equalAt h l filter;
      if (same : bool) then Ok (Some l) else FindFilter h rest filter
  end.

Definition Contains (h : heap) (fs : list loc) (filter : loc) : result bool :=
  r ← FindFilter h fs filter;
  Ok (match r with Some _ => true | None => false end).

(** [GetFilterByValue]: the index is consulted, not the list. *)
Definition GetFilterByValue (g : SearchFilterGroup) (value : FilterValue)
  : result (option loc) :=
  ref ← filterValueAsString value;
  match filtersIdx g ≫= (.!! ref) with
  | None => Ok None
  | Some idx =>
      match Filters g !! idx with
      | Some l => Ok (Some l)
      | None => Panic
      end
  end.

Definition setCardinality (c : Z) (f : SearchFilter) : SearchFilter :=
  {| Cardinality := c; Name := Name f; Value := Value f |}.

(** The insertion part of [AddFilter]. *)
Definition appendFilter (h : heap) (g : SearchFilterGroup) (filter : loc)
  (f : SearchFilter) : result (heap * SearchFilterGroup) :=
  let idx := length (Filters g) in
  ref ← filterValueAsString (Value f);
  match filtersIdx g with
  | None => Panic
  | Some m =>
      Ok (<[filter := setCardinality 1 f]> h,
          {| Key := Key g;
             Filters := Filters g ++ [filter];
             filtersIdx := Some (<[ref := idx]> m) |})
  end.

(** [AddFilter]: the filter found through the index has its cardinality
    incremented in place; otherwise the argument is appended with
    cardinality 1. *)
Definition AddFilter (h : heap) (g : SearchFilterGroup) (filter : loc)
  : result (heap * SearchFilterGroup) :=
  f ← deref h filter;
  present ← GetFilterByValue g (Value f);
  match present with
  | Some l =>
      match h !! l with
      | Some pf =>
          Ok (<[l := setCardinality (wrap_int (Cardinality pf + 1)) pf]> h, g)
      | None => appendFilter h g filter f
      end
  | None => appendFilter h g filter f
  end.

Fixpoint AddFilters (h : heap) (g : SearchFilterGroup) (filters : list loc)
  : result (heap * SearchFilterGroup) :=
  match filters with
  | [] => Ok (h, g)
  | filter :: rest =>
      '(h', g') ← AddFilter h g filter;
      AddFilters h' g' rest
  end.

(** [rebuildIndex], from position [i] on. *)
Fixpoint rebuildIndex_from (h : heap) (i : nat) (fs : list loc)
  (idx : gmap string nat) : result (gmap string nat) :=
  match fs with
  | [] => Ok idx
  | l :: rest =>
      f ← deref h l;
      ref ← filterValueAsString (Value f);
      rebuildIndex_from h (S i) rest (<[ref := i]> idx)
  end.

Definition rebuildIndex (h : heap) (g : SearchFilterGroup)
  : result SearchFilterGroup :=
  idx ← rebuildIndex_from h 0 (Filters g) ∅;
  Ok {| Key := Key g; Filters := Filters g; filtersIdx := Some idx |}.

(** *** Matching a route *)

(** [type Filterable interface]: the six match methods of a route. *)
Record Filterable : Type := {
  MatchSourceID : string -> bool;
  MatchASN : Z -> bool;
  MatchCommunity : Community -> bool;
  MatchExtCommunity : ExtCommunity -> bool;
  MatchLargeCommunity : Community -> bool;
  MatchAddrFamily : Z -> bool
}.

Definition SearchFilterComparator : Type := Filterable -> FilterValue -> bool.

Definition searchFilterMatchSource : SearchFilterComparator :=
  fun route value =>
    match value with
    | VString sourceID => MatchSourceID route sourceID
    | _ => false
    end.

Definition searchFilterMatchASN : SearchFilterComparator :=
  fun route value =>
    match value with
    | VInt asn => MatchASN route asn
    | _ => false
    end.

Definition searchFilterMatchCommunity : SearchFilterComparator :=
  fun route value =>
    match value with
    | VCommunity community => MatchCommunity route community
    | _ => false
    end.

Definition searchFilterMatchExtCommunity : SearchFilterComparator :=
  fun route value =>
    match value with
    | VExtCommunity community => MatchExtCommunity route community
    | _ => false
    end.

Definition searchFilterMatchLargeCommunity : SearchFilterComparator :=
  fun route value =>
    match value with
    | VCommunity community => MatchLargeCommunity route community
    | _ => false
    end.

(** [uint8(family)] keeps the low eight bits. *)
Definition searchFilterMatchAddrFamily : SearchFilterComparator :=
  fun route value =>
    match value with
    | VInt family => MatchAddrFamily route (family mod 256)
    | _ => false
    end.

Definition selectCmpFuncByKey (key : string) : option SearchFilterComparator :=
  if String.eqb key SearchKeySources then Some searchFilterMatchSource
  else if String.eqb key SearchKeyASNS then Some searchFilterMatchASN
  else if String.eqb key SearchKeyCommunities then Some searchFilterMatchCommunity
  else if String.eqb key SearchKeyExtCommunities then Some searchFilterMatchExtCommunity
  else if String.eqb key SearchKeyLargeCommunities then Some searchFilterMatchLargeCommunity
  else if String.eqb key SearchKeyAddrFamily then Some searchFilterMatchAddrFamily
  else None.

Fixpoint anyFilter (h : heap) (cmp : SearchFilterComparator)
  (route : Filterable) (fs : list loc) : result bool :=
  match fs with
  | [] => Ok false
  | l :: rest =>
      filter ← deref h l;
      if cmp route (Value filter) then Ok true else anyFilter h cmp route rest
  end.

Fixpoint allFilters (h : heap) (cmp : SearchFilterComparator)
  (route : Filterable) (fs : list loc) : result bool :=
  match fs with
  | [] => Ok true
  | l :: rest =>
      filter ← deref h l;
      if negb (cmp route (Value filter)) then Ok false
      else allFilters h cmp route rest
  end.

Definition MatchAny (h : heap) (g : SearchFilterGroup) (route : Filterable)
  : result bool :=
  if (length (Filters g) =? 0)%nat then Ok true
  else match selectCmpFuncByKey (Key g) with
       | None => Ok false
       | Some cmp => anyFilter h cmp route (Filters g)
       end.

Definition MatchAll (h : heap) (g : SearchFilterGroup) (route : Filterable)
  : result bool :=
  if (length (Filters g) =? 0)%nat then Ok true
  else match selectCmpFuncByKey (Key g) with
       | None => Ok false
       | Some cmp => allFilters h cmp route (Filters g)
       end.

(** *** Filter sets *)

(** [type SearchFilters []*SearchFilterGroup]; where a call changes the
    groups of its set only, the groups are kept by value and a changed
    group is written back at its position.  [Combine] and [Sub] take the
    pointers, see there. *)
Abbreviation SearchFilters := (list SearchFilterGroup).

Definition emptyGroup (key : string) : SearchFilterGroup :=
  {| Key := key; Filters := []; filtersIdx := Some ∅ |}.

Definition NewSearchFilters : SearchFilters :=
  [ emptyGroup SearchKeySources;
    emptyGroup SearchKeyASNS;
    emptyGroup SearchKeyCommunities;
    emptyGroup SearchKeyExtCommunities;
    emptyGroup SearchKeyLargeCommunities;
    emptyGroup SearchKeyAddrFamily ].

(** The position [GetGroupByKey] reads for a key. *)
Definition groupPosition (key : string) : option nat :=
  if String.eqb key SearchKeySources then Some 0%nat
  else if String.eqb key SearchKeyASNS then Some 1%nat
  else if String.eqb key SearchKeyCommunities then Some 2%nat
  else if String.eqb key SearchKeyExtCommunities then Some 3%nat
  else if String.eqb key SearchKeyLargeCommunities then Some 4%nat
  else if String.eqb key SearchKeyAddrFamily then Some 5%nat
  else None.

(** [GetGroupByKey]: [Ok None] is the nil group of an unknown key; an
    index out of range panics. *)
Definition GetGroupByKey (s : SearchFilters) (key : string)
  : result (option SearchFilterGroup) :=
  match groupPosition key with
  | None => Ok None
  | Some i =>
      match s !! i with
      | Some g => Ok (Some g)
      | None => Panic
      end
  end.

(** The group of a key, for a method call on it: nil panics. *)
Definition groupByKey (s : SearchFilters) (key : string)
  : result SearchFilterGroup :=
  o ← GetGroupByKey s key;
  match o with
  | Some g => Ok g
  | None => Panic
  end.

(** [MatchRoute] *)
Definition MatchRoute (h : heap) (s : SearchFilters) (r : Filterable)
  : result bool :=
  sources ← groupByKey s SearchKeySources;
  m ← MatchAny h sources r;
  if negb m then Ok false else
  asns ← groupByKey s SearchKeyASNS;
  m ← MatchAny h asns r;
  if negb m then Ok false else
  communities ← groupByKey s SearchKeyCommunities;
  m ← MatchAll h communities r;
  if negb m then Ok false else
  extCommunities ← groupByKey s SearchKeyExtCommunities;
  m ← MatchAll h extCommunities r;
  if negb m then Ok false else
  largeCommunities ← groupByKey s SearchKeyLargeCommunities;
  m ← MatchAll h largeCommunities r;
  if negb m then Ok false else
  addrFamily ← groupByKey s SearchKeyAddrFamily;
  m ← MatchAny h addrFamily r;
  if negb m then Ok false else
  Ok true.

(** *** Combine, Sub, MergeProperties *)

(** [Combine] and [Sub] make new groups next to the groups of their
    arguments.  For them a set is the slice of pointers itself: a
    [*SearchFilterGroup] is a location in the store of groups, and a location
    outside the store is the nil pointer. *)
Abbreviation gloc := nat.
Abbreviation groupStore := (gmap nat SearchFilterGroup).

Definition derefGroup (G : groupStore) (p : gloc) : result SearchFilterGroup :=
  match G !! p with
  | Some g => Ok g
  | None => Panic
  end.

(** [&SearchFilterGroup{...}]: a location that is not allocated and that is
    none of the pointers [held], which may be nil. *)
Definition newGroup (G : groupStore) (held : list gloc) : gloc :=
  fresh (dom G ∪ list_to_set held : gset gloc).

(** The inner loop of [Combine]: a filter of the other group is appended
    unless the list built so far contains it. *)
Fixpoint combineFilters (h : heap) (combined others : list loc)
  : result (list loc) :=
  match others with
  | [] => Ok combined
  | f :: rest =>
      c ← Contains h combined f;
      if (c : bool) then combineFilters h combined rest
      else combineFilters h (combined ++ [f]) rest
  end.

(** The body of the loop of [Combine], on the group of [s] and the pointer
    to the group of [other], which [range otherGroup.Filters] dereferences. *)
Definition combineGroup (h : heap) (group : SearchFilterGroup)
  (otherGroup : result SearchFilterGroup) : result SearchFilterGroup :=
  og ← otherGroup;
  fs ← combineFilters h (Filters group) (Filters og);
  rebuildIndex h {| Key := Key group; Filters := fs; filtersIdx := None |}.

(** A loop over the groups of [s] with their position [id]: the pointer
    of [other] at [id] is read, [group.Key] dereferences the group, the
    body makes the new group, and a pointer to it is the result at [id].
    [held] are the pointers of the two sets. *)
Fixpoint eachGroup
  (body : SearchFilterGroup -> result SearchFilterGroup -> result SearchFilterGroup)
  (held : list gloc) (G : groupStore) (id : nat) (s other : list gloc)
  : result (groupStore * list gloc) :=
  match s with
  | [] => Ok (G, [])
  | group :: rest =>
      match other !! id with
      | None => Panic
      | Some otherGroup =>
          g ← derefGroup G group;
          x ← body g (derefGroup G otherGroup);
          let p := newGroup G held in
          r ← eachGroup body held (<[p := x]> G) (S id) rest other;
          Ok (fst r, p :: snd r)
      end
  end.

(** [Combine]: the heap and the store of groups after the call, and the
    new set.  The call reads the filters of both sets and writes none: the
    heap after the call is the heap before it. *)
Definition Combine (h : heap) (G : groupStore) (s other : list gloc)
  : result (heap * groupStore * list gloc) :=
  r ← eachGroup (combineGroup h) (s ++ other) G 0 s other;
  Ok (h, fst r, snd r).

(** The inner loop of [Sub]; [otherGroup.Contains(f)] dereferences the
    pointer to the other group. *)
Fixpoint subFilters (h : heap) (fs : list loc)
  (otherGroup : result SearchFilterGroup) : result (list loc) :=
  match fs with
  | [] => Ok []
  | f :: rest =>
      og ← otherGroup;
      c ← Contains h (Filters og) f;
      kept ← subFilters h rest otherGroup;
      Ok (if (c : bool) then kept else f :: kept)
  end.

Definition subGroup (h : heap) (group : SearchFilterGroup)
  (otherGroup : result SearchFilterGroup) : result SearchFilterGroup :=
  fs ← subFilters h (Filters group) otherGroup;
  rebuildIndex h {| Key := Key group; Filters := fs; filtersIdx := None |}.

(** [Sub]: the heap and the store of groups after the call, and the new
    set. *)
Definition Sub (h : heap) (G : groupStore) (s other : list gloc)
  : result (heap * groupStore * list gloc) :=
  r ← eachGroup (subGroup h) (s ++ other) G 0 s other;
  Ok (h, fst r, snd r).

Definition setProperties (other f : SearchFilter) : SearchFilter :=
  {| Cardinality := Cardinality other; Name := Name other; Value := Value f |}.

(** The inner loop of [MergeProperties]: the filters of [fs] are written
    in place. *)
Fixpoint mergeFilters (h : heap) (fs otherFs : list loc) : result heap :=
  match fs with
  | [] => Ok h
  | filter :: rest =>
      o ← FindFilter h otherFs filter;
      match o with
      | None => mergeFilters h rest otherFs
      | Some ol =>
          f ← deref h filter;
          otherFilter ← deref h ol;
          mergeFilters (<[filter := setProperties otherFilter f]> h) rest otherFs
      end
  end.

(** [MergeProperties] *)
Fixpoint mergeGroups (h : heap) (id : nat) (s other : SearchFilters)
  : result heap :=
  match s with
  | [] => Ok h
  | group :: rest =>
      match other !! id with
      | None => Panic
      | Some otherGroup =>
          h' ← mergeFilters h (Filters group) (Filters otherGroup);
          mergeGroups h' (S id) rest other
      end
  end.

Definition MergeProperties (h : heap) (s other : SearchFilters) : result heap :=
  mergeGroups h 0 s other.

(** *** Filters from tokens *)

(** All the filter pointers of a set, group after group. *)
Definition allLocs (s : SearchFilters) : list loc := concat (map Filters s).

(** A pointer no filter has and that is none of the pointers [held], nil
    pointers included. *)
Definition newLoc (h : heap) (held : list loc) : loc :=
  fresh (dom h ∪ list_to_set held : gset loc).

(** [&SearchFilter{...}]: a new filter, at a pointer that differs from
    every pointer of the filter set at hand. *)
Definition alloc (h : heap) (held : list loc) (f : SearchFilter) : heap * loc :=
  let l := newLoc h held in (<[l := f]> h, l).

(** [value[1:]] *)
Definition dropFirst (value : string) : string :=
  match value with
  | EmptyString => EmptyString
  | String _ rest => rest
  end.

Section Tokens.

(** The two value parsers are declared outside the files at hand; each
    returns a filter or an error. *)
Variable parseExtCommunityValue : string -> result SearchFilter.
Variable parseCommunityValue : string -> result SearchFilter.

(** [parseCommunityFilterText]: the key of the group and the filter. *)
Definition parseCommunityFilterText (text : string)
  : result (string * SearchFilter) :=
  let tokens := Split text ":" in
  if (length tokens <? 2)%nat then Err "BGP community incomplete"
  else
    let maybeExt :=
      match Atoi (hd "" tokens) with
      | None => true
      | Some _ => false
      end in
    if maybeExt then
      filter ← parseExtCommunityValue text;
      Ok (SearchKeyExtCommunities, filter)
    else
      match parseCommunityValue text with
      | Ok filter =>
          if (length tokens =? 2)%nat then Ok (SearchKeyCommunities, filter)
          else Ok (SearchKeyLargeCommunities, filter)
      | Err _ => Err "BGP community incomplete"
      | Panic => Panic
      end.

(** The loop of [FiltersFromTokens]. *)
Fixpoint addTokens (h : heap) (queryFilters : SearchFilters)
  (tokens : list string) : result (heap * SearchFilters) :=
  match tokens with
  | [] => Ok (h, queryFilters)
  | value :: rest =>
      if HasPrefix value "#" then
        '(key, filter) ← parseCommunityFilterText (dropFirst value);
        g ← groupByKey queryFilters key;
        let '(h1, l) := alloc h (allLocs queryFilters) filter in
        '(h2, g') ← AddFilter h1 g l;
        match groupPosition key with
        | Some i => addTokens h2 (<[i := g']> queryFilters) rest
        | None => Panic
        end
      else addTokens h queryFilters rest
  end.

(** [FiltersFromTokens] *)
Definition FiltersFromTokens (h : heap) (tokens : list string)
  : result (heap * SearchFilters) :=
  addTokens h NewSearchFilters tokens.

End Tokens.

(** [HasGroup]: the length is read through the group pointer, which is nil
    for an unknown key. *)
Definition HasGroup (s : SearchFilters) (key : string) : result bool :=
  group ← groupByKey s key;
  Ok (0 <? length (Filters group))%nat.

(** The loop bodies of [UpdateFromRoute]: a new filter for every community
    of the route, named by its canonical string, added to the group.
    [held] are the pointers of the filter set when the loop starts. *)
Fixpoint addCommunityFilters (held : list loc) (h : heap)
  (g : SearchFilterGroup) (cs : list Community)
  : result (heap * SearchFilterGroup) :=
  match cs with
  | [] => Ok (h, g)
  | c :: rest =>
      let '(h1, l) :=
        alloc h held {| Cardinality := 0; Name := Community_String c;
                        Value := VCommunity c |} in
      '(h2, g') ← AddFilter h1 g l;
      addCommunityFilters held h2 g' rest
  end.

Fixpoint addExtCommunityFilters (held : list loc) (h : heap)
  (g : SearchFilterGroup) (cs : list ExtCommunity)
  : result (heap * SearchFilterGroup) :=
  match cs with
  | [] => Ok (h, g)
  | c :: rest =>
      name ← ExtCommunity_String c;
      let '(h1, l) :=
        alloc h held {| Cardinality := 0; Name := name;
                        Value := VExtCommunity c |} in
      '(h2, g') ← AddFilter h1 g l;
      addExtCommunityFilters held h2 g' rest
  end.

(** The group of [key] after a loop has run on it. *)
Definition updateGroup (s : SearchFilters) (key : string)
  (body : SearchFilterGroup -> result (heap * SearchFilterGroup))
  : result (heap * SearchFilters) :=
  g ← groupByKey s key;
  '(h', g') ← body g;
  match groupPosition key with
  | Some i => Ok (h', <[i := g']> s)
  | None => Panic
  end.

(** [UpdateFromRoute], on the three community lists of the route's
    [BGP] attributes. *)
Definition UpdateFromRoute (h : heap) (s : SearchFilters)
  (communities : list Community) (extCommunities : list ExtCommunity)
  (largeCommunities : list Community) : result (heap * SearchFilters) :=
  '(h1, s1) ← updateGroup s SearchKeyCommunities
                (fun g => addCommunityFilters (allLocs s) h g communities);
  '(h2, s2) ← updateGroup s1 SearchKeyExtCommunities
                (fun g => addExtCommunityFilters (allLocs s1) h1 g
                            extCommunities);
  updateGroup s2 SearchKeyLargeCommunities
    (fun g => addCommunityFilters (allLocs s2) h2 g largeCommunities).

End Api.

Module Config.
Import GoStrings.

Definition newline : ascii := ascii_of_nat 10.

(** [ErrInvalidCommunity] *)
Definition ErrInvalidCommunity {A} (s : string) : result A :=
  Err ("invalid community: " +:+ s).

(** *** Label directories *)

Section Directory.

(** [api.BGPCommunityMap] and its [Set] method are declared outside the
    files at hand. *)
Variable BGPCommunityMap : Type.
Variable BGPCommunityMap_Set : BGPCommunityMap -> string -> string -> BGPCommunityMap.

(** One line of [parseAndMergeCommunities]; the second component is the
    log. *)
Definition mergeLine (st : BGPCommunityMap * list string) (line : string)
  : BGPCommunityMap * list string :=
  let '(communities, log) := st in
  match SplitN2 line "="%char with
  | [k; v] =>
      let community := TrimSpace k in
      let label := TrimSpace v in
      (BGPCommunityMap_Set communities community label, log)
  | _ => (communities, (log ++ ["Skipping malformed BGP community: " +:+ line])%list)
  end.

(** [parseAndMergeCommunities], with the lines it logged. *)
Definition parseAndMergeCommunities (communities : BGPCommunityMap)
  (body : string) : BGPCommunityMap * list string :=
  fold_left mergeLine (Split body newline) (communities, []).

(** The loop over the comma-separated value of a [communities] line.
    [n] counts pieces of the input, whose length is an [int]: it cannot
    wrap around. *)
Fixpoint setCandidates (comms : BGPCommunityMap) (n : Z) (cs : list string)
  : BGPCommunityMap * Z :=
  match cs with
  | [] => (comms, n)
  | c :: rest =>
      let n := n + 1 in
      setCandidates
        (BGPCommunityMap_Set comms c ("reject-candidate-" +:+ Itoa n)) n rest
  end.

(** One line of [parseRejectionCandidateCommunities]: the map, [n] and
    the log. *)
Definition candidateLine (st : BGPCommunityMap * Z * list string)
  (line : string) : BGPCommunityMap * Z * list string :=
  let '(comms, n, log) := st in
  match SplitN2 line "="%char with
  | [k; v] =>
      let key := TrimSpace k in
      if negb (String.eqb key "communities") then
        (comms, n,
         (log ++ ["unexpected key '" +:+ key
                    +:+ "' in section 'rejection_candidates'"])%list)
      else
        let value := TrimSpace v in
        let '(comms', n') := setCandidates comms n (Split value ","%char) in
        (comms', n', log)
  | _ =>
      (comms, n,
       (log ++ ["Skipping malformed reject candidate BGP community: " +:+ line])%list)
  end.

(** [parseRejectionCandidateCommunities]: the map is changed in place,
    the returned error is the outcome. *)
Definition parseRejectionCandidateCommunities (comms : BGPCommunityMap)
  (s : string) : result (BGPCommunityMap * list string) :=
  let '(comms', _, log) :=
    fold_left candidateLine (Split s newline) (comms, 0, []) in
  Ok (comms', log).

End Directory.

(** *** Community ranges *)

(** An element of [type BGPCommunityRange []interface{}]: a [[]string] or
    a [[]int]. *)
Inductive RangeElem : Type :=
| RStrings (l : list string)
| RInts (l : list Z).

Definition BGPCommunityRange : Type := list RangeElem.

(** The values of [BGPCommunityRange.Type()]: the three constants the
    switch of [parseRangeCommunitiesSet] names, and any other int. *)
Inductive BGPCommunityType : Type :=
| BGPCommunityTypeStd
| BGPCommunityTypeLarge
| BGPCommunityTypeExt
| BGPCommunityTypeOther.

Record BGPCommunitiesSet : Type := {
  Standard : list BGPCommunityRange;
  Large : list BGPCommunityRange;
  Extended : list BGPCommunityRange
}.

Section Ranges.

(** [decoders.IntListFromStrings] and [BGPCommunityRange.Type] are
    declared outside the files at hand. *)
Variable IntListFromStrings : list string -> list Z.
Variable RangeType : BGPCommunityRange -> BGPCommunityType.

(** The first loop of [parseRangeCommunity]: every token becomes a pair
    of bounds. *)
Fixpoint rangeParts (s : string) (tokens : list string)
  : result (list (list string)) :=
  match tokens with
  | [] => Ok []
  | t :: rest =>
      match SplitN2 t "-"%char with
      | [] => ErrInvalidCommunity s
      | [v0] => parts ← rangeParts s rest; Ok ([v0; v0] :: parts)
      | v0 :: v1 :: _ => parts ← rangeParts s rest; Ok ([v0; v1] :: parts)
      end
  end.

(** [parseRangeCommunity] *)
Definition parseRangeCommunity (s : string) : result BGPCommunityRange :=
  let tokens := Split s ":"%char in
  if (length tokens <? 2)%nat then ErrInvalidCommunity s
  else
    parts ← rangeParts s tokens;
    if (length parts <=? 1)%nat then ErrInvalidCommunity s
    else
      match parts with
      | (p00 :: _) :: _ =>
          let isExt :=
            match Atoi p00 with
            | None => true
            | Some _ => false
            end in
          if isExt && negb (length parts =? 3)%nat then ErrInvalidCommunity s
          else if isExt then
            match parts with
            | _ :: p1 :: p2 :: _ =>
                Ok [RStrings [p00; p00];
                    RInts (IntListFromStrings p1);
                    RInts (IntListFromStrings p2)]
            | _ => Panic
            end
          else Ok (map (fun p => RInts (IntListFromStrings p)) parts)
      | _ => Panic
      end.

(** The loop of [parseRangeCommunitiesSet]. *)
Fixpoint rangeLines (lines : list string)
  (comms large ext : list BGPCommunityRange) : result BGPCommunitiesSet :=
  match lines with
  | [] => Ok {| Standard := comms; Large := large; Extended := ext |}
  | line :: rest =>
      let line := TrimSpace line in
      if String.eqb line "" then rangeLines rest comms large ext
      else if HasPrefix line "#" then rangeLines rest comms large ext
      else
        comm ← parseRangeCommunity line;
        match RangeType comm with
        | BGPCommunityTypeStd => rangeLines rest (comms ++ [comm]) large ext
        | BGPCommunityTypeLarge => rangeLines rest comms (large ++ [comm]) ext
        | BGPCommunityTypeExt => rangeLines rest comms large (ext ++ [comm])
        | BGPCommunityTypeOther => rangeLines rest comms large ext
        end
  end.

(** [parseRangeCommunitiesSet] *)
Definition parseRangeCommunitiesSet (body : string) : result BGPCommunitiesSet :=
  rangeLines (Split body newline) [] [] [].

End Ranges.

End Config.

(** ** Package [api]: response types *)

Module ApiTypes.
Import GoStrings Api.

(** [type RouteServer struct] *)
Record RouteServer : Type := {
  ID : string;
  Type_ : string;
  RouteServer_Name : string;
  Group : string;
  Blackholes : list string;
  Order : Z
}.

(** [type RouteServers []RouteServer] *)
Abbreviation RouteServers := (list RouteServer).

(** [rs[i]] for an [int] index. *)
Definition at_index {A : Type} (rs : list A) (i : Z) : result A :=
  if i <? 0 then Panic
  else match rs !! Z.to_nat i with
       | Some x => Ok x
       | None => Panic
       end.

(** [func (rs RouteServers) Len() int] *)
Definition Len (rs : RouteServers) : Z := Z.of_nat (length rs).

(** [func (rs RouteServers) Less(i, j int) bool] *)
Definition Less (rs : RouteServers) (i j : Z) : result bool :=
  a ← at_index rs i;
  b ← at_index rs j;
  Ok (Order a <? Order b).

(** [func (rs RouteServers) Swap(i, j int)]: the slice after the swap. *)
Definition Swap (rs : RouteServers) (i j : Z) : result RouteServers :=
  b ← at_index rs j;
  a ← at_index rs i;
  Ok (<[Z.to_nat j := a]> (<[Z.to_nat i := b]> rs)).

(** [type BGPInfo struct]; [None] is a nil pointer. *)
Record BGPInfo : Type := {
  Origin : option string;
  AsPath : list Z;
  NextHop : option string;
  Communities : list Community;
  LargeCommunities : list Community;
  ExtCommunities : list ExtCommunity;
  LocalPref : Z;
  Med : Z;
  OTC : option Z
}.

(** The loop of [HasCommunity]: both lengths are 2 where the elements are
    read. *)
Fixpoint hasPair (coms : list Community) (community : Community) : bool :=
  match coms with
  | [] => false
  | com :: rest =>
      if negb (length com =? length community)%nat then hasPair rest community
      else if (nth 0 com 0 =? nth 0 community 0) &&
              (nth 1 com 0 =? nth 1 community 0)
           then true
           else hasPair rest community
  end.

(** [func (bgp *BGPInfo) HasCommunity(community Community) bool] *)
Definition HasCommunity (bgp : BGPInfo) (community : Community) : bool :=
  if negb (length community =? 2)%nat then false
  else hasPair (Communities bgp) community.

(** The loop of [HasLargeCommunity]. *)
Fixpoint hasTriple (coms : list Community) (community : Community) : bool :=
  match coms with
  | [] => false
  | com :: rest =>
      if negb (length com =? length community)%nat then hasTriple rest community
      else if (nth 0 com 0 =? nth 0 community 0) &&
              (nth 1 com 0 =? nth 1 community 0) &&
              (nth 2 com 0 =? nth 2 community 0)
           then true
           else hasTriple rest community
  end.

(** [func (bgp *BGPInfo) HasLargeCommunity(community Community) bool] *)
Definition HasLargeCommunity (bgp : BGPInfo) (community : Community) : bool :=
  if negb (length community =? 3)%nat then false
  else hasTriple (LargeCommunities bgp) community.

(** The loop of [HasExtCommunity]; the elements are compared as interface
    values. *)
Fixpoint hasExtTriple (coms : list ExtCommunity) (community : ExtCommunity)
  : bool :=
  match coms with
  | [] => false
  | com :: rest =>
      if negb (length com =? length community)%nat then hasExtTriple rest community
      else if ExtElem_eqb (nth 0 com (EInt 0)) (nth 0 community (EInt 0)) &&
              ExtElem_eqb (nth 1 com (EInt 0)) (nth 1 community (EInt 0)) &&
              ExtElem_eqb (nth 2 com (EInt 0)) (nth 2 community (EInt 0))
           then true
           else hasExtTriple rest community
  end.

(** [func (bgp *BGPInfo) HasExtCommunity(community ExtCommunity) bool] *)
Definition HasExtCommunity (bgp : BGPInfo) (community : ExtCommunity) : bool :=
  if negb (length community =? 3)%nat then false
  else hasExtTriple (ExtCommunities bgp) community.

End ApiTypes.

(** ** Package [api]: the neighbor filter *)

Module Neighbors.

(** [type NeighborFilter struct] *)
Record NeighborFilter : Type := { name : string; asn : Z }.

(** The two methods of [*Neighbor] that [Match] calls; the type is declared
    outside the files at hand. *)
Record Neighbor : Type := {
  MatchName : string -> bool;
  MatchASN : Z -> bool
}.

(** [func (s *NeighborFilter) Match(neighbor *Neighbor) bool] *)
Definition Match (s : NeighborFilter) (neighbor : Neighbor) : bool :=
  if negb (String.eqb (name s) "") && MatchName neighbor (name s) then true
  else if (0 <? asn s) && MatchASN neighbor (asn s) then true
  else false.

End Neighbors.

(** ** Package [decoders] *)

Module Decoders.

(** Go's [any], with the dynamic kinds the map helpers tell apart. *)
#[warnings="-register-all"]
Inductive any : Type :=
| ANil
| AString (s : string)
| ABool (b : bool)
| AInt (z : Z)
| AMap (m : gmap string any).

(** [MapGet] *)
Definition MapGet (m : any) (key : string) (fallback : any) : any :=
  match m with
  | AMap smap =>
      match smap !! key with
      | Some val => val
      | None => fallback
      end
  | _ => fallback
  end.

(** [MapGetString]: the assertion [val.(string)] panics on another kind. *)
Definition MapGetString (m : any) (key : string) (fallback : string)
  : result string :=
  match MapGet m key (AString fallback) with
  | AString s => Ok s
  | _ => Panic
  end.

(** [MapGetBool] *)
Definition MapGetBool (m : any) (key : string) (fallback : bool) : result bool :=
  match MapGet m key (ABool fallback) with
  | ABool b => Ok b
  | _ => Panic
  end.

End Decoders.

(** ** Package [birdwatcher] *)

Module Birdwatcher.
Import GoStrings.

(** [type Client struct] *)
Record Client : Type := { api : string }.

(** [NewClient] *)
Definition NewClient (api : string) : Client :=
  let api := TrimSuffix api "/" in
  {| api := api |}.

End Birdwatcher.

(** ** Address families of a filter set

    [SetFilterAddrFamilies] and [addFilterAddrFamily] of the search
    filters. *)

Module AddrFamilies.
Import GoStrings Api.

Section Families.

(** The constants [AddrFamilyIPv4] and [AddrFamilyIPv6], of type [uint8],
    are declared outside the files at hand. *)
Variable AddrFamilyIPv4 : Z.
Variable AddrFamilyIPv6 : Z.

(** [func (s *SearchFilters) addFilterAddrFamily(af uint8)] *)
Definition addFilterAddrFamily (h : heap) (s : SearchFilters) (af : Z)
  : result (heap * SearchFilters) :=
  let name := if af =? AddrFamilyIPv6 then "IPv6"%string else "IPv4"%string in
  updateGroup s SearchKeyAddrFamily
    (fun grp =>
       let '(h1, l) :=
         alloc h (allLocs s)
           {| Cardinality := 1; Name := name; Value := VInt af |} in
       AddFilter h1 grp l).

(** [func (s *SearchFilters) SetFilterAddrFamilies(ip4, ip6 bool)] *)
Definition SetFilterAddrFamilies (h : heap) (s : SearchFilters)
  (ip4 ip6 : bool) : result (heap * SearchFilters) :=
  '(h1, s1) ← (if ip4 then addFilterAddrFamily h s AddrFamilyIPv4
               else Ok (h, s));
  if ip6 then addFilterAddrFamily h1 s1 AddrFamilyIPv6 else Ok (h1, s1).

End Families.

End AddrFamilies.

(** ** The parts declared outside the files at hand *)

Module SpecModel.
Import GoStrings Api Config.

Fixpoint atoiAll (l : list string) : option (list Z) :=
  match l with
  | [] => Some []
  | s :: rest =>
      match Atoi s, atoiAll rest with
      | Some z, Some zs => Some (z :: zs)
      | _, _ => None
      end
  end.

(** Modelled from the spec: [parseCommunityValue], which is outside the
    files at hand.  "communities/large_communities are colon-delimited
    integers"; a filter parsed from a request has no label and no count; a
    malformed value is an error. *)
Definition parseCommunityValue (value : string) : result SearchFilter :=
  match atoiAll (Split value ":"%char) with
  | Some c => Ok {| Cardinality := 0; Name := ""; Value := VCommunity c |}
  | None => Err "community malformed"
  end.

(** Modelled from the spec: [parseExtCommunityValue], which is outside the
    files at hand.  "ext_communities are tag:int:int". *)
Definition parseExtCommunityValue (value : string) : result SearchFilter :=
  match Split value ":"%char with
  | [tag; a; b] =>
      match Atoi a, Atoi b with
      | Some x, Some y =>
          Ok {| Cardinality := 0; Name := "";
                Value := VExtCommunity [EString tag; EInt x; EInt y] |}
      | _, _ => Err "community malformed"
      end
  | _ => Err "community malformed"
  end.

(** Modelled from the spec: [api.BGPCommunityMap] and its [Set], which are
    outside the files at hand.  "A flat community to label directory": one
    entry per key, a later [Set] of the same key replaces the label. *)
Definition Directory : Type := gmap string string.
Definition Directory_Set (m : gmap string string) (community label : string)
  : gmap string string := <[community := label]> m.

(** Modelled from the spec: [decoders.IntListFromStrings], which is outside
    the files at hand.  The spec says only that a positional element is
    the set of integers between its low and its high bound; the bounds are
    read with [Atoi], and 0 stands for a bound that is no integer.  The
    theorems take the decoder as a parameter. *)
Definition IntListFromStrings (strs : list string) : list Z :=
  map (fun s => default 0 (Atoi s)) strs.

(** Modelled from the spec: [BGPCommunityRange.Type], which is outside the
    files at hand.  "exactly 2 positional range-tokens and the first token
    being integer-parseable: standard; 3 positional range-tokens and first
    token integer-parseable: large; first token NOT integer-parseable:
    extended".  A first element of strings is what [parseRangeCommunity]
    builds when the first token is no integer. *)
Definition RangeType (c : BGPCommunityRange) : BGPCommunityType :=
  match c with
  | RStrings _ :: _ => BGPCommunityTypeExt
  | [RInts _; _] => BGPCommunityTypeStd
  | [RInts _; _; _] => BGPCommunityTypeLarge
  | _ => BGPCommunityTypeOther
  end.

End SpecModel.

(** ** Vocabulary of the properties *)

Import GoStrings Api Config.
Local Open Scope list_scope.

(** The dynamic kind of a filter value. *)
Inductive Kind : Type :=
| KNil | KInt | KUint8 | KString | KStringPtr | KCommunity | KExtCommunity.

Definition kindOf (v : FilterValue) : Kind :=
  match v with
  | VNil => KNil
  | VInt _ => KInt
  | VUint8 _ => KUint8
  | VString _ => KString
  | VStringPtr _ => KStringPtr
  | VCommunity _ => KCommunity
  | VExtCommunity _ => KExtCommunity
  end.

#[global] Instance Kind_eq_dec : EqDecision Kind.
Proof. solve_decision. Defined.

(** What [Equal] does on two values of different kinds: [other] of a kind
    the type switch does not know gives false (the logged case); a string
    and a non-nil string pointer are compared by content; every other pair
    fails a type assertion. *)
Definition crossKindEqual (a b : FilterValue) : result bool :=
  match b, a with
  | (VNil | VUint8 _), _ => Ok false
  | VString s, VStringPtr (Some p) => Ok (String.eqb (pointee p) s)
  | VStringPtr (Some q), VString s => Ok (String.eqb s (pointee q))
  | _, _ => Panic
  end.

Definition filterOf (v : FilterValue) : SearchFilter :=
  {| Cardinality := 0; Name := ""; Value := v |}.

(** The matcher [MatchRoute] applies at each facet position, in order. *)
Definition facetMatchers
  : list (heap -> SearchFilterGroup -> Filterable -> result bool) :=
  [MatchAny; MatchAny; MatchAll; MatchAll; MatchAll; MatchAny].

(** Facet [j] of the set [s] is present and its matcher returns [b]. *)
Definition facetReturns (h : heap) (s : SearchFilters) (r : Filterable)
  (j : nat) (b : bool) : Prop :=
  exists g m, s !! j = Some g /\ facetMatchers !! j = Some m /\ m h g r = Ok b.

(** A route that matches the sources and ASNs it is asked about and has
    no community. *)
Definition plainRoute : Filterable :=
  {| MatchSourceID := fun s => String.eqb s "rs1";
     MatchASN := fun a => (a =? 64512);
     MatchCommunity := fun _ => false;
     MatchExtCommunity := fun _ => false;
     MatchLargeCommunity := fun _ => false;
     MatchAddrFamily := fun _ => true |}.

(** The filter at [l] has the canonical string [ref]. *)
Definition hasRef (h : heap) (ref : string) (l : loc) : Prop :=
  exists f, h !! l = Some f /\ filterValueAsString (Value f) = Ok ref.

(** No filter of the list has the canonical string [ref]. *)
Definition lacksRef (h : heap) (ref : string) (fs : list loc) : Prop :=
  forall l f, l ∈ fs -> h !! l = Some f ->
              filterValueAsString (Value f) <> Ok ref.

(** The kinds of value each facet position holds: sources are strings or
    non-nil string pointers, ASNs and address families are ints, communities
    and large communities are [Community], extended communities are a
    string tag and two ints. *)
Definition facetKindOk (i : nat) (v : FilterValue) : bool :=
  match i, v with
  | 0%nat, VString _ => true
  | 0%nat, VStringPtr (Some _) => true
  | 1%nat, VInt _ => true
  | 2%nat, VCommunity _ => true
  | 3%nat, VExtCommunity [EString _; EInt _; EInt _] => true
  | 4%nat, VCommunity _ => true
  | 5%nat, VInt _ => true
  | _, _ => false
  end.

(** The filter at [l] exists and its value is of the kind of facet [i]. *)
Definition locTyped (h : heap) (i : nat) (l : loc) : bool :=
  match h !! l with
  | Some f => facetKindOk i (Value f)
  | None => false
  end.

Definition filtersTyped (h : heap) (i : nat) (fs : list loc) : bool :=
  forallb (locTyped h i) fs.

(** A filter set over the six facets: six groups, each holding values of
    the kind of its position. *)
Definition setTyped (h : heap) (s : SearchFilters) : Prop :=
  length s = 6%nat /\
  forall i g, s !! i = Some g -> filtersTyped h i (Filters g) = true.

(** [Contains] returned true. *)
Definition isContained (h : heap) (fs : list loc) (l : loc) : bool :=
  match Contains h fs l with
  | Ok true => true
  | _ => false
  end.

(** No filter of [rest] is contained, by [Equal], in [pre] followed by the
    filters of [rest] before it. *)
Fixpoint noDupFrom (h : heap) (pre rest : list loc) : bool :=
  match rest with
  | [] => true
  | l :: r =>
      match Contains h pre l with
      | Ok false => noDupFrom h (pre ++ [l]) r
      | _ => false
      end
  end.

(** The group invariant of the data model: no two filters of a group have
    equal values. *)
Definition noDuplicates (h : heap) (fs : list loc) : bool := noDupFrom h [] fs.

(** Two heaps hold the same filter values at the same locations. *)
Definition sameValues (h h' : heap) : Prop :=
  forall l, Value <$> (h' !! l) = Value <$> (h !! l).

(** What [MergeProperties] leaves at [l], a filter [f] of a group of self
    whose counterpart group has the filters [otherFs]: the label and
    cardinality of the counterpart [FindFilter] returns, or [f] as it was. *)
Definition mergedAt (h h' : heap) (otherFs : list loc) (l : loc)
  (f : SearchFilter) : Prop :=
  match FindFilter h otherFs l with
  | Ok (Some ol) => exists fo, h !! ol = Some fo /\ h' !! l = Some (setProperties fo f)
  | Ok None => h' !! l = Some f
  | _ => False
  end.

(** The two bounds [parseRangeCommunity] makes of a colon-token: the text
    before and after its first hyphen, or the token twice. *)
Definition partOf (t : string) : list string :=
  match cut t "-"%char with
  | Some (lo, hi) => [lo; hi]
  | None => [t; t]
  end.

(** The text of a colon-token before its first hyphen. *)
Definition lowerBound (t : string) : string := hd "" (partOf t).

(** A trimmed line [parseRangeCommunitiesSet] parses: not empty, no
    comment. *)
Definition isEffective (t : string) : bool :=
  negb (String.eqb t "") && negb (HasPrefix t "#").

Definition effectiveLines (body : string) : list string :=
  List.filter isEffective (map TrimSpace (Split body newline)).

Definition typeIs (t u : BGPCommunityType) : bool :=
  match t, u with
  | BGPCommunityTypeStd, BGPCommunityTypeStd => true
  | BGPCommunityTypeLarge, BGPCommunityTypeLarge => true
  | BGPCommunityTypeExt, BGPCommunityTypeExt => true
  | BGPCommunityTypeOther, BGPCommunityTypeOther => true
  | _, _ => false
  end.

(** The ranges of the lines that parse, in order. *)
Fixpoint okRanges (parse : string -> result BGPCommunityRange)
  (ts : list string) : list BGPCommunityRange :=
  match ts with
  | [] => []
  | t :: rest =>
      match parse t with
      | Ok r => r :: okRanges parse rest
      | _ => okRanges parse rest
      end
  end.

(** The trimmed key and label of a line of the form [key = label]. *)
Definition entryOf (line : string) : option (string * string) :=
  match cut line "="%char with
  | Some (k, v) => Some (TrimSpace k, TrimSpace v)
  | None => None
  end.

Fixpoint entriesOf (lines : list string) : list (string * string) :=
  match lines with
  | [] => []
  | line :: rest =>
      match entryOf line with
      | Some e => e :: entriesOf rest
      | None => entriesOf rest
      end
  end.

(** The warnings of [parseAndMergeCommunities]: one for each line without
    an equals sign. *)
Fixpoint mergeWarnings (lines : list string) : list string :=
  match lines with
  | [] => []
  | line :: rest =>
      match entryOf line with
      | Some _ => mergeWarnings rest
      | None => ("Skipping malformed BGP community: " +:+ line) :: mergeWarnings rest
      end
  end.

(** The communities a line of a rejection-candidate section lists. *)
Definition candidatesOf (line : string) : list string :=
  match entryOf line with
  | Some (key, value) =>
      if String.eqb key "communities" then Split value ","%char else []
  | None => []
  end.

Definition allCandidates (lines : list string) : list string :=
  concat (map candidatesOf lines).

(** The warning of [parseRejectionCandidateCommunities] for a line. *)
Definition candidateWarning (line : string) : list string :=
  match entryOf line with
  | Some (key, _) =>
      if String.eqb key "communities" then []
      else ["unexpected key '" +:+ key +:+ "' in section 'rejection_candidates'"]
  | None => ["Skipping malformed reject candidate BGP community: " +:+ line]
  end.

Definition candidateLabel (n : Z) : string := "reject-candidate-" +:+ Itoa n.

(** The candidates with their labels, the first numbered [n + 1]. *)
Fixpoint numberFrom (n : Z) (cs : list string) : list (string * string) :=
  match cs with
  | [] => []
  | c :: rest => (c, candidateLabel (n + 1)) :: numberFrom (n + 1) rest
  end.

(** The entries set one after the other. *)
Definition setAll {M : Type} (set : M -> string -> string -> M)
  (m : M) (entries : list (string * string)) : M :=
  fold_left (fun m e => set m (fst e) (snd e)) entries m.

(** *** A small world for the examples

    An aggregate set [exA] built from live data (labels and counts) and a
    set [exB] parsed from a request (no label, no count), in one heap. *)

Definition exFilter (c : Z) (n : string) (v : FilterValue) : SearchFilter :=
  {| Cardinality := c; Name := n; Value := v |}.

Definition exHeap : heap :=
  <[1%nat := exFilter 4 "AS64512" (VInt 64512)]>
  (<[2%nat := exFilter 2 "blackhole" (VCommunity [65000; 100])]>
  (<[3%nat := exFilter 0 "" (VInt 64512)]>
  (<[4%nat := exFilter 0 "" (VCommunity [65000; 200])]>
  (<[5%nat := exFilter 0 "" (VInt 64513)]>
  (<[6%nat := exFilter 9 "other" (VCommunity [65000; 100])]>
  (<[7%nat := exFilter 1 "rs2" (VString "rs2")]> ∅)))))).

Definition exGroup (key : string) (fs : list loc) (idx : list (string * nat))
  : SearchFilterGroup :=
  {| Key := key; Filters := fs; filtersIdx := Some (list_to_map idx) |}.

Definition exA : SearchFilters :=
  [ exGroup SearchKeySources [] [];
    exGroup SearchKeyASNS [1%nat] [("64512", 0%nat)];
    exGroup SearchKeyCommunities [2%nat] [("65000:100", 0%nat)];
    exGroup SearchKeyExtCommunities [] [];
    exGroup SearchKeyLargeCommunities [] [];
    exGroup SearchKeyAddrFamily [] [] ].

Definition exB : SearchFilters :=
  [ exGroup SearchKeySources [] [];
    exGroup SearchKeyASNS [3%nat; 5%nat] [("64512", 0%nat); ("64513", 1%nat)];
    exGroup SearchKeyCommunities [4%nat] [("65000:200", 0%nat)];
    exGroup SearchKeyExtCommunities [] [];
    exGroup SearchKeyLargeCommunities [] [];
    exGroup SearchKeyAddrFamily [] [] ].

(** The set of pointers [s] has, in the store [G], the groups [gs]. *)
Definition groupsOf (G : groupStore) (s : list gloc) (gs : SearchFilters) : Prop :=
  Forall2 (fun p g => G !! p = Some g) s gs.

(** The two sets as slices of pointers, in one store of groups. *)
Definition exAp : list gloc := [10; 11; 12; 13; 14; 15]%nat.
Definition exBp : list gloc := [20; 21; 22; 23; 24; 25]%nat.
Definition exG : groupStore := list_to_map (zip exAp exA ++ zip exBp exB).

(** *** Vocabulary of the further properties *)

(** The index of a group is the inverse of the positions of its filters:
    a canonical string is mapped to [i] exactly when the filter at
    position [i] has it. *)
Definition indexed (h : heap) (g : SearchFilterGroup) : Prop :=
  exists m,
    filtersIdx g = Some m /\
    forall ref i,
      m !! ref = Some i <->
      exists l f, Filters g !! i = Some l /\ h !! l = Some f /\
                  filterValueAsString (Value f) = Ok ref.

(** The kind of value the matcher of a facet key asserts. *)
Definition matcherKind (key : string) : option Kind :=
  if String.eqb key SearchKeySources then Some KString
  else if String.eqb key SearchKeyASNS then Some KInt
  else if String.eqb key SearchKeyCommunities then Some KCommunity
  else if String.eqb key SearchKeyExtCommunities then Some KExtCommunity
  else if String.eqb key SearchKeyLargeCommunities then Some KCommunity
  else if String.eqb key SearchKeyAddrFamily then Some KInt
  else None.

(** The count a group shows for a canonical string: the cardinality of the
    filter the index has for it, 0 without one. *)
Definition countOf (h : heap) (g : SearchFilterGroup) (ref : string) : Z :=
  match filtersIdx g ≫= (.!! ref) with
  | Some i =>
      match Filters g !! i ≫= (h !!.) with
      | Some f => Cardinality f
      | None => 0
      end
  | None => 0
  end.

(** The byte [c] occurs in [s]. *)
Fixpoint occurs (c : ascii) (s : string) : bool :=
  match s with
  | EmptyString => false
  | String a rest => Ascii.eqb a c || occurs c rest
  end.

(** An [int]. *)
Definition inRange (z : Z) : Prop := min_int <= z <= max_int.

(** The filter at [l] has the canonical string [ref], as a test. *)
Definition hasRefb (h : heap) (ref : string) (l : loc) : bool :=
  match h !! l with
  | Some f =>
      match filterValueAsString (Value f) with
      | Ok r => String.eqb r ref
      | _ => false
      end
  | None => false
  end.

(** How many filters of the list have the canonical string [ref]. *)
Definition refCount (h : heap) (ref : string) (ls : list loc) : Z :=
  Z.of_nat (length (List.filter (hasRefb h ref) ls)).

(** The filter at [l] exists and has a canonical string. *)
Definition addable (h : heap) (l : loc) : Prop :=
  exists f ref, h !! l = Some f /\ filterValueAsString (Value f) = Ok ref.

(** The number [digits] reads from the decimal digits [d] after [acc]. *)
Fixpoint accValue (d : Decimal.uint) (acc : Z) : Z :=
  match d with
  | Decimal.Nil => acc
  | Decimal.D0 l => accValue l (acc * 10 + 0)
  | Decimal.D1 l => accValue l (acc * 10 + 1)
  | Decimal.D2 l => accValue l (acc * 10 + 2)
  | Decimal.D3 l => accValue l (acc * 10 + 3)
  | Decimal.D4 l => accValue l (acc * 10 + 4)
  | Decimal.D5 l => accValue l (acc * 10 + 5)
  | Decimal.D6 l => accValue l (acc * 10 + 6)
  | Decimal.D7 l => accValue l (acc * 10 + 7)
  | Decimal.D8 l => accValue l (acc * 10 + 8)
  | Decimal.D9 l => accValue l (acc * 10 + 9)
  end.

Import ApiTypes.

(** Two route servers, out of order. *)
Definition exServers : RouteServers :=
  [ {| ID := "rs1"; Type_ := "bird"; RouteServer_Name := "one"; Group := "a";
       Blackholes := []; Order := 2 |};
    {| ID := "rs2"; Type_ := "bird"; RouteServer_Name := "two"; Group := "a";
       Blackholes := []; Order := 1 |} ].

(** A directory and its attributes, as decoded from JSON. *)
Definition exStatus : Decoders.any :=
  Decoders.AMap (<["version" := Decoders.AString "2.0"]>
                   (<["ready" := Decoders.ABool true]> ∅)).

(** Every filter of the group exists: the group holds no nil pointer. *)
Definition grounded (h : heap) (g : SearchFilterGroup) : Prop :=
  forall l, l ∈ Filters g -> is_Some (h !! l).

(** [h'] has every filter of [h], with the same value. *)
Definition extendsValues (h h' : heap) : Prop :=
  forall l f, h !! l = Some f ->
              exists f', h' !! l = Some f' /\ Value f' = Value f.

(** How many communities of the list have the canonical string [ref]. *)
Definition stringCount (ref : string) (cs : list Community) : Z :=
  Z.of_nat (length (List.filter (fun c => String.eqb (Community_String c) ref) cs)).

(** No filter of [g] is a filter of [g']. *)
Definition apart (g g' : SearchFilterGroup) : Prop :=
  forall l, l ∈ Filters g -> l ∉ Filters g'.

(** The extended community has a canonical string: its first element is a
    string and the others are integers. *)
Definition printable (c : ExtCommunity) : Prop :=
  exists name, ExtCommunity_String c = Ok name.

(** No count of the group is negative, and none leaves the range of [int]
    when [n] is added to it. *)
Definition roomFor (h : heap) (g : SearchFilterGroup) (n : nat) : Prop :=
  forall ref, 0 <= countOf h g ref /\ countOf h g ref + Z.of_nat n <= max_int.

(** What a loop of [UpdateFromRoute] keeps: the index, the key, the filters
    outside of the group; the filters it adds are new ones. *)
Definition loopKeeps (h : heap) (g : SearchFilterGroup) (h' : heap)
  (g' : SearchFilterGroup) : Prop :=
  indexed h' g' /\ grounded h' g' /\ extendsValues h h' /\ Key g' = Key g /\
  (forall x, x ∈ Filters g' -> x ∈ Filters g \/ h !! x = None) /\
  (forall x, is_Some (h !! x) -> x ∉ Filters g -> h' !! x = h !! x).

(** *** Values, as the data model has them *)

#[global] Instance ExtElem_eq_dec : EqDecision ExtElem.
Proof. solve_decision. Defined.

(** Kind-aware equality of two filter values, in the words of the data
    model: two integers (ASNs, address families) are equal as numbers, two
    strings by content, two communities element by element in order, two
    extended communities in all their elements; a string pointer is an
    interned string, equal to a string of the same content and to the same
    pointer; values of different kinds are not equal. *)
Definition sameValue (a b : FilterValue) : bool :=
  match a, b with
  | VInt x, VInt y => (x =? y)
  | VString s, VString t => String.eqb s t
  | VString s, VStringPtr (Some p) => String.eqb s (pointee p)
  | VStringPtr (Some p), VString s => String.eqb (pointee p) s
  | VStringPtr (Some p), VStringPtr (Some q) => (addr p =? addr q)%N
  | VCommunity c, VCommunity d => bool_decide (c = d)
  | VExtCommunity c, VExtCommunity d => bool_decide (c = d)
  | _, _ => false
  end.

(** The filters at [x] and [l] exist and have the same value. *)
Definition sameValueAt (h : heap) (x l : loc) : bool :=
  match h !! x, h !! l with
  | Some f, Some o => sameValue (Value f) (Value o)
  | _, _ => false
  end.

(** The value of the filter at [l] is present in the list: some filter of
    the list has it. *)
Definition hasValue (h : heap) (fs : list loc) (l : loc) : bool :=
  existsb (fun x => sameValueAt h x l) fs.

(** The counterpart of the filter at [l] in a list: its first filter with
    the value of [l]. *)
Definition counterpart (h : heap) (fs : list loc) (l : loc) : option loc :=
  List.find (fun x => sameValueAt h x l) fs.

(** The group invariant of the data model, on values: no filter of the
    list has the value of a filter before it. *)
Definition distinctValues (h : heap) (fs : list loc) : Prop :=
  forall j y, fs !! j = Some y -> hasValue h (take j fs) y = false.

(** The index of the group is the one rebuilt from its filters: it has
    position [i] for a canonical string exactly when the filter at [i] has
    this string and no later filter has it. *)
Definition rebuilt (h : heap) (g : SearchFilterGroup) : Prop :=
  exists m,
    filtersIdx g = Some m /\
    forall ref i,
      m !! ref = Some i <->
      (exists l, Filters g !! i = Some l /\ hasRef h ref l) /\
      lacksRef h ref (drop (S i) (Filters g)).

(** *** Tokens, as the spec has them *)

(** A token with the facet marker. *)
Definition isMarked (token : string) : bool :=
  match token with
  | String c _ => Ascii.eqb c "#"
  | EmptyString => false
  end.

(** The facet of the text after the marker, in the words of the spec:
    fewer than two colon-separated segments have none; a first segment that
    is no integer makes it an extended community; otherwise two segments
    make it a standard community and three a large one.  The code files
    every other number of segments under the large communities too. *)
Definition facetOfText (text : string) : option string :=
  let segments := Split text ":" in
  if (length segments <? 2)%nat then None
  else
    match Atoi (hd "" segments) with
    | None => Some SearchKeyExtCommunities
    | Some _ =>
        if (length segments =? 2)%nat then Some SearchKeyCommunities
        else Some SearchKeyLargeCommunities
    end.

(** The key of the facet at position [i] of a filter set. *)
Definition facetKey (i : nat) : string :=
  default "" (Key <$> NewSearchFilters !! i).

Section TokenVocabulary.

Variable parseExtCommunityValue : string -> result SearchFilter.
Variable parseCommunityValue : string -> result SearchFilter.

(** What a token contributes: the facet of its text and the filter the
    value parser of this facet makes of the text; nothing for a token
    without the marker. *)
Definition contribution (token : string) : option (string * SearchFilter) :=
  match token with
  | String c text =>
      if Ascii.eqb c "#" then
        match facetOfText text with
        | Some key =>
            match (if String.eqb key SearchKeyExtCommunities
                   then parseExtCommunityValue text
                   else parseCommunityValue text) with
            | Ok f => Some (key, f)
            | _ => None
            end
        | None => None
        end
      else None
  | EmptyString => None
  end.

(** A marked token has a facet and its value parser accepts it. *)
Definition parses (token : string) : Prop :=
  isMarked token = true -> is_Some (contribution token).

Definition contributions (tokens : list string) : list (string * SearchFilter) :=
  omap contribution tokens.

End TokenVocabulary.

(** The contribution is to the facet [key] and has the canonical string
    [ref]. *)
Definition contributesTo (key ref : string) (c : string * SearchFilter) : bool :=
  String.eqb (fst c) key &&
  match filterValueAsString (Value (snd c)) with
  | Ok r => String.eqb r ref
  | _ => false
  end.

(** How many contributions to the facet [key] have the canonical string
    [ref]. *)
Definition contributed (key ref : string) (cs : list (string * SearchFilter)) : Z :=
  Z.of_nat (length (List.filter (contributesTo key ref) cs)).

(** The state of the loop of [FiltersFromTokens] after the contributions
    [cs], started in the heap [h0]: six groups with their keys and disjoint
    filters, all of them new; every group has a faithful index, no nil
    pointer, the counts of the contributions to its facet, and only filters
    with the value and label of such a contribution. *)
Definition filled (h0 h : heap) (s : SearchFilters)
  (cs : list (string * SearchFilter)) : Prop :=
  length s = 6%nat /\
  (forall l f, h0 !! l = Some f -> h !! l = Some f) /\
  (forall l, l ∈ allLocs s -> h0 !! l = None) /\
  (forall i j gi gj, i <> j -> s !! i = Some gi -> s !! j = Some gj ->
                     apart gi gj) /\
  (forall i g, s !! i = Some g ->
     Key g = facetKey i /\ indexed h g /\ grounded h g /\
     (forall ref, countOf h g ref = contributed (Key g) ref cs) /\
     (forall l, l ∈ Filters g ->
        exists f' f, h !! l = Some f' /\ In (Key g, f) cs /\
                     Value f' = Value f /\ Name f' = Name f)).

(** *** White space, as Unicode has it *)

(** The code points with the property White_Space. *)
Definition White_Space : list N :=
  [0x9; 0xA; 0xB; 0xC; 0xD; 0x20; 0x85; 0xA0; 0x1680;
   0x2000; 0x2001; 0x2002; 0x2003; 0x2004; 0x2005; 0x2006; 0x2007; 0x2008;
   0x2009; 0x200A; 0x2028; 0x2029; 0x202F; 0x205F; 0x3000]%N.

(** The UTF-8 encoding of a code point below U+10000. *)
Definition utf8 (cp : N) : string :=
  if (cp <? 0x80)%N then String (ascii_of_N cp) ""
  else if (cp <? 0x800)%N then
    String (ascii_of_N (0xC0 + cp / 64))
      (String (ascii_of_N (0x80 + cp mod 64)) "")
  else
    String (ascii_of_N (0xE0 + cp / 4096))
      (String (ascii_of_N (0x80 + (cp / 64) mod 64))
         (String (ascii_of_N (0x80 + cp mod 64)) "")).

(** The white-space characters, as byte strings. *)
Definition whiteSpace : list string := map utf8 White_Space.

(** A string of white-space characters only. *)
Inductive blank : string -> Prop :=
| blank_empty : blank ""
| blank_more (w rest : string) :
    In w whiteSpace -> blank rest -> blank (w +:+ rest).

(** A string that neither starts nor ends with a white-space character. *)
Definition trimmed (s : string) : Prop :=
  forall w t, In w whiteSpace -> s <> w +:+ t /\ s <> t +:+ w.

(** The bytes start with a white-space character. *)
Definition startsBlank (s : list ascii) : bool :=
  match s with
  | c :: rest =>
      isSpace c ||
      match rest with
      | d :: rest2 =>
          isSpace2 c d ||
          match rest2 with
          | e :: _ => isSpace3 c d e
          | [] => false
          end
      | [] => false
      end
  | [] => false
  end.

(** The bytes, given last byte first, end with a white-space character. *)
Definition endsBlank (r : list ascii) : bool :=
  match r with
  | c :: rest =>
      isSpace c ||
      match rest with
      | d :: rest2 =>
          isSpace2 d c ||
          match rest2 with
          | e :: _ => isSpace3 e d c
          | [] => false
          end
      | [] => false
      end
  | [] => false
  end.

(** [trimmed], as a test. *)
Definition trimmedb (s : string) : bool :=
  negb (startsBlank (list_ascii_of_string s)) &&
  negb (endsBlank (List.rev (list_ascii_of_string s))).

(** A continuation byte of UTF-8. *)
Definition isCont (c : ascii) : bool :=
  (0x80 <=? byte c)%N && (byte c <=? 0xBF)%N.

(** The bytes do not start with a continuation byte. *)
Definition startsRune (s : list ascii) : bool :=
  match s with
  | c :: _ => negb (isCont c)
  | [] => true
  end.

(** A no-break space, U+00A0, and an en quad, U+2000. *)
Definition nbsp : string := utf8 0xA0.
Definition enQuad : string := utf8 0x2000.

(** ** Lemmas *)

(** C1, as stated, fails: comparing an ASN filter with a community filter
    panics in [searchFilterCmpCommunity] instead of returning false. *)
Lemma Equal_cross_kind_panics :
  kindOf (VInt 64512) <> kindOf (VCommunity [65000; 100]) /\
  Equal (filterOf (VInt 64512)) (filterOf (VCommunity [65000; 100])) = Panic /\
  Equal (filterOf (VInt 64512)) (filterOf (VCommunity [65000; 100])) <> Ok false.
Proof. repeat split; [discriminate | discriminate]. Qed.

(** C1, amended: for two filters of different kinds, [f.Equal(g)] returns
    false without panicking exactly when [g]'s value is of a kind the type
    switch does not know (the logged case); a string and a non-nil string
    pointer are compared by content; in every other cross-kind case the
    unchecked type assertion of the comparator chosen from [g]'s kind
    panics. *)
Theorem Equal_cross_kind (f g : SearchFilter) :
  kindOf (Value f) <> kindOf (Value g) ->
  Equal f g = crossKindEqual (Value f) (Value g) /\
  (selectCmp (Value g) = None -> Equal f g = Ok false).
Proof.
  intros Hk. destruct f as [cf nf vf], g as [cg ng vg]; simpl in *.
  unfold Equal; simpl.
  destruct vg as [| | | | [q|] | |], vf as [| | | | [p|] | |];
    simpl in *; try congruence; split; try reflexivity; try discriminate.
Qed.

Lemma Equal_cross_kind_witness :
  kindOf (VInt 1) <> kindOf (VUint8 1) /\
  Equal (filterOf (VInt 1)) (filterOf (VUint8 1)) = Ok false.
Proof.
  split; [discriminate |].
  apply (Equal_cross_kind (filterOf (VInt 1)) (filterOf (VUint8 1)));
    [discriminate | reflexivity].
Defined.

(** *** Matching *)

Lemma groupByKey_at (s : SearchFilters) (key : string) (i : nat)
  (g : SearchFilterGroup) :
  groupPosition key = Some i -> s !! i = Some g -> groupByKey s key = Ok g.
Proof.
  intros Hp Hs. unfold groupByKey, GetGroupByKey. rewrite Hp, Hs. reflexivity.
Qed.

Lemma MatchAny_empty (h : heap) (g : SearchFilterGroup) (r : Filterable) :
  Filters g = [] -> MatchAny h g r = Ok true.
Proof. intros E. unfold MatchAny. rewrite E. reflexivity. Qed.

Lemma MatchAll_empty (h : heap) (g : SearchFilterGroup) (r : Filterable) :
  Filters g = [] -> MatchAll h g r = Ok true.
Proof. intros E. unfold MatchAll. rewrite E. reflexivity. Qed.

Lemma facetReturns_inv (h : heap) (s : SearchFilters) (r : Filterable)
  (j : nat) (b : bool) (key : string)
  (m : heap -> SearchFilterGroup -> Filterable -> result bool) :
  groupPosition key = Some j -> facetMatchers !! j = Some m ->
  facetReturns h s r j b ->
  exists g, groupByKey s key = Ok g /\ m h g r = Ok b.
Proof.
  intros Hp Hm (g & m' & Hs & Hm' & Hr).
  rewrite Hm in Hm'. injection Hm' as <-.
  exists g. split; [eapply groupByKey_at; eassumption | assumption].
Qed.

(** Rewrites the next facet of [MatchRoute] with what it is known to
    return. *)
Ltac facet_step H key m :=
  let g := fresh "g" in
  let Hg := fresh "Hg" in
  let Hr := fresh "Hr" in
  destruct (facetReturns_inv _ _ _ _ _ key m eq_refl eq_refl H) as (g & Hg & Hr);
  rewrite Hg; simpl; rewrite Hr; simpl.

(** C5: [MatchRoute] is the conjunction, in the fixed facet order, of
    [MatchAny] on sources and ASNs, [MatchAll] on the three community
    groups and [MatchAny] on the address family; it stops at the first
    failing facet, whatever the later groups are; [MatchAny] and [MatchAll]
    return true on an empty group for any route. *)
Theorem MatchRoute_conjunction (h : heap) (r : Filterable) :
  (forall s b0 b1 b2 b3 b4 b5,
      facetReturns h s r 0 b0 -> facetReturns h s r 1 b1 ->
      facetReturns h s r 2 b2 -> facetReturns h s r 3 b3 ->
      facetReturns h s r 4 b4 -> facetReturns h s r 5 b5 ->
      MatchRoute h s r = Ok (b0 && b1 && b2 && b3 && b4 && b5)) /\
  (forall s i,
      (forall j, (j < i)%nat -> facetReturns h s r j true) ->
      facetReturns h s r i false ->
      MatchRoute h s r = Ok false) /\
  (forall g, Filters g = [] -> MatchAny h g r = Ok true /\ MatchAll h g r = Ok true).
Proof.
  split; [| split].
  - intros s b0 b1 b2 b3 b4 b5 H0 H1 H2 H3 H4 H5. unfold MatchRoute.
    facet_step H0 SearchKeySources MatchAny. destruct b0; [| reflexivity].
    facet_step H1 SearchKeyASNS MatchAny. destruct b1; [| reflexivity].
    facet_step H2 SearchKeyCommunities MatchAll. destruct b2; [| reflexivity].
    facet_step H3 SearchKeyExtCommunities MatchAll. destruct b3; [| reflexivity].
    facet_step H4 SearchKeyLargeCommunities MatchAll. destruct b4; [| reflexivity].
    facet_step H5 SearchKeyAddrFamily MatchAny. destruct b5; reflexivity.
  - intros s i Hlt Hi. unfold MatchRoute.
    assert (Hsix : (i < 6)%nat).
    { destruct Hi as (g & m & _ & Hm & _).
      apply lookup_lt_Some in Hm. exact Hm. }
    destruct i as [|[|[|[|[|[|i]]]]]]; [| | | | | | lia].
    + facet_step Hi SearchKeySources MatchAny. reflexivity.
    + pose proof (Hlt 0%nat ltac:(lia)) as P0.
      facet_step P0 SearchKeySources MatchAny.
      facet_step Hi SearchKeyASNS MatchAny. reflexivity.
    + pose proof (Hlt 0%nat ltac:(lia)) as P0.
      pose proof (Hlt 1%nat ltac:(lia)) as P1.
      facet_step P0 SearchKeySources MatchAny.
      facet_step P1 SearchKeyASNS MatchAny.
      facet_step Hi SearchKeyCommunities MatchAll. reflexivity.
    + pose proof (Hlt 0%nat ltac:(lia)) as P0.
      pose proof (Hlt 1%nat ltac:(lia)) as P1.
      pose proof (Hlt 2%nat ltac:(lia)) as P2.
      facet_step P0 SearchKeySources MatchAny.
      facet_step P1 SearchKeyASNS MatchAny.
      facet_step P2 SearchKeyCommunities MatchAll.
      facet_step Hi SearchKeyExtCommunities MatchAll. reflexivity.
    + pose proof (Hlt 0%nat ltac:(lia)) as P0.
      pose proof (Hlt 1%nat ltac:(lia)) as P1.
      pose proof (Hlt 2%nat ltac:(lia)) as P2.
      pose proof (Hlt 3%nat ltac:(lia)) as P3.
      facet_step P0 SearchKeySources MatchAny.
      facet_step P1 SearchKeyASNS MatchAny.
      facet_step P2 SearchKeyCommunities MatchAll.
      facet_step P3 SearchKeyExtCommunities MatchAll.
      facet_step Hi SearchKeyLargeCommunities MatchAll. reflexivity.
    + pose proof (Hlt 0%nat ltac:(lia)) as P0.
      pose proof (Hlt 1%nat ltac:(lia)) as P1.
      pose proof (Hlt 2%nat ltac:(lia)) as P2.
      pose proof (Hlt 3%nat ltac:(lia)) as P3.
      pose proof (Hlt 4%nat ltac:(lia)) as P4.
      facet_step P0 SearchKeySources MatchAny.
      facet_step P1 SearchKeyASNS MatchAny.
      facet_step P2 SearchKeyCommunities MatchAll.
      facet_step P3 SearchKeyExtCommunities MatchAll.
      facet_step P4 SearchKeyLargeCommunities MatchAll.
      facet_step Hi SearchKeyAddrFamily MatchAny. reflexivity.
  - intros g E. split; [apply MatchAny_empty | apply MatchAll_empty]; exact E.
Qed.

(** *** Adding filters *)

Lemma wrap_int_id (z : Z) : min_int <= z <= max_int -> wrap_int z = z.
Proof.
  unfold min_int, max_int, wrap_int.
  change (2 ^ 63) with 9223372036854775808.
  change (2 ^ 64) with 18446744073709551616.
  intros H. rewrite Z.mod_small; lia.
Qed.

Lemma max_int_value : max_int = 9223372036854775807.
Proof. reflexivity. Qed.

Lemma min_int_value : min_int = -9223372036854775808.
Proof. reflexivity. Qed.

Lemma setCardinality_same (f : SearchFilter) : setCardinality (Cardinality f) f = f.
Proof. destruct f; reflexivity. Qed.

Lemma setCardinality_twice (c d : Z) (f : SearchFilter) :
  setCardinality c (setCardinality d f) = setCardinality c f.
Proof. reflexivity. Qed.

Lemma hasRef_insert_cardinality (h : heap) (ref : string) (l l0 : loc)
  (pf : SearchFilter) (c : Z) :
  h !! l0 = Some pf -> hasRef h ref l ->
  hasRef (<[l0 := setCardinality c pf]> h) ref l.
Proof.
  intros H0 (f & Hf & Hr). unfold hasRef.
  destruct (decide (l0 = l)) as [-> | Hne].
  - rewrite lookup_insert_eq. exists (setCardinality c pf). split; [reflexivity |].
    rewrite H0 in Hf. injection Hf as ->. exact Hr.
  - rewrite lookup_insert_ne by exact Hne. exists f. split; assumption.
Qed.

(** A filter whose canonical string the index maps to [l0] increments the
    filter at [l0] and leaves the group as it is. *)
Lemma AddFilter_present (h : heap) (g : SearchFilterGroup) (l l0 : loc)
  (m : gmap string nat) (ref : string) (i : nat) (pf : SearchFilter) :
  filtersIdx g = Some m -> m !! ref = Some i -> Filters g !! i = Some l0 ->
  h !! l0 = Some pf -> hasRef h ref l ->
  AddFilter h g l
  = Ok (<[l0 := setCardinality (wrap_int (Cardinality pf + 1)) pf]> h, g).
Proof.
  intros Hidx Hm Hi H0 (f & Hf & Hr).
  unfold AddFilter, deref. rewrite Hf. simpl.
  unfold GetFilterByValue. rewrite Hr. simpl.
  rewrite Hidx. simpl. rewrite Hm, Hi. simpl. rewrite H0. reflexivity.
Qed.

Lemma AddFilters_increment (g : SearchFilterGroup) (l0 : loc)
  (m : gmap string nat) (ref : string) (i : nat) :
  filtersIdx g = Some m -> m !! ref = Some i -> Filters g !! i = Some l0 ->
  forall (ls : list loc) (h : heap) (pf : SearchFilter),
    h !! l0 = Some pf ->
    0 <= Cardinality pf ->
    Cardinality pf + Z.of_nat (length ls) <= max_int ->
    Forall (hasRef h ref) ls ->
    AddFilters h g ls
    = Ok (<[l0 := setCardinality (Cardinality pf + Z.of_nat (length ls)) pf]> h, g).
Proof.
  intros Hidx Hm Hi ls. induction ls as [| l ls IH]; intros h pf H0 Hc Hmax Hall.
  - simpl. rewrite Z.add_0_r, setCardinality_same.
    rewrite insert_id by exact H0. reflexivity.
  - apply Forall_cons in Hall as [Hl Hls].
    cbn [AddFilters].
    rewrite (AddFilter_present h g l l0 m ref i pf Hidx Hm Hi H0 Hl).
    simpl length in Hmax.
    rewrite wrap_int_id by (rewrite max_int_value, min_int_value in *; lia).
    cbn [mbind result_bind].
    rewrite (IH (<[l0 := setCardinality (Cardinality pf + 1) pf]> h)
                (setCardinality (Cardinality pf + 1) pf)).
    + rewrite insert_insert_eq. simpl Cardinality. rewrite setCardinality_twice.
      replace (Cardinality pf + 1 + Z.of_nat (length ls))
        with (Cardinality pf + Z.of_nat (length (l :: ls)))
        by (simpl length; lia).
      reflexivity.
    + apply lookup_insert_eq.
    + simpl. lia.
    + simpl Cardinality. lia.
    + eapply Forall_impl; [exact Hls |].
      intros x Hx. apply hasRef_insert_cardinality; assumption.
Qed.

(** The first insertion of a canonical string the index does not have. *)
Lemma AddFilter_absent (h : heap) (g : SearchFilterGroup) (l0 : loc)
  (m : gmap string nat) (ref : string) (f0 : SearchFilter) :
  filtersIdx g = Some m -> m !! ref = None ->
  h !! l0 = Some f0 -> filterValueAsString (Value f0) = Ok ref ->
  AddFilter h g l0
  = Ok (<[l0 := setCardinality 1 f0]> h,
        {| Key := Key g; Filters := Filters g ++ [l0];
           filtersIdx := Some (<[ref := length (Filters g)]> m) |}).
Proof.
  intros Hidx Hm H0 Hr.
  unfold AddFilter, deref. rewrite H0. simpl.
  unfold GetFilterByValue. rewrite Hr. simpl.
  rewrite Hidx. simpl. rewrite Hm.
  unfold appendFilter. rewrite Hr. simpl. rewrite Hidx. reflexivity.
Qed.

(** C4: on a group that starts without the canonical string [ref], [N]
    calls of [AddFilter] with filters of that canonical string leave the
    first argument as the only filter with it, appended with cardinality
    [N]; the first call forces the cardinality to 1 whatever was passed in;
    every later call increments the filter in the group and leaves its
    argument out of the group and unchanged. *)
Theorem AddFilter_dedup_count (h : heap) (g : SearchFilterGroup)
  (m : gmap string nat) (ref : string) (l0 : loc) (f0 : SearchFilter)
  (ls : list loc) :
  filtersIdx g = Some m -> m !! ref = None -> lacksRef h ref (Filters g) ->
  h !! l0 = Some f0 -> filterValueAsString (Value f0) = Ok ref ->
  Forall (hasRef h ref) ls ->
  Z.of_nat (S (length ls)) <= max_int ->
  let N := Z.of_nat (S (length ls)) in
  let h' := <[l0 := setCardinality N f0]> h in
  let g' := {| Key := Key g; Filters := Filters g ++ [l0];
               filtersIdx := Some (<[ref := length (Filters g)]> m) |} in
  AddFilters h g (l0 :: ls) = Ok (h', g') /\
  AddFilter h g l0 = Ok (<[l0 := setCardinality 1 f0]> h, g') /\
  (forall i l f, Filters g' !! i = Some l -> h' !! l = Some f ->
                 filterValueAsString (Value f) = Ok ref ->
                 i = length (Filters g) /\ l = l0 /\ Cardinality f = N) /\
  (forall l, l <> l0 -> h' !! l = h !! l).
Proof.
  intros Hidx Hm Hlack H0 Hr Hall Hmax N h' g'.
  pose proof (AddFilter_absent h g l0 m ref f0 Hidx Hm H0 Hr) as Hfirst.
  fold g' in Hfirst.
  split; [| split; [exact Hfirst | split]].
  - cbn [AddFilters]. rewrite Hfirst. cbn [mbind result_bind].
    rewrite (AddFilters_increment g' l0 (<[ref := length (Filters g)]> m) ref
               (length (Filters g)) eq_refl
               (lookup_insert_eq _ _ _)
               (list_lookup_middle _ _ _ _ eq_refl)
               ls _ (setCardinality 1 f0)).
    + rewrite insert_insert_eq. simpl Cardinality. rewrite setCardinality_twice.
      subst h' N.
      replace (1 + Z.of_nat (length ls)) with (Z.of_nat (S (length ls))) by lia.
      reflexivity.
    + apply lookup_insert_eq.
    + simpl. lia.
    + simpl Cardinality. lia.
    + eapply Forall_impl; [exact Hall |].
      intros x Hx. apply hasRef_insert_cardinality; assumption.
  - intros i l f Hi Hl Hf. subst g'. simpl in Hi.
    destruct (decide (i < length (Filters g))%nat) as [Hlt | Hge].
    + exfalso. rewrite lookup_app_l in Hi by exact Hlt.
      assert (Hin : l ∈ Filters g) by (eapply list_elem_of_lookup_2; exact Hi).
      destruct (decide (l = l0)) as [-> | Hne].
      * exact (Hlack l0 f0 Hin H0 Hr).
      * subst h'. rewrite lookup_insert_ne in Hl by congruence.
        exact (Hlack l f Hin Hl Hf).
    + rewrite lookup_app_r in Hi by lia.
      destruct (i - length (Filters g))%nat as [| k] eqn:Ek; simpl in Hi;
        [| discriminate].
      injection Hi as <-. subst h'. rewrite lookup_insert_eq in Hl.
      injection Hl as <-. split; [lia | split; reflexivity].
  - intros l Hne. subst h'. apply lookup_insert_ne. congruence.
Qed.

(** *** Equality on the values of one facet *)

Lemma components_eqb_refl (c : list Z) : components_eqb c c = true.
Proof. induction c as [| x c IH]; simpl; [reflexivity |]. rewrite Z.eqb_refl. exact IH. Qed.

Lemma ExtElem_eqb_refl (e : ExtElem) : ExtElem_eqb e e = true.
Proof. destruct e; simpl; [apply String.eqb_refl | apply Z.eqb_refl]. Qed.

(** Two values of the kind of one facet are compared without panic. *)
Lemma Equal_typed (i : nat) (f g : SearchFilter) :
  facetKindOk i (Value f) = true -> facetKindOk i (Value g) = true ->
  exists b, Equal f g = Ok b.
Proof.
  destruct f as [cf nf vf], g as [cg ng vg]; unfold Equal; simpl.
  intros Hf Hg.
  destruct i as [|[|[|[|[|[|i]]]]]];
    destruct vf as [| | | | [p|] | cf' | cf']; try discriminate Hf;
    destruct vg as [| | | | [q|] | cg' | cg']; try discriminate Hg;
    simpl; eauto.
  - destruct (negb _); eauto.
  - destruct cf' as [|a0 [|a1 [|a2 [|]]]], cg' as [|b0 [|b1 [|b2 [|]]]]; eauto.
  - destruct (negb _); eauto.
Qed.

(** A value of the kind of a facet is equal to itself. *)
Lemma Equal_refl_typed (i : nat) (f g : SearchFilter) :
  facetKindOk i (Value f) = true -> Value g = Value f -> Equal g f = Ok true.
Proof.
  destruct f as [cf nf vf], g as [cg ng vg]; unfold Equal; simpl.
  intros Hf ->.
  destruct i as [|[|[|[|[|[|i]]]]]];
    destruct vf as [| | | | [p|] | c | c]; try discriminate Hf; simpl.
  - rewrite String.eqb_refl. reflexivity.
  - rewrite N.eqb_refl. reflexivity.
  - rewrite Z.eqb_refl. reflexivity.
  - rewrite Nat.eqb_refl, components_eqb_refl. reflexivity.
  - destruct c as [|a0 [|a1 [|a2 [|]]]]; try discriminate Hf.
    + destruct a0; discriminate Hf.
    + destruct a0 as [t|]; [destruct a1 |]; discriminate Hf.
    + simpl. rewrite !ExtElem_eqb_refl. reflexivity.
    + destruct a0 as [t|]; [destruct a1 as [|z]; [| destruct a2] |];
        discriminate Hf.
  - rewrite Nat.eqb_refl, components_eqb_refl. reflexivity.
  - rewrite Z.eqb_refl. reflexivity.
Qed.

(** The canonical string of a value of the kind of a facet exists. *)
Lemma filterValueAsString_typed (i : nat) (v : FilterValue) :
  facetKindOk i v = true -> exists ref, filterValueAsString v = Ok ref.
Proof.
  intros Hv.
  destruct i as [|[|[|[|[|[|i]]]]]];
    destruct v as [| | | | [p|] | c | c]; try discriminate Hv; simpl; eauto.
  destruct c as [|[t|] [|[|a] [|[|b] [|]]]]; try discriminate Hv.
  simpl. eauto.
Qed.

Lemma locTyped_inv (h : heap) (i : nat) (l : loc) :
  locTyped h i l = true ->
  exists f, h !! l = Some f /\ facetKindOk i (Value f) = true.
Proof.
  unfold locTyped. destruct (h !! l) as [f|]; [eauto | discriminate].
Qed.

Lemma filtersTyped_elem (h : heap) (i : nat) (fs : list loc) (l : loc) :
  filtersTyped h i fs = true -> l ∈ fs -> locTyped h i l = true.
Proof.
  unfold filtersTyped. rewrite forallb_forall. intros H Hin.
  apply H. apply list_elem_of_In. exact Hin.
Qed.

Lemma filtersTyped_app (h : heap) (i : nat) (xs ys : list loc) :
  filtersTyped h i (xs ++ ys) = filtersTyped h i xs && filtersTyped h i ys.
Proof. apply forallb_app. Qed.

(** *** Finding a filter *)

Lemma FindFilter_app (h : heap) (xs ys : list loc) (l : loc) :
  FindFilter h (xs ++ ys) l
  = match FindFilter h xs l with
    | Ok None => FindFilter h ys l
    | r => r
    end.
Proof.
  induction xs as [| x xs IH]; simpl; [reflexivity |].
  destruct (equalAt h x l) as [[|]| |]; simpl; try reflexivity. exact IH.
Qed.

(** Between two filters that exist, [equalAt] is [Equal]. *)
Lemma equalAt_Equal (h : heap) (x l : loc) (f o : SearchFilter) :
  h !! x = Some f -> h !! l = Some o -> equalAt h x l = Equal f o.
Proof.
  intros Hf Ho. unfold equalAt, Equal, deref. rewrite Ho. simpl.
  destruct (selectCmp (Value o)); [| reflexivity]. rewrite Hf. reflexivity.
Qed.

Lemma FindFilter_typed (h : heap) (i : nat) (fs : list loc) (l : loc) :
  filtersTyped h i fs = true -> locTyped h i l = true ->
  exists o, FindFilter h fs l = Ok o /\
            match o with Some x => x ∈ fs | None => True end.
Proof.
  intros Hfs Hl. apply locTyped_inv in Hl as (o & Ho & Hko).
  induction fs as [| x fs IH]; simpl; [exists None; split; [reflexivity | exact I] |].
  simpl in Hfs. apply andb_true_iff in Hfs as [Hx Hfs].
  apply locTyped_inv in Hx as (f & Hf & Hkf).
  rewrite (equalAt_Equal h x l f o Hf Ho).
  destruct (Equal_typed i f o Hkf Hko) as [b Hb]. rewrite Hb. simpl.
  destruct b.
  - exists (Some x). split; [reflexivity | left].
  - destruct (IH Hfs) as (r & Hr & Hin). exists r. split; [exact Hr |].
    destruct r; [right; exact Hin | exact I].
Qed.

Lemma Contains_typed (h : heap) (i : nat) (fs : list loc) (l : loc) :
  filtersTyped h i fs = true -> locTyped h i l = true ->
  Contains h fs l = Ok (isContained h fs l).
Proof.
  intros Hfs Hl. destruct (FindFilter_typed h i fs l Hfs Hl) as (o & Ho & _).
  unfold isContained, Contains. rewrite Ho. simpl. destruct o; reflexivity.
Qed.

(** A filter contained in a list is contained in every extension of it. *)
Lemma Contains_app_l (h : heap) (xs ys : list loc) (l : loc) :
  Contains h xs l = Ok true -> Contains h (xs ++ ys) l = Ok true.
Proof.
  unfold Contains. rewrite FindFilter_app.
  destruct (FindFilter h xs l) as [[x|]| |]; simpl; intros H;
    try discriminate H; exact H.
Qed.

Lemma Contains_app_false (h : heap) (xs ys : list loc) (l : loc) :
  Contains h (xs ++ ys) l = Ok false -> Contains h xs l = Ok false.
Proof.
  unfold Contains. rewrite FindFilter_app.
  destruct (FindFilter h xs l) as [[x|]| |]; simpl; intros H;
    try discriminate H; reflexivity.
Qed.

(** A typed filter is contained in every typed list it is a member of. *)
Lemma Contains_member (h : heap) (i : nat) (fs : list loc) (l : loc) :
  filtersTyped h i fs = true -> l ∈ fs -> Contains h fs l = Ok true.
Proof.
  intros Hfs Hin.
  pose proof (filtersTyped_elem h i fs l Hfs Hin) as Hl.
  apply list_elem_of_split in Hin as (xs & ys & ->).
  rewrite filtersTyped_app in Hfs. apply andb_true_iff in Hfs as [Hxs _].
  destruct (FindFilter_typed h i xs l Hxs Hl) as (o & Ho & _).
  unfold Contains. rewrite FindFilter_app, Ho.
  destruct o; [reflexivity |].
  apply locTyped_inv in Hl as (f & Hf & Hk).
  simpl. rewrite (equalAt_Equal h l l f f Hf Hf).
  rewrite (Equal_refl_typed i f f Hk eq_refl). reflexivity.
Qed.

(** *** Rebuilding the index *)

Lemma rebuildIndex_from_typed (h : heap) (i : nat) (fs : list loc) :
  filtersTyped h i fs = true ->
  forall k idx, exists idx', rebuildIndex_from h k fs idx = Ok idx'.
Proof.
  induction fs as [| l fs IH]; intros Hfs k idx; simpl; [eauto |].
  simpl in Hfs. apply andb_true_iff in Hfs as [Hl Hfs].
  apply locTyped_inv in Hl as (f & Hf & Hk).
  destruct (filterValueAsString_typed i _ Hk) as [ref Hr].
  unfold deref. rewrite Hf. simpl. rewrite Hr. simpl. apply IH. exact Hfs.
Qed.

(** *** The loops of Combine and Sub *)

Lemma noDupFrom_snoc (h : heap) (xs pre : list loc) (l : loc) :
  noDupFrom h pre xs = true -> Contains h (pre ++ xs) l = Ok false ->
  noDupFrom h pre (xs ++ [l]) = true.
Proof.
  revert pre. induction xs as [| x xs IH]; intros pre Hn Hc; simpl in *.
  - rewrite app_nil_r in Hc. rewrite Hc. reflexivity.
  - destruct (Contains h pre x) as [[|]| |]; try discriminate Hn.
    apply IH; [exact Hn |]. rewrite <- app_assoc. exact Hc.
Qed.

Lemma combineFilters_spec (h : heap) (i : nat) (others : list loc) :
  filtersTyped h i others = true ->
  forall combined, filtersTyped h i combined = true ->
  exists kept,
    combineFilters h combined others = Ok (combined ++ kept) /\
    sublist kept others /\
    filtersTyped h i (combined ++ kept) = true /\
    (forall l, l ∈ others -> Contains h (combined ++ kept) l = Ok true) /\
    (noDuplicates h combined = true -> noDuplicates h (combined ++ kept) = true) /\
    (forall l, l ∈ kept -> Contains h combined l = Ok false).
Proof.
  induction others as [| f rest IH]; intros Ho combined Hc.
  - exists []. rewrite app_nil_r. simpl.
    repeat split; [constructor | exact Hc | | tauto |].
    + intros l Hin. apply elem_of_nil in Hin. contradiction.
    + intros l Hin. apply elem_of_nil in Hin. contradiction.
  - simpl in Ho. apply andb_true_iff in Ho as [Hf Hrest].
    cbn [combineFilters].
    rewrite (Contains_typed h i combined f Hc Hf). cbn [mbind result_bind].
    destruct (isContained h combined f) eqn:Ec.
    + destruct (IH Hrest combined Hc)
        as (kept & Hk & Hsub & Hty & Hall & Hnd & Hnew).
      exists kept. repeat split; try assumption.
      * apply sublist_cons, Hsub.
      * intros l Hin. apply elem_of_cons in Hin as [-> | Hin]; [| apply Hall, Hin].
        apply Contains_app_l. rewrite (Contains_typed h i combined f Hc Hf), Ec.
        reflexivity.
    + assert (Hc' : filtersTyped h i (combined ++ [f]) = true).
      { rewrite filtersTyped_app, Hc. simpl. rewrite Hf. reflexivity. }
      destruct (IH Hrest (combined ++ [f]) Hc')
        as (kept & Hk & Hsub & Hty & Hall & Hnd & Hnew).
      exists (f :: kept).
      replace (combined ++ f :: kept) with ((combined ++ [f]) ++ kept)
        by (rewrite <- app_assoc; reflexivity).
      repeat split; try assumption.
      * apply sublist_skip, Hsub.
      * intros l Hin. apply elem_of_cons in Hin as [-> | Hin]; [| apply Hall, Hin].
        apply Contains_app_l. apply (Contains_member h i); [exact Hc' |].
        apply elem_of_app. right. left.
      * intros Hn. apply Hnd. unfold noDuplicates in *.
        apply noDupFrom_snoc; [exact Hn |]. simpl.
        rewrite (Contains_typed h i combined f Hc Hf), Ec. reflexivity.
      * intros l Hin. apply elem_of_cons in Hin as [-> | Hin].
        -- rewrite (Contains_typed h i combined f Hc Hf), Ec. reflexivity.
        -- apply (Contains_app_false h combined [f]). apply Hnew, Hin.
Qed.

Lemma subFilters_spec (h : heap) (i : nat) (otherFs fs : list loc)
  (key : string) (idx : option (gmap string nat)) :
  filtersTyped h i otherFs = true -> filtersTyped h i fs = true ->
  subFilters h fs (Ok {| Key := key; Filters := otherFs; filtersIdx := idx |})
  = Ok (List.filter (fun l => negb (isContained h otherFs l)) fs).
Proof.
  intros Ho. induction fs as [| f fs IH]; intros Hfs; simpl; [reflexivity |].
  simpl in Hfs. apply andb_true_iff in Hfs as [Hf Hfs].
  rewrite (Contains_typed h i otherFs f Ho Hf). cbn [mbind result_bind].
  rewrite (IH Hfs). cbn [mbind result_bind].
  destruct (isContained h otherFs f); reflexivity.
Qed.

Lemma filtersTyped_filter (h : heap) (i : nat) (p : loc -> bool) (fs : list loc) :
  filtersTyped h i fs = true -> filtersTyped h i (List.filter p fs) = true.
Proof.
  unfold filtersTyped. rewrite !forallb_forall. intros H x Hx.
  apply filter_In in Hx as [Hx _]. apply H, Hx.
Qed.

(** *** Loops over the groups of two sets *)

Lemma newGroup_unallocated (G : groupStore) (held : list gloc) :
  G !! newGroup G held = None.
Proof.
  apply not_elem_of_dom. intros Hin.
  apply (is_fresh (dom G ∪ list_to_set held : gset gloc)).
  apply elem_of_union. left. exact Hin.
Qed.

Lemma newGroup_not_held (G : groupStore) (held : list gloc) :
  newGroup G held ∉ held.
Proof.
  intros Hin.
  apply (is_fresh (dom G ∪ list_to_set held : gset gloc)).
  apply elem_of_union. right. apply elem_of_list_to_set. exact Hin.
Qed.

Lemma groupsOf_extends (G G' : groupStore) (s : list gloc) (gs : SearchFilters) :
  (forall p g, G !! p = Some g -> G' !! p = Some g) ->
  groupsOf G s gs -> groupsOf G' s gs.
Proof.
  intros Hext Hs. unfold groupsOf in *.
  induction Hs as [| p g s gs Hp _ IH]; constructor; [apply Hext, Hp | exact IH].
Qed.

Lemma groupsOf_lookup (G : groupStore) (s : list gloc) (gs : SearchFilters)
  (i : nat) (g : SearchFilterGroup) :
  groupsOf G s gs -> gs !! i = Some g ->
  exists p, s !! i = Some p /\ G !! p = Some g.
Proof.
  intros Hs Hi. destruct (Forall2_lookup_r _ _ _ i g Hs Hi) as (p & Hp & Hg).
  exists p. split; assumption.
Qed.

Lemma groupsOf_length (G : groupStore) (s : list gloc) (gs : SearchFilters) :
  groupsOf G s gs -> length s = length gs.
Proof. apply Forall2_length. Qed.

(** The loop stores a new group for every group of [s], at a new location,
    and leaves the groups of before as they are. *)
Lemma eachGroup_ok
  (body : SearchFilterGroup -> result SearchFilterGroup -> result SearchFilterGroup)
  (held : list gloc) (G0 : groupStore) (other : list gloc) (ogs : SearchFilters) :
  groupsOf G0 other ogs ->
  forall (s : list gloc) (gs : SearchFilters) (id : nat) (G : groupStore),
    (forall p g, G0 !! p = Some g -> G !! p = Some g) ->
    groupsOf G0 s gs ->
    (id + length s <= length other)%nat ->
    (forall k g og, gs !! k = Some g -> ogs !! (id + k)%nat = Some og ->
                    exists x, body g (Ok og) = Ok x) ->
    exists G' R xs,
      eachGroup body held G id s other = Ok (G', R) /\
      length xs = length s /\
      groupsOf G' R xs /\
      (forall p g, G !! p = Some g -> G' !! p = Some g) /\
      (forall q, q ∈ R -> G !! q = None /\ q ∉ held) /\
      forall k g og, gs !! k = Some g -> ogs !! (id + k)%nat = Some og ->
                     exists x, xs !! k = Some x /\ body g (Ok og) = Ok x.
Proof.
  intros Hother. induction s as [| gp rest IH]; intros gs id G Hext Hs Hlen Hbody.
  - apply Forall2_nil_inv_l in Hs. subst gs.
    exists G, [], [].
    split; [reflexivity | split; [reflexivity | split; [constructor |]]].
    split; [tauto | split].
    + intros q Hq. apply elem_of_nil in Hq. contradiction.
    + intros k g og Hk. discriminate Hk.
  - apply Forall2_cons_inv_l in Hs as (g0 & gs' & Hgp & Hrest & ->).
    simpl in Hlen.
    destruct (lookup_lt_is_Some_2 other id ltac:(lia)) as [ogp0 Hogp0].
    destruct (Forall2_lookup_l _ _ _ id ogp0 Hother Hogp0) as (og0 & Hog0 & Hptr).
    destruct (Hbody 0%nat g0 og0 eq_refl) as [x Hx].
    { rewrite Nat.add_0_r. exact Hog0. }
    pose proof (newGroup_unallocated G held) as Hnew.
    pose proof (newGroup_not_held G held) as Hnh.
    set (p := newGroup G held) in *.
    destruct (IH gs' (S id) (<[p := x]> G)) as (G' & R & xs & Heach & Hl & HR & Hfr & Hfresh & Hat).
    + intros q g Hq. rewrite lookup_insert_ne; [apply Hext, Hq |].
      intros <-. rewrite (Hext _ _ Hq) in Hnew. discriminate Hnew.
    + exact Hrest.
    + lia.
    + intros k g og Hk Hok. apply (Hbody (S k) g og Hk).
      replace (id + S k)%nat with (S id + k)%nat by lia. exact Hok.
    + exists G', (p :: R), (x :: xs). split; [| split; [| split; [| split; [| split]]]].
      * cbn [eachGroup]. rewrite Hogp0. unfold derefGroup.
        rewrite (Hext _ _ Hgp), (Hext _ _ Hptr). cbn [mbind result_bind].
        rewrite Hx. cbn [mbind result_bind]. fold p. rewrite Heach. reflexivity.
      * simpl. lia.
      * constructor; [| exact HR]. apply Hfr. apply lookup_insert_eq.
      * intros q g Hq. apply Hfr. rewrite lookup_insert_ne; [exact Hq |].
        intros <-. rewrite Hq in Hnew. discriminate Hnew.
      * intros q Hq. apply elem_of_cons in Hq as [-> | Hq]; [split; assumption |].
        destruct (Hfresh q Hq) as [Hnone Hqh]. split; [| exact Hqh].
        apply lookup_insert_None in Hnone as [Hnone _]. exact Hnone.
      * intros k g og Hk Hok. destruct k as [| k].
        -- injection Hk as <-. rewrite Nat.add_0_r, Hog0 in Hok.
           injection Hok as <-. exists x. split; [reflexivity | exact Hx].
        -- apply (Hat k g og Hk).
           replace (S id + k)%nat with (id + S k)%nat by lia. exact Hok.
Qed.

(** *** Combine *)

Lemma combineGroup_spec (h : heap) (i : nat) (gA gB : SearchFilterGroup) :
  filtersTyped h i (Filters gA) = true -> filtersTyped h i (Filters gB) = true ->
  exists kept idx,
    combineGroup h gA (Ok gB)
    = Ok {| Key := Key gA; Filters := Filters gA ++ kept; filtersIdx := Some idx |} /\
    rebuildIndex_from h 0 (Filters gA ++ kept) ∅ = Ok idx /\
    sublist kept (Filters gB) /\
    filtersTyped h i (Filters gA ++ kept) = true /\
    (forall l, l ∈ Filters gB -> Contains h (Filters gA ++ kept) l = Ok true) /\
    (noDuplicates h (Filters gA) = true ->
     noDuplicates h (Filters gA ++ kept) = true) /\
    (forall l, l ∈ kept -> Contains h (Filters gA) l = Ok false).
Proof.
  intros HA HB.
  destruct (combineFilters_spec h i (Filters gB) HB (Filters gA) HA)
    as (kept & Hk & Hsub & Hty & Hall & Hnd & Hnew).
  destruct (rebuildIndex_from_typed h i _ Hty 0%nat ∅) as [idx Hidx].
  exists kept, idx. repeat split; try assumption.
  unfold combineGroup. cbn [mbind result_bind]. rewrite Hk.
  cbn [mbind result_bind].
  unfold rebuildIndex. simpl. rewrite Hidx. reflexivity.
Qed.

(** *** Sub *)

Lemma subGroup_spec (h : heap) (i : nat) (gA gB : SearchFilterGroup) :
  filtersTyped h i (Filters gA) = true -> filtersTyped h i (Filters gB) = true ->
  exists idx,
    let kept := List.filter (fun l => negb (isContained h (Filters gB) l))
                            (Filters gA) in
    subGroup h gA (Ok gB)
    = Ok {| Key := Key gA; Filters := kept; filtersIdx := Some idx |} /\
    rebuildIndex_from h 0 kept ∅ = Ok idx.
Proof.
  intros HA HB.
  destruct (rebuildIndex_from_typed h i _
              (filtersTyped_filter h i
                 (fun l => negb (isContained h (Filters gB) l)) _ HA) 0%nat ∅)
    as [idx Hidx].
  exists idx. split; [| exact Hidx].
  unfold subGroup. destruct gB as [kB fB iB]. simpl in *.
  rewrite (subFilters_spec h i _ _ kB iB HB HA).
  cbn [mbind result_bind]. unfold rebuildIndex. simpl. rewrite Hidx. reflexivity.
Qed.

Lemma filter_none {A : Type} (p : A -> bool) (xs : list A) :
  (forall x, In x xs -> p x = false) -> List.filter p xs = [].
Proof.
  induction xs as [| x xs IH]; intros Hall; simpl; [reflexivity |].
  rewrite (Hall x (or_introl eq_refl)). apply IH.
  intros y Hin. apply Hall. right. exact Hin.
Qed.

Lemma filter_self_empty (h : heap) (i : nat) (fs : list loc) :
  filtersTyped h i fs = true ->
  List.filter (fun l => negb (isContained h fs l)) fs = [].
Proof.
  intros Hfs. apply filter_none. intros l Hin. unfold isContained.
  rewrite (Contains_member h i fs l Hfs); [reflexivity |].
  apply list_elem_of_In. exact Hin.
Qed.

(** *** MergeProperties *)

Lemma Equal_values (f f' g g' : SearchFilter) :
  Value f = Value f' -> Value g = Value g' -> Equal f g = Equal f' g'.
Proof. unfold Equal. intros -> ->. reflexivity. Qed.

Lemma sameValues_lookup (h h' : heap) (l : loc) (f : SearchFilter) :
  sameValues h h' -> h !! l = Some f ->
  exists f', h' !! l = Some f' /\ Value f' = Value f.
Proof.
  intros Hs Hf. specialize (Hs l). rewrite Hf in Hs.
  destruct (h' !! l) as [f'|]; [| discriminate Hs].
  exists f'. split; [reflexivity |]. simpl in Hs. congruence.
Qed.

Lemma sameValues_None (h h' : heap) (l : loc) :
  sameValues h h' -> h !! l = None -> h' !! l = None.
Proof.
  intros Hs Hf. specialize (Hs l). rewrite Hf in Hs.
  destruct (h' !! l) as [f'|]; [discriminate Hs | reflexivity].
Qed.

Lemma equalAt_sameValues (h h' : heap) (x l : loc) :
  sameValues h h' -> equalAt h' x l = equalAt h x l.
Proof.
  intros Hs. unfold equalAt, deref.
  destruct (h !! l) as [o|] eqn:Ho.
  - destruct (sameValues_lookup h h' l o Hs Ho) as (o' & -> & Hv'). simpl.
    rewrite Hv'. destruct (selectCmp (Value o)); [| reflexivity].
    destruct (h !! x) as [f|] eqn:Hf.
    + destruct (sameValues_lookup h h' x f Hs Hf) as (f' & -> & Hv). simpl.
      rewrite Hv. reflexivity.
    + rewrite (sameValues_None h h' x Hs Hf). reflexivity.
  - rewrite (sameValues_None h h' l Hs Ho). reflexivity.
Qed.

(** [FindFilter] depends on the values of the filters only. *)
Lemma FindFilter_sameValues (h h' : heap) (fs : list loc) (l : loc) :
  sameValues h h' -> FindFilter h' fs l = FindFilter h fs l.
Proof.
  intros Hs. induction fs as [| x fs IH]; simpl; [reflexivity |].
  rewrite (equalAt_sameValues h h' x l Hs).
  destruct (equalAt h x l) as [[|]| |]; simpl; [reflexivity | exact IH | reflexivity..].
Qed.

Lemma sameValues_insert (h h1 : heap) (l : loc) (f fo f1 : SearchFilter) :
  sameValues h h1 -> h !! l = Some f -> Value f1 = Value f ->
  sameValues h (<[l := setProperties fo f1]> h1).
Proof.
  intros Hs Hf Hv x. destruct (decide (l = x)) as [<- | Hne].
  - rewrite lookup_insert_eq, Hf. simpl. congruence.
  - rewrite lookup_insert_ne by exact Hne. apply Hs.
Qed.

Lemma mergeFilters_spec (h : heap) (i : nat) (otherFs : list loc) :
  filtersTyped h i otherFs = true ->
  forall (fs : list loc) (h1 : heap),
    filtersTyped h i fs = true -> NoDup fs ->
    (forall l, l ∈ fs -> l ∉ otherFs) ->
    sameValues h h1 ->
    (forall l, l ∈ fs \/ l ∈ otherFs -> h1 !! l = h !! l) ->
    exists h2,
      mergeFilters h1 fs otherFs = Ok h2 /\
      sameValues h h2 /\
      (forall l, l ∉ fs -> h2 !! l = h1 !! l) /\
      (forall l f, l ∈ fs -> h !! l = Some f -> mergedAt h h2 otherFs l f).
Proof.
  intros Ho fs. induction fs as [| x fs IH]; intros h1 Hfs Hnd Hdis Hs Hsame.
  - exists h1. simpl. repeat split; [exact Hs |].
    intros l f Hin. apply elem_of_nil in Hin. contradiction.
  - simpl in Hfs. apply andb_true_iff in Hfs as [Hx Hfs].
    apply NoDup_cons in Hnd as [Hxfs Hnd].
    cbn [mergeFilters]. rewrite (FindFilter_sameValues h h1 otherFs x Hs).
    destruct (FindFilter_typed h i otherFs x Ho Hx) as (o & Hfind & Hin).
    rewrite Hfind. cbn [mbind result_bind].
    destruct o as [ol |].
    + pose proof (locTyped_inv h i x Hx) as (f & Hf & Hk).
      pose proof (locTyped_inv h i ol (filtersTyped_elem h i otherFs ol Ho Hin))
        as (fo & Hfo & _).
      unfold deref.
      rewrite (Hsame x (or_introl (list_elem_of_here x fs))), Hf.
      rewrite (Hsame ol (or_intror Hin)), Hfo. cbn [mbind result_bind].
      destruct (IH (<[x := setProperties fo f]> h1)) as (h2 & Hm & Hs2 & Hout & Hat);
        try assumption.
      * intros l Hl. apply Hdis. right. exact Hl.
      * apply (sameValues_insert h h1 x f fo f Hs Hf eq_refl).
      * intros l Hl. rewrite lookup_insert_ne.
        -- apply Hsame. destruct Hl as [Hl | Hl]; [left; right; exact Hl | right; exact Hl].
        -- intros <-. destruct Hl as [Hl | Hl]; [exact (Hxfs Hl) |].
           exact (Hdis x (list_elem_of_here x fs) Hl).
      * exists h2. split; [exact Hm | split; [exact Hs2 | split]].
        -- intros l Hl. rewrite Hout.
           ++ apply lookup_insert_ne. intros <-. apply Hl. left.
           ++ intros Hl'. apply Hl. right. exact Hl'.
        -- intros l f' Hl Hf'. apply elem_of_cons in Hl as [-> | Hl];
             [| apply Hat; assumption].
           unfold mergedAt. rewrite Hfind. exists fo. split; [exact Hfo |].
           rewrite (Hout x Hxfs), lookup_insert_eq. congruence.
    + destruct (IH h1) as (h2 & Hm & Hs2 & Hout & Hat); try assumption.
      * intros l Hl. apply Hdis. right. exact Hl.
      * intros l Hl. apply Hsame.
        destruct Hl as [Hl | Hl]; [left; right; exact Hl | right; exact Hl].
      * exists h2. split; [exact Hm | split; [exact Hs2 | split]].
        -- intros l Hl. apply Hout. intros Hl'. apply Hl. right. exact Hl'.
        -- intros l f' Hl Hf'. apply elem_of_cons in Hl as [-> | Hl];
             [| apply Hat; assumption].
           unfold mergedAt. rewrite Hfind, (Hout x Hxfs).
           rewrite (Hsame x (or_introl (list_elem_of_here x fs))). exact Hf'.
Qed.

Lemma allLocs_cons (g : SearchFilterGroup) (s : SearchFilters) :
  allLocs (g :: s) = Filters g ++ allLocs s.
Proof. reflexivity. Qed.

Lemma allLocs_group (s : SearchFilters) (i : nat) (g : SearchFilterGroup) (l : loc) :
  s !! i = Some g -> l ∈ Filters g -> l ∈ allLocs s.
Proof.
  revert i. induction s as [| x s IH]; intros i Hi Hl; [discriminate Hi |].
  rewrite allLocs_cons. apply elem_of_app. destruct i as [| i].
  - injection Hi as ->. left. exact Hl.
  - right. exact (IH i Hi Hl).
Qed.

Lemma allLocs_elem (s : SearchFilters) (l : loc) :
  l ∈ allLocs s -> exists i g, s !! i = Some g /\ l ∈ Filters g.
Proof.
  induction s as [| x s IH]; intros Hl.
  - apply elem_of_nil in Hl. contradiction.
  - rewrite allLocs_cons in Hl. apply elem_of_app in Hl as [Hl | Hl].
    + exists 0%nat, x. split; [reflexivity | exact Hl].
    + destruct (IH Hl) as (i & g & Hi & Hg). exists (S i), g. split; assumption.
Qed.

Lemma mergeGroups_spec (h : heap) (other : SearchFilters) :
  (forall i og, other !! i = Some og -> filtersTyped h i (Filters og) = true) ->
  forall (s : SearchFilters) (id : nat) (h1 : heap),
    (id + length s <= length other)%nat ->
    (forall k g, s !! k = Some g -> filtersTyped h (id + k) (Filters g) = true) ->
    NoDup (allLocs s) ->
    (forall l, l ∈ allLocs s -> l ∉ allLocs other) ->
    sameValues h h1 ->
    (forall l, l ∈ allLocs s \/ l ∈ allLocs other -> h1 !! l = h !! l) ->
    exists h2,
      mergeGroups h1 id s other = Ok h2 /\
      (forall l, l ∉ allLocs s -> h2 !! l = h1 !! l) /\
      (forall k g og l f,
          s !! k = Some g -> other !! (id + k)%nat = Some og ->
          l ∈ Filters g -> h !! l = Some f ->
          mergedAt h h2 (Filters og) l f).
Proof.
  intros Hother s. induction s as [| group rest IH];
    intros id h1 Hlen Hty Hnd Hdis Hs Hsame.
  - exists h1. repeat split. intros k g og l f Hk. discriminate Hk.
  - simpl in Hlen. rewrite allLocs_cons in Hnd, Hdis, Hsame.
    apply NoDup_app in Hnd as (Hndg & Hsep & Hndr).
    destruct (lookup_lt_is_Some_2 other id ltac:(lia)) as [og0 Hog0].
    pose proof (Hty 0%nat group eq_refl) as Hg. rewrite Nat.add_0_r in Hg.
    destruct (mergeFilters_spec h id (Filters og0) (Hother id og0 Hog0)
                (Filters group) h1 Hg Hndg) as (h1' & Hm & Hs' & Hout & Hat);
      [| exact Hs | |].
    { intros l Hl Hl'. apply (Hdis l); [apply elem_of_app; left; exact Hl |].
      exact (allLocs_group other id og0 l Hog0 Hl'). }
    { intros l [Hl | Hl]; apply Hsame.
      - left. apply elem_of_app. left. exact Hl.
      - right. exact (allLocs_group other id og0 l Hog0 Hl). }
    destruct (IH (S id) h1') as (h2 & Hm2 & Hout2 & Hat2); [lia | | exact Hndr | | exact Hs' | |].
    { intros k g Hk. replace (S id + k)%nat with (id + S k)%nat by lia.
      exact (Hty (S k) g Hk). }
    { intros l Hl. apply Hdis. apply elem_of_app. right. exact Hl. }
    { intros l Hl. rewrite Hout.
      - apply Hsame. destruct Hl as [Hl | Hl]; [left; apply elem_of_app; right; exact Hl | right; exact Hl].
      - intros Hlg. destruct Hl as [Hl | Hl]; [exact (Hsep l Hlg Hl) |].
        apply (Hdis l); [apply elem_of_app; left; exact Hlg | exact Hl]. }
    exists h2. split; [| split].
    + cbn [mergeGroups]. rewrite Hog0, Hm. cbn [mbind result_bind]. exact Hm2.
    + intros l Hl. rewrite allLocs_cons in Hl. rewrite Hout2, Hout; [reflexivity | |];
        intros Hl'; apply Hl, elem_of_app; [left | right]; exact Hl'.
    + intros k g og l f Hk Hok Hl Hf. destruct k as [| k].
      * injection Hk as <-. rewrite Nat.add_0_r, Hog0 in Hok. injection Hok as <-.
        pose proof (Hat l f Hl Hf) as Hmerged. unfold mergedAt in *.
        rewrite (Hout2 l (Hsep l Hl)). exact Hmerged.
      * apply (Hat2 k g og l f Hk); [| exact Hl | exact Hf].
        replace (S id + k)%nat with (id + S k)%nat by lia. exact Hok.
Qed.

(** *** Filters from tokens *)

Section TokenProperties.

Variable parseExtCommunityValue : string -> result SearchFilter.
Variable parseCommunityValue : string -> result SearchFilter.

Abbreviation parseText := (parseCommunityFilterText parseExtCommunityValue parseCommunityValue).
Abbreviation addAll := (addTokens parseExtCommunityValue parseCommunityValue).

Lemma HasPrefix_hash (text : string) : HasPrefix (String "#" text) "#" = true.
Proof. unfold HasPrefix. simpl. destruct text; reflexivity. Qed.

Lemma addTokens_app (pre post : list string) :
  forall h s,
    addAll h s (pre ++ post)
    = '(h', s') ← addAll h s pre; addAll h' s' post.
Proof.
  induction pre as [| value pre IH]; intros h s; [reflexivity |].
  simpl. destruct (HasPrefix value "#"); [| apply IH].
  destruct (parseText (dropFirst value)) as [[key filter]| |]; try reflexivity.
  cbn [mbind result_bind].
  destruct (groupByKey s key) as [g| |]; try reflexivity.
  cbn [mbind result_bind].
  unfold alloc.
  destruct (AddFilter _ g _) as [[h2 g']| |]; try reflexivity.
  cbn [mbind result_bind].
  destruct (groupPosition key); [apply IH | reflexivity].
Qed.

Lemma parseText_incomplete (text : string) :
  (length (Split text ":") < 2)%nat ->
  parseText text = Err "BGP community incomplete".
Proof.
  intros Hlen. unfold parseCommunityFilterText.
  destruct (Nat.ltb_spec (length (Split text ":")) 2); [reflexivity | lia].
Qed.

End TokenProperties.

(** *** White space *)

Lemma Split_nonempty (s : string) (sep : ascii) : Split s sep <> [].
Proof.
  destruct s as [| c s]; simpl; [discriminate |].
  destruct (Ascii.eqb c sep); [discriminate |].
  destruct (Split s sep); discriminate.
Qed.

Lemma Split_none (s : string) (sep : ascii) :
  occurs sep s = false -> Split s sep = [s].
Proof.
  induction s as [| c s IH]; simpl; [reflexivity |].
  destruct (Ascii.eqb c sep); [discriminate |]. simpl. intros H.
  rewrite (IH H). reflexivity.
Qed.

Lemma Split_app (s t : string) (sep : ascii) :
  occurs sep s = false ->
  Split (s +:+ String sep t) sep = s :: Split t sep.
Proof.
  induction s as [| c s IH]; simpl.
  - rewrite Ascii.eqb_refl. reflexivity.
  - destruct (Ascii.eqb c sep); [discriminate |]. simpl. intros H.
    rewrite (IH H). reflexivity.
Qed.

Lemma cut_app (s t : string) (sep : ascii) :
  occurs sep s = false -> cut (s +:+ String sep t) sep = Some (s, t).
Proof.
  induction s as [| c s IH]; simpl.
  - rewrite Ascii.eqb_refl. reflexivity.
  - destruct (Ascii.eqb c sep); [discriminate |]. simpl. intros H.
    rewrite (IH H). reflexivity.
Qed.

Lemma cut_none (s : string) (sep : ascii) :
  occurs sep s = false -> cut s sep = None.
Proof.
  induction s as [| c s IH]; simpl; [reflexivity |].
  destruct (Ascii.eqb c sep); [discriminate |]. simpl. intros H.
  rewrite (IH H). reflexivity.
Qed.

Lemma occurs_append (c : ascii) (s t : string) :
  occurs c (s +:+ t) = occurs c s || occurs c t.
Proof.
  induction s as [| a s IH]; [reflexivity |].
  change (Ascii.eqb a c || occurs c (s +:+ t)
          = Ascii.eqb a c || occurs c s || occurs c t).
  rewrite IH, orb_assoc. reflexivity.
Qed.

Lemma Split_prefix (w rest : string) :
  occurs newline w = false ->
  Split (w +:+ rest) newline
  = match Split rest newline with
    | hd :: tl => (w +:+ hd) :: tl
    | [] => [w]
    end.
Proof.
  induction w as [| c w IH]; intros Hw.
  - pose proof (Split_nonempty rest newline) as Hne.
    change ("" +:+ rest) with rest.
    destruct (Split rest newline); [congruence | reflexivity].
  - cbn [occurs] in Hw. apply orb_false_iff in Hw as [Hc Hw].
    change (String c w +:+ rest) with (String c (w +:+ rest)).
    cbn [Split]. rewrite Hc, (IH Hw).
    pose proof (Split_nonempty rest newline) as Hne.
    destruct (Split rest newline); [congruence | reflexivity].
Qed.

Lemma whiteSpace_newline (w : string) :
  In w whiteSpace -> w = String newline "" \/ occurs newline w = false.
Proof.
  intros Hin. vm_compute in Hin.
  repeat (destruct Hin as [<- | Hin];
          [first [left; reflexivity | right; reflexivity] |]).
  contradiction.
Qed.

Lemma whiteSpace_equals (w : string) :
  In w whiteSpace -> occurs "=" w = false.
Proof.
  intros Hin. vm_compute in Hin.
  repeat (destruct Hin as [<- | Hin]; [reflexivity |]). contradiction.
Qed.

Lemma blank_equals (s : string) : blank s -> occurs "=" s = false.
Proof.
  induction 1 as [| w rest Hin _ IH]; [reflexivity |].
  rewrite occurs_append, (whiteSpace_equals w Hin), IH. reflexivity.
Qed.

Lemma bytes_app (a b : string) :
  list_ascii_of_string (a +:+ b)
  = list_ascii_of_string a ++ list_ascii_of_string b.
Proof.
  induction a as [| c a IH]; [reflexivity |].
  change (String c a +:+ b) with (String c (a +:+ b)).
  cbn [list_ascii_of_string app]. rewrite IH. reflexivity.
Qed.

Lemma string_of_bytes_app (a b : list ascii) :
  string_of_list_ascii (a ++ b)
  = string_of_list_ascii a +:+ string_of_list_ascii b.
Proof.
  induction a as [| c a IH]; [reflexivity |].
  cbn [app string_of_list_ascii]. rewrite IH. reflexivity.
Qed.

(** Every white-space character is removed from the front, *)
Lemma trimLeading_whiteSpace (w : string) (t : list ascii) :
  In w whiteSpace ->
  trimLeading (list_ascii_of_string w ++ t) = trimLeading t /\
  startsBlank (list_ascii_of_string w ++ t) = true /\
  startsRune (list_ascii_of_string w ++ t) = true.
Proof.
  intros Hin. vm_compute in Hin.
  repeat (destruct Hin as [<- | Hin]; [repeat split |]).
  contradiction.
Qed.

(** and from the end. *)
Lemma trimTrailing_whiteSpace (w : string) (t : list ascii) :
  In w whiteSpace ->
  trimTrailing (List.rev (list_ascii_of_string w) ++ t) = trimTrailing t /\
  endsBlank (List.rev (list_ascii_of_string w) ++ t) = true.
Proof.
  intros Hin. vm_compute in Hin.
  repeat (destruct Hin as [<- | Hin]; [repeat split |]).
  contradiction.
Qed.

Lemma byte_inv (c : ascii) (n : N) : byte c = n -> c = ascii_of_N n.
Proof. intros <-. unfold byte. symmetry. apply ascii_N_embedding. Qed.

Lemma whiteSpace_test (w : string) :
  existsb (String.eqb w) whiteSpace = true -> In w whiteSpace.
Proof.
  intros H. apply existsb_exists in H as (x & Hx & E).
  apply String.eqb_eq in E. subst x. exact Hx.
Qed.

Lemma isSpace_whiteSpace (c : ascii) :
  isSpace c = true -> In (String c "") whiteSpace.
Proof.
  intros H. apply whiteSpace_test.
  destruct c as [[] [] [] [] [] [] [] []]; try discriminate H; reflexivity.
Qed.

Lemma isSpace2_whiteSpace (c d : ascii) :
  isSpace2 c d = true -> In (String c (String d "")) whiteSpace.
Proof.
  intros H. apply whiteSpace_test. unfold isSpace2 in H.
  destruct (N.eqb_spec (byte c) 0xC2) as [E | _]; [| discriminate H].
  apply byte_inv in E. subst c.
  destruct d as [[] [] [] [] [] [] [] []]; try discriminate H; reflexivity.
Qed.

Lemma isSpace3_whiteSpace (c d e : ascii) :
  isSpace3 c d e = true -> In (String c (String d (String e ""))) whiteSpace.
Proof.
  intros H. apply whiteSpace_test. unfold isSpace3 in H.
  destruct (N.eqb_spec (byte c) 0xE1) as [C1 | _];
    [apply byte_inv in C1; subst c |];
    (destruct (N.eqb_spec (byte d) 0x9A) as [D1 | _];
     [apply byte_inv in D1; subst d |]);
    try (destruct (N.eqb_spec (byte c) 0xE2) as [C2 | _];
         [apply byte_inv in C2; subst c |]);
    try (destruct (N.eqb_spec (byte c) 0xE3) as [C3 | _];
         [apply byte_inv in C3; subst c |]);
    try (destruct (N.eqb_spec (byte d) 0x80) as [D2 | _];
         [apply byte_inv in D2; subst d |]);
    try (destruct (N.eqb_spec (byte d) 0x81) as [D3 | _];
         [apply byte_inv in D3; subst d |]);
    try discriminate H;
    destruct e as [[] [] [] [] [] [] [] []]; try discriminate H; reflexivity.
Qed.

Lemma startsBlank_inv (s : list ascii) :
  startsBlank s = true ->
  exists w t, In w whiteSpace /\ s = list_ascii_of_string w ++ t.
Proof.
  destruct s as [| c rest]; [discriminate |]. cbn [startsBlank].
  destruct (isSpace c) eqn:S1.
  { intros _. exists (String c ""), rest.
    split; [apply isSpace_whiteSpace, S1 | reflexivity]. }
  destruct rest as [| d rest2]; [discriminate |].
  destruct (isSpace2 c d) eqn:S2.
  { intros _. exists (String c (String d "")), rest2.
    split; [apply isSpace2_whiteSpace, S2 | reflexivity]. }
  destruct rest2 as [| e rest3]; [discriminate |].
  cbn [orb]. intros S3. exists (String c (String d (String e ""))), rest3.
  split; [apply isSpace3_whiteSpace, S3 | reflexivity].
Qed.

Lemma endsBlank_inv (r : list ascii) :
  endsBlank r = true ->
  exists w t, In w whiteSpace /\ r = List.rev (list_ascii_of_string w) ++ t.
Proof.
  destruct r as [| c rest]; [discriminate |]. cbn [endsBlank].
  destruct (isSpace c) eqn:S1.
  { intros _. exists (String c ""), rest.
    split; [apply isSpace_whiteSpace, S1 | reflexivity]. }
  destruct rest as [| d rest2]; [discriminate |].
  destruct (isSpace2 d c) eqn:S2.
  { intros _. exists (String d (String c "")), rest2.
    split; [apply isSpace2_whiteSpace, S2 | reflexivity]. }
  destruct rest2 as [| e rest3]; [discriminate |].
  cbn [orb]. intros S3. exists (String e (String d (String c ""))), rest3.
  split; [apply isSpace3_whiteSpace, S3 | reflexivity].
Qed.

Lemma trimLeading_fixed (s : list ascii) :
  startsBlank s = false -> trimLeading s = s.
Proof.
  destruct s as [| c [| d [| e r]]]; cbn [startsBlank trimLeading];
    try reflexivity.
  - destruct (isSpace c); [discriminate | reflexivity].
  - destruct (isSpace c); [discriminate |].
    destruct (isSpace2 c d); [discriminate | reflexivity].
  - destruct (isSpace c); [discriminate |].
    destruct (isSpace2 c d); [discriminate |].
    destruct (isSpace3 c d e); [discriminate | reflexivity].
Qed.

Lemma trimTrailing_fixed (r : list ascii) :
  endsBlank r = false -> trimTrailing r = r.
Proof.
  destruct r as [| c [| d [| e r]]]; cbn [endsBlank trimTrailing];
    try reflexivity.
  - destruct (isSpace c); [discriminate | reflexivity].
  - destruct (isSpace c); [discriminate |].
    destruct (isSpace2 d c); [discriminate | reflexivity].
  - destruct (isSpace c); [discriminate |].
    destruct (isSpace2 d c); [discriminate |].
    destruct (isSpace3 e d c); [discriminate | reflexivity].
Qed.

Lemma isSpace2_cont (c d : ascii) : isSpace2 c d = true -> isCont d = true.
Proof.
  unfold isSpace2, isCont. intros H.
  rewrite ?andb_true_iff, ?orb_true_iff, ?N.eqb_eq, ?N.leb_le in *. lia.
Qed.

Lemma isSpace3_cont (c d e : ascii) :
  isSpace3 c d e = true -> isCont d = true /\ isCont e = true.
Proof.
  unfold isSpace3, isCont. intros H.
  rewrite !andb_true_iff, !N.leb_le.
  repeat match goal with
         | H : (_ || _) = true |- _ => apply orb_true_iff in H as [H | H]
         | H : (_ && _) = true |- _ =>
             let H' := fresh in apply andb_true_iff in H as [H' H]
         | H : (_ =? _)%N = true |- _ => apply N.eqb_eq in H
         | H : (_ <=? _)%N = true |- _ => apply N.leb_le in H
         end; lia.
Qed.

(** What follows a text that starts with no white space cannot turn its
    first bytes into white space, as long as it starts a rune of its own. *)
Lemma startsBlank_app (s t : list ascii) :
  startsBlank s = false -> s <> [] -> startsRune t = true ->
  startsBlank (s ++ t) = false.
Proof.
  intros H Hne Ht.
  assert (N2 : forall c d, isCont d = false -> isSpace2 c d = false).
  { intros c d Hd. destruct (isSpace2 c d) eqn:E; [| reflexivity].
    apply isSpace2_cont in E. congruence. }
  assert (N3d : forall c d e, isCont e = false -> isSpace3 c d e = false).
  { intros c d e He. destruct (isSpace3 c d e) eqn:E; [| reflexivity].
    apply isSpace3_cont in E as [_ E]. congruence. }
  assert (N3 : forall c d e, isCont d = false -> isSpace3 c d e = false).
  { intros c d e Hd. destruct (isSpace3 c d e) eqn:E; [| reflexivity].
    apply isSpace3_cont in E as [E _]. congruence. }
  destruct s as [| c [| d [| e r]]]; [congruence | | |].
  - cbn [startsBlank orb] in H. rewrite orb_false_r in H.
    change ([c] ++ t) with (c :: t). cbn [startsBlank]. rewrite H. cbn [orb].
    destruct t as [| d t2]; [reflexivity |].
    cbn [startsRune] in Ht. apply negb_true_iff in Ht.
    rewrite (N2 c d Ht). cbn [orb].
    destruct t2 as [| e t3]; [reflexivity |]. apply N3, Ht.
  - cbn [startsBlank] in H. rewrite orb_false_r in H.
    apply orb_false_iff in H as [H1 H2].
    change ([c; d] ++ t) with (c :: d :: t). cbn [startsBlank].
    rewrite H1, H2. cbn [orb].
    destruct t as [| e t3]; [reflexivity |].
    cbn [startsRune] in Ht. apply negb_true_iff in Ht. apply N3d, Ht.
  - exact H.
Qed.

Lemma blank_startsRune (s : string) (t : list ascii) :
  blank s -> startsRune t = true ->
  startsRune (list_ascii_of_string s ++ t) = true.
Proof.
  intros [| w rest Hin _] Ht; [exact Ht |].
  rewrite bytes_app, <- app_assoc.
  apply (trimLeading_whiteSpace w _ Hin).
Qed.

Lemma trimLeading_blank (s : string) (t : list ascii) :
  blank s -> trimLeading (list_ascii_of_string s ++ t) = trimLeading t.
Proof.
  induction 1 as [| w rest Hin _ IH]; [reflexivity |].
  rewrite bytes_app, <- app_assoc.
  rewrite (proj1 (trimLeading_whiteSpace w _ Hin)). exact IH.
Qed.

Lemma blank_app (a b : string) : blank a -> blank b -> blank (a +:+ b).
Proof.
  induction 1 as [| w rest Hin _ IH]; intros Hb; [exact Hb |].
  assert (E : (w +:+ rest) +:+ b = w +:+ (rest +:+ b)).
  { rewrite <- (string_of_list_ascii_of_string ((w +:+ rest) +:+ b)),
      <- (string_of_list_ascii_of_string (w +:+ (rest +:+ b))).
    rewrite !bytes_app, app_assoc. reflexivity. }
  rewrite E. apply blank_more; [exact Hin | apply IH, Hb].
Qed.

Lemma trimTrailing_blank (s : string) (t : list ascii) :
  blank s ->
  trimTrailing (List.rev (list_ascii_of_string s) ++ t) = trimTrailing t.
Proof.
  intros Hs. revert t.
  induction Hs as [| w rest Hin _ IH]; intros t; [reflexivity |].
  rewrite bytes_app, rev_app_distr, <- app_assoc, IH.
  apply (trimTrailing_whiteSpace w _ Hin).
Qed.

Lemma trimmed_bytes (s : string) :
  trimmed s ->
  startsBlank (list_ascii_of_string s) = false /\
  endsBlank (List.rev (list_ascii_of_string s)) = false.
Proof.
  intros Hs. split.
  - destruct (startsBlank _) eqn:E; [| reflexivity].
    apply startsBlank_inv in E as (w & t & Hin & E).
    destruct (Hs w (string_of_list_ascii t) Hin) as [Hn _]. exfalso.
    apply Hn.
    rewrite <- (string_of_list_ascii_of_string s), E, string_of_bytes_app,
      string_of_list_ascii_of_string. reflexivity.
  - destruct (endsBlank _) eqn:E; [| reflexivity].
    apply endsBlank_inv in E as (w & t & Hin & E).
    destruct (Hs w (string_of_list_ascii (List.rev t)) Hin) as [_ Hn].
    exfalso. apply Hn.
    rewrite <- (string_of_list_ascii_of_string s),
      <- (rev_involutive (list_ascii_of_string s)), E, rev_app_distr,
      rev_involutive, string_of_bytes_app, string_of_list_ascii_of_string.
    reflexivity.
Qed.

Lemma trimmedb_trimmed (s : string) : trimmedb s = true -> trimmed s.
Proof.
  unfold trimmedb. intros H. apply andb_true_iff in H as [H1 H2].
  apply negb_true_iff in H1, H2. intros w t Hin. split; intros ->.
  - rewrite bytes_app in H1.
    rewrite (proj1 (proj2 (trimLeading_whiteSpace w _ Hin))) in H1.
    discriminate.
  - rewrite bytes_app, rev_app_distr in H2.
    rewrite (proj2 (trimTrailing_whiteSpace w _ Hin)) in H2. discriminate.
Qed.

(** [TrimSpace] takes away the white space around a text, and nothing of
    a text that has none at either end: white space is the characters of
    [White_Space], in UTF-8. *)
Lemma TrimSpace_spec (pre core post : string) :
  blank pre -> blank post -> trimmed core ->
  TrimSpace (pre +:+ core +:+ post) = core.
Proof.
  intros Hpre Hpost Hcore.
  destruct (trimmed_bytes core Hcore) as [Hs He].
  unfold TrimSpace, TrimRight, TrimLeft.
  rewrite list_ascii_of_string_of_list_ascii.
  rewrite bytes_app, (trimLeading_blank pre _ Hpre), bytes_app.
  destruct (list_ascii_of_string core) as [| c cs] eqn:Ec.
  - cbn [app]. rewrite <- (app_nil_r (list_ascii_of_string post)).
    rewrite (trimLeading_blank post [] Hpost). cbn.
    rewrite <- (string_of_list_ascii_of_string core), Ec. reflexivity.
  - rewrite trimLeading_fixed.
    2:{ apply startsBlank_app; [exact Hs | discriminate |].
        rewrite <- (app_nil_r (list_ascii_of_string post)).
        apply blank_startsRune; [exact Hpost | reflexivity]. }
    rewrite rev_app_distr, (trimTrailing_blank post _ Hpost).
    rewrite (trimTrailing_fixed _ He), rev_involutive, <- Ec.
    apply string_of_list_ascii_of_string.
Qed.

Lemma whiteSpace_bytes (w : string) :
  In w whiteSpace -> list_ascii_of_string w <> [].
Proof.
  intros Hin. vm_compute in Hin.
  repeat (destruct Hin as [<- | Hin]; [discriminate |]). contradiction.
Qed.

Lemma TrimSpace_blank (s : string) : blank s -> TrimSpace s = "".
Proof.
  intros Hs.
  assert (E : s = "" +:+ "" +:+ s) by reflexivity.
  rewrite E. apply TrimSpace_spec; [constructor | exact Hs |].
  intros w t Hin. pose proof (whiteSpace_bytes w Hin) as Hw.
  split; intros Heq; apply (f_equal list_ascii_of_string) in Heq;
    rewrite bytes_app in Heq; symmetry in Heq;
    apply app_eq_nil in Heq as [? ?]; contradiction.
Qed.

Lemma blank_one (w : string) : In w whiteSpace -> blank w.
Proof.
  intros Hin. assert (E : w = w +:+ "").
  { clear Hin. induction w as [| c w IH]; [reflexivity |].
    change (String c w = String c (w +:+ "")). rewrite <- IH. reflexivity. }
  rewrite E. apply blank_more; [exact Hin | constructor].
Qed.

Lemma Split_blank (s : string) : blank s -> Forall blank (Split s newline).
Proof.
  induction 1 as [| w rest Hin Hrest IH]; [repeat constructor |].
  destruct (whiteSpace_newline w Hin) as [-> | Hw].
  - change (Forall blank ("" :: Split rest newline)).
    constructor; [constructor | exact IH].
  - rewrite (Split_prefix w rest Hw).
    destruct (Split rest newline) as [| hd tl];
      [repeat constructor; apply blank_one, Hin |].
    apply Forall_cons in IH as [Hhd Htl].
    constructor; [apply blank_more; assumption | exact Htl].
Qed.

(** A body of white space only has no line to parse. *)
Lemma effectiveLines_blank (s : string) : blank s -> effectiveLines s = [].
Proof.
  intros Hs. unfold effectiveLines.
  induction (Split_blank s Hs) as [| line lines Hline _ IH]; [reflexivity |].
  cbn [map List.filter]. rewrite (TrimSpace_blank line Hline). exact IH.
Qed.

(** *** Community ranges *)

Section RangeProperties.

Variable IntListFromStrings : list string -> list Z.
Variable RangeType : BGPCommunityRange -> BGPCommunityType.

(** What the spec says of [BGPCommunityRange.Type]: a first element of
    strings is extended; two, respectively three, elements of ints are
    standard, respectively large. *)
Hypothesis RangeType_ext :
  forall tag rest, RangeType (RStrings tag :: rest) = BGPCommunityTypeExt.
Hypothesis RangeType_std :
  forall a b, RangeType [RInts a; RInts b] = BGPCommunityTypeStd.
Hypothesis RangeType_large :
  forall a b c, RangeType [RInts a; RInts b; RInts c] = BGPCommunityTypeLarge.

Abbreviation parseRange := (parseRangeCommunity IntListFromStrings).
Abbreviation intRange := (fun t => RInts (IntListFromStrings (partOf t))).

Lemma rangeParts_eq (s : string) (tokens : list string) :
  rangeParts s tokens = Ok (map partOf tokens).
Proof.
  induction tokens as [| t rest IH]; simpl; [reflexivity |].
  unfold partOf, SplitN2. destruct (cut t "-") as [[lo hi]|];
    rewrite IH; reflexivity.
Qed.

Lemma partOf_shape (t : string) : exists hi, partOf t = [lowerBound t; hi].
Proof.
  unfold lowerBound, partOf. destruct (cut t "-") as [[lo hi]|]; simpl; eauto.
Qed.

(** [parseRangeCommunity] in terms of the colon-tokens of the line. *)
Lemma parseRangeCommunity_eq (s : string) :
  parseRange s
  = match Split s ":" with
    | [] | [_] => ErrInvalidCommunity s
    | t0 :: rest =>
        match Atoi (lowerBound t0), rest with
        | None, [t1; t2] =>
            Ok [RStrings [lowerBound t0; lowerBound t0]; intRange t1; intRange t2]
        | None, _ => ErrInvalidCommunity s
        | Some _, _ => Ok (map intRange (t0 :: rest))
        end
    end.
Proof.
  unfold parseRangeCommunity. rewrite rangeParts_eq.
  destruct (Split s ":") as [| t0 [| t1 rest]]; try reflexivity.
  cbn [length Nat.ltb Nat.leb mbind result_bind map].
  destruct (partOf_shape t0) as [hi0 E0]. rewrite E0.
  cbn [length Nat.leb].
  destruct (Atoi (lowerBound t0)) as [z |].
  - cbn [andb]. rewrite <- E0. rewrite map_map. reflexivity.
  - destruct rest as [| t2 [| t3 rest]]; reflexivity.
Qed.
(** A line either parses or is an invalid community; it never panics. *)
Lemma parseRangeCommunity_total (s : string) :
  (exists r, parseRange s = Ok r) \/ parseRange s = ErrInvalidCommunity s.
Proof.
  rewrite parseRangeCommunity_eq.
  destruct (Split s ":") as [| t0 [| t1 rest]]; [right; reflexivity.. |].
  destruct (Atoi (lowerBound t0)); [left; eauto |].
  destruct rest as [| t2 [| t3 rest]]; [right | left; eauto | right]; reflexivity.
Qed.

Abbreviation collect := (fun ty rs =>
  List.filter (fun r => typeIs ty (RangeType r)) rs).

Lemma rangeLines_step (line : string) (rest : list string)
  (comms large ext : list BGPCommunityRange) :
  rangeLines IntListFromStrings RangeType (line :: rest) comms large ext
  = if isEffective (TrimSpace line) then
      comm ← parseRange (TrimSpace line);
      match RangeType comm with
      | BGPCommunityTypeStd =>
          rangeLines IntListFromStrings RangeType rest (comms ++ [comm]) large ext
      | BGPCommunityTypeLarge =>
          rangeLines IntListFromStrings RangeType rest comms (large ++ [comm]) ext
      | BGPCommunityTypeExt =>
          rangeLines IntListFromStrings RangeType rest comms large (ext ++ [comm])
      | BGPCommunityTypeOther =>
          rangeLines IntListFromStrings RangeType rest comms large ext
      end
    else rangeLines IntListFromStrings RangeType rest comms large ext.
Proof.
  cbn [rangeLines]. unfold isEffective.
  destruct (String.eqb (TrimSpace line) ""); [reflexivity |].
  destruct (HasPrefix (TrimSpace line) "#"); reflexivity.
Qed.

Lemma rangeLines_ok (lines : list string) :
  (forall t, In t (List.filter isEffective (map TrimSpace lines)) ->
             is_Ok (parseRange t) = true) ->
  forall comms large ext,
    rangeLines IntListFromStrings RangeType lines comms large ext
    = let rs := okRanges parseRange
                  (List.filter isEffective (map TrimSpace lines)) in
      Ok {| Standard := comms ++ collect BGPCommunityTypeStd rs;
            Large := large ++ collect BGPCommunityTypeLarge rs;
            Extended := ext ++ collect BGPCommunityTypeExt rs |}.
Proof.
  induction lines as [| line rest IH]; intros Hall comms large ext.
  - simpl. rewrite !app_nil_r. reflexivity.
  - rewrite rangeLines_step. cbn [map List.filter] in *.
    destruct (isEffective (TrimSpace line)); [| apply IH, Hall].
    pose proof (Hall (TrimSpace line) (or_introl eq_refl)) as Hok.
    cbn [okRanges].
    destruct (parseRange (TrimSpace line)) as [r | |]; try discriminate Hok.
    cbn [mbind result_bind].
    assert (Hrest : forall t,
               In t (List.filter isEffective (map TrimSpace rest)) ->
               is_Ok (parseRange t) = true)
      by (intros t Ht; apply Hall; right; exact Ht).
    cbv zeta. cbn [List.filter].
    destruct (RangeType r); cbn [typeIs]; rewrite (IH Hrest); cbv zeta;
      rewrite <- ?app_assoc; reflexivity.
Qed.

Lemma rangeLines_abort (lines : list string) :
  (exists t, In t (List.filter isEffective (map TrimSpace lines)) /\
             is_Ok (parseRange t) = false) ->
  forall comms large ext,
  exists t, In t (List.filter isEffective (map TrimSpace lines)) /\
            rangeLines IntListFromStrings RangeType lines comms large ext
            = ErrInvalidCommunity t.
Proof.
  induction lines as [| line rest IH]; intros (t & Hin & Hbad) comms large ext.
  - contradiction.
  - rewrite rangeLines_step. cbn [map List.filter] in *.
    destruct (isEffective (TrimSpace line)); [| apply IH; eauto].
    destruct (parseRangeCommunity_total (TrimSpace line)) as [[r Hr] | Herr].
    + rewrite Hr. cbn [mbind result_bind].
      destruct Hin as [<- | Hin]; [rewrite Hr in Hbad; discriminate Hbad |].
      assert (Hex : exists t, In t (List.filter isEffective (map TrimSpace rest)) /\
                              is_Ok (parseRange t) = false) by eauto.
      destruct (RangeType r);
        [destruct (IH Hex (comms ++ [r]) large ext) as (u & Hu & Hru)
        |destruct (IH Hex comms (large ++ [r]) ext) as (u & Hu & Hru)
        |destruct (IH Hex comms large (ext ++ [r])) as (u & Hu & Hru)
        |destruct (IH Hex comms large ext) as (u & Hu & Hru)];
        exists u; (split; [right; exact Hu | exact Hru]).
    + exists (TrimSpace line). split; [left; reflexivity |].
      rewrite Herr. reflexivity.
Qed.

(** C7, amended: a line is classified by the text before the first hyphen
    of its first colon-token.  Fewer than two colon-tokens: invalid
    community.  That text no integer: extended, and an invalid community
    unless there are exactly three colon-tokens.  That text an integer:
    standard with two colon-tokens, large with three.  When a line that is
    neither empty nor a comment is invalid, [parseRangeCommunitiesSet]
    returns the invalid-community error of a line and no set; otherwise it
    returns the ranges of the lines, in order, in the collection of their
    type.  The lines are taken without the white space around them, white
    space being the characters with the Unicode property White_Space: a
    line of white space only is empty, so it is skipped. *)
Theorem parseRangeCommunitiesSet_classify :
  (forall line,
      let tokens := Split line ":" in
      let lo := lowerBound (hd "" tokens) in
      ((length tokens < 2)%nat -> parseRange line = ErrInvalidCommunity line) /\
      (Atoi lo = None -> length tokens <> 3%nat ->
       parseRange line = ErrInvalidCommunity line) /\
      (Atoi lo = None -> length tokens = 3%nat ->
       exists r, parseRange line = Ok r /\ RangeType r = BGPCommunityTypeExt) /\
      (is_Some (Atoi lo) -> length tokens = 2%nat ->
       exists r, parseRange line = Ok r /\ RangeType r = BGPCommunityTypeStd) /\
      (is_Some (Atoi lo) -> length tokens = 3%nat ->
       exists r, parseRange line = Ok r /\ RangeType r = BGPCommunityTypeLarge)) /\
  (forall body,
      (exists t, In t (effectiveLines body) /\ is_Ok (parseRange t) = false) ->
      exists t, In t (effectiveLines body) /\
                parseRangeCommunitiesSet IntListFromStrings RangeType body
                = ErrInvalidCommunity t) /\
  (forall body,
      (forall t, In t (effectiveLines body) -> is_Ok (parseRange t) = true) ->
      parseRangeCommunitiesSet IntListFromStrings RangeType body
      = let rs := okRanges parseRange (effectiveLines body) in
        Ok {| Standard := collect BGPCommunityTypeStd rs;
              Large := collect BGPCommunityTypeLarge rs;
              Extended := collect BGPCommunityTypeExt rs |}) /\
  (forall pre core post,
      blank pre -> blank post -> trimmed core ->
      TrimSpace (pre +:+ core +:+ post) = core /\
      effectiveLines (pre +:+ post) = []).
Proof.
  split; [| split; [| split]]; cycle 3.
  { intros pre core post Hpre Hpost Hcore.
    split; [apply TrimSpace_spec; assumption |].
    apply effectiveLines_blank, blank_app; assumption. }
  - intros line tokens lo. subst tokens lo.
    rewrite parseRangeCommunity_eq.
    destruct (Split line ":") as [| t0 [| t1 rest]]; cbn [hd length].
    + repeat split; intros; try lia; try reflexivity.
    + repeat split; intros; try lia; try reflexivity.
    + repeat split.
      * intros; lia.
      * intros -> Hlen. destruct rest as [| t2 [| t3 rest]]; try reflexivity.
        simpl in Hlen. lia.
      * intros -> Hlen. destruct rest as [| t2 [| t3 rest]]; simpl in Hlen; try lia.
        eexists. split; [reflexivity | apply RangeType_ext].
      * intros [z ->] Hlen. destruct rest as [| t2 rest]; simpl in Hlen; try lia.
        eexists. split; [reflexivity | apply RangeType_std].
      * intros [z ->] Hlen. destruct rest as [| t2 [| t3 rest]]; simpl in Hlen; try lia.
        eexists. split; [reflexivity | apply RangeType_large].
  - intros body Hbad. apply rangeLines_abort. exact Hbad.
  - intros body Hall. unfold parseRangeCommunitiesSet.
    rewrite (rangeLines_ok _ Hall). reflexivity.
Qed.

(** C10, amended: when the text before the first hyphen of the first of
    three colon-tokens is no integer, that text is the type tag, as both
    bounds of the tag; the text after the hyphen does not occur in the
    result. *)
Theorem parseRangeCommunity_tag_hyphen (line t0 t1 t2 tag after : string) :
  Split line ":" = [t0; t1; t2] ->
  cut t0 "-" = Some (tag, after) ->
  Atoi tag = None ->
  parseRange line = Ok [RStrings [tag; tag]; intRange t1; intRange t2].
Proof.
  intros Htok Hcut Htag. rewrite parseRangeCommunity_eq, Htok.
  assert (E : lowerBound t0 = tag)
    by (unfold lowerBound, partOf; rewrite Hcut; reflexivity).
  rewrite E, Htag. reflexivity.
Qed.

End RangeProperties.

(** *** Label directories *)

Section DirectoryProperties.

Variable M : Type.
Variable set : M -> string -> string -> M.

Lemma mergeLine_eq (m : M) (log : list string) (line : string) :
  mergeLine M set (m, log) line
  = match entryOf line with
    | Some (k, v) => (set m k v, log)
    | None => (m, log ++ ["Skipping malformed BGP community: " +:+ line])
    end.
Proof.
  unfold mergeLine, entryOf, SplitN2.
  destruct (cut line "=") as [[k v]|]; reflexivity.
Qed.

Lemma fold_mergeLine (lines : list string) :
  forall m log,
    fold_left (mergeLine M set) lines (m, log)
    = (setAll set m (entriesOf lines), log ++ mergeWarnings lines).
Proof.
  induction lines as [| line rest IH]; intros m log.
  - simpl. rewrite app_nil_r. reflexivity.
  - cbn [fold_left entriesOf mergeWarnings]. rewrite mergeLine_eq.
    destruct (entryOf line) as [[k v]|]; rewrite IH.
    + reflexivity.
    + rewrite <- app_assoc. reflexivity.
Qed.

Lemma setCandidates_eq (cs : list string) :
  forall m n,
    setCandidates M set m n cs
    = (setAll set m (numberFrom n cs), n + Z.of_nat (length cs)).
Proof.
  induction cs as [| c rest IH]; intros m n.
  - simpl. rewrite Z.add_0_r. reflexivity.
  - cbn [setCandidates numberFrom]. rewrite IH. unfold setAll. simpl fold_left.
    f_equal. simpl length. lia.
Qed.

Lemma numberFrom_app (xs ys : list string) :
  forall n,
    numberFrom n (xs ++ ys)
    = numberFrom n xs ++ numberFrom (n + Z.of_nat (length xs)) ys.
Proof.
  induction xs as [| x xs IH]; intros n.
  - simpl. rewrite Z.add_0_r. reflexivity.
  - cbn [app numberFrom]. rewrite IH. simpl length.
    replace (n + 1 + Z.of_nat (length xs)) with (n + Z.of_nat (S (length xs)))
      by lia.
    reflexivity.
Qed.

Lemma numberFrom_lookup (cs : list string) :
  forall n j c,
    cs !! j = Some c ->
    numberFrom n cs !! j = Some (c, candidateLabel (n + 1 + Z.of_nat j)).
Proof.
  induction cs as [| x cs IH]; intros n j c Hj; [discriminate Hj |].
  destruct j as [| j].
  - injection Hj as ->. simpl. rewrite Z.add_0_r. reflexivity.
  - cbn [numberFrom]. simpl. rewrite (IH (n + 1) j c Hj).
    do 3 f_equal. lia.
Qed.

Lemma candidateLine_eq (m : M) (n : Z) (log : list string) (line : string) :
  candidateLine M set (m, n, log) line
  = (setAll set m (numberFrom n (candidatesOf line)),
     n + Z.of_nat (length (candidatesOf line)),
     log ++ candidateWarning line).
Proof.
  unfold candidateLine, candidatesOf, candidateWarning, entryOf, SplitN2.
  destruct (cut line "=") as [[k v]|].
  - destruct (String.eqb (TrimSpace k) "communities"); cbn [negb].
    + rewrite setCandidates_eq, app_nil_r. reflexivity.
    + simpl. rewrite Z.add_0_r. reflexivity.
  - simpl. rewrite Z.add_0_r. reflexivity.
Qed.

Lemma setAll_app (m : M) (xs ys : list (string * string)) :
  setAll set m (xs ++ ys) = setAll set (setAll set m xs) ys.
Proof. apply fold_left_app. Qed.

Lemma fold_candidateLine (lines : list string) :
  forall m n log,
    fold_left (candidateLine M set) lines (m, n, log)
    = (setAll set m (numberFrom n (allCandidates lines)),
       n + Z.of_nat (length (allCandidates lines)),
       log ++ concat (map candidateWarning lines)).
Proof.
  induction lines as [| line rest IH]; intros m n log.
  - simpl. rewrite Z.add_0_r, app_nil_r. reflexivity.
  - cbn [fold_left]. rewrite candidateLine_eq, IH.
    unfold allCandidates. cbn [map concat].
    rewrite numberFrom_app, setAll_app, length_app, <- app_assoc.
    rewrite Nat2Z.inj_add, Z.add_assoc. reflexivity.
Qed.

End DirectoryProperties.

Lemma setAll_cons {M : Type} (set : M -> string -> string -> M) (m : M)
  (k v : string) (rest : list (string * string)) :
  setAll set m ((k, v) :: rest) = setAll set (set m k v) rest.
Proof. reflexivity. Qed.

Lemma setAll_flat_other (entries : list (string * string)) :
  forall (d : gmap string string) (k : string),
    (forall j v, entries !! j <> Some (k, v)) ->
    setAll SpecModel.Directory_Set d entries !! k = d !! k.
Proof.
  induction entries as [| [k0 v0] rest IH]; intros d k Hno; [reflexivity |].
  rewrite setAll_cons, IH.
  - unfold SpecModel.Directory_Set. apply lookup_insert_ne.
    intros ->. exact (Hno 0%nat v0 eq_refl).
  - intros j v Hj. exact (Hno (S j) v Hj).
Qed.

(** In a flat directory the last entry set under a key is the one found. *)
Lemma setAll_flat_last (entries : list (string * string)) :
  forall (d : gmap string string) (j : nat) (k v : string),
    entries !! j = Some (k, v) ->
    (forall j' v', (j < j')%nat -> entries !! j' <> Some (k, v')) ->
    setAll SpecModel.Directory_Set d entries !! k = Some v.
Proof.
  induction entries as [| [k0 v0] rest IH]; intros d j k v Hj Hlast;
    [discriminate Hj |].
  rewrite setAll_cons.
  destruct j as [| j].
  - injection Hj as -> ->. rewrite setAll_flat_other.
    + apply lookup_insert_eq.
    + intros j v' Hj. exact (Hlast (S j) v' ltac:(lia) Hj).
  - apply (IH _ j k v Hj). intros j' v' Hlt Hj'.
    exact (Hlast (S j') v' ltac:(lia) Hj').
Qed.

(** C9: the two forgiving parsers return for every body.
    [parseAndMergeCommunities] sets, in order, the trimmed key and label of
    every line with an equals sign and logs a warning for every other line.
    [parseRejectionCandidateCommunities] returns no error, logs a warning
    for every line without an equals sign or with another key than
    [communities], and sets the comma-separated communities of the
    [communities] lines with the label [reject-candidate-n], [n] being the
    position counted from 1.  In a flat directory the label found under a
    key is the one of the last line setting it.  Trimmed means without the
    white space around it, white space being the characters with the Unicode
    property White_Space: a line [key = label], with any white space around
    the key and around the label, has the entry of the key and the label
    themselves; a line without an equals sign has no entry, and is one of
    the lines warned about. *)
Theorem forgiving_parsers (M : Type) (set : M -> string -> string -> M)
  (comms : M) (body : string) :
  let lines := Split body newline in
  parseAndMergeCommunities M set comms body
  = (setAll set comms (entriesOf lines), mergeWarnings lines) /\
  parseRejectionCandidateCommunities M set comms body
  = Ok (setAll set comms (numberFrom 0 (allCandidates lines)),
        concat (map candidateWarning lines)) /\
  (forall j c,
      allCandidates lines !! j = Some c ->
      numberFrom 0 (allCandidates lines) !! j
      = Some (c, "reject-candidate-" +:+ Itoa (Z.of_nat j + 1))) /\
  (forall (d : gmap string string) j k v,
      entriesOf lines !! j = Some (k, v) ->
      (forall j' v', (j < j')%nat -> entriesOf lines !! j' <> Some (k, v')) ->
      fst (parseAndMergeCommunities _ SpecModel.Directory_Set d body) !! k
      = Some v) /\
  (forall (d : gmap string string) j c,
      allCandidates lines !! j = Some c ->
      (forall j', (j < j')%nat -> allCandidates lines !! j' <> Some c) ->
      exists d' log,
        parseRejectionCandidateCommunities _ SpecModel.Directory_Set d body
        = Ok (d', log) /\
        d' !! c = Some ("reject-candidate-" +:+ Itoa (Z.of_nat j + 1))) /\
  (forall p1 k p2 p3 v p4,
      blank p1 -> blank p2 -> blank p3 -> blank p4 ->
      trimmed k -> trimmed v -> occurs "=" k = false ->
      let line := (p1 +:+ k +:+ p2) +:+ String "=" (p3 +:+ v +:+ p4) in
      entryOf line = Some (k, v) /\
      candidatesOf line
      = (if String.eqb k "communities" then Split v "," else [])) /\
  (forall line,
      occurs "=" line = false ->
      entryOf line = None /\ candidatesOf line = [] /\
      mergeWarnings [line] = ["Skipping malformed BGP community: " +:+ line] /\
      candidateWarning line
      = ["Skipping malformed reject candidate BGP community: " +:+ line]).
Proof.
  intros lines.
  assert (Hpad : forall p1 k p2 p3 v p4,
             blank p1 -> blank p2 -> blank p3 -> blank p4 ->
             trimmed k -> trimmed v -> occurs "=" k = false ->
             entryOf ((p1 +:+ k +:+ p2) +:+ String "=" (p3 +:+ v +:+ p4))
             = Some (k, v)).
  { intros p1 k p2 p3 v p4 H1 H2 H3 H4 Hk Hv Heq. unfold entryOf.
    rewrite cut_app.
    - rewrite (TrimSpace_spec p1 k p2 H1 H2 Hk),
        (TrimSpace_spec p3 v p4 H3 H4 Hv). reflexivity.
    - rewrite !occurs_append, Heq, (blank_equals p1 H1), (blank_equals p2 H2).
      reflexivity. }
  assert (Hnone : forall line, occurs "=" line = false -> entryOf line = None).
  { intros line Hline. unfold entryOf. rewrite (cut_none line "=" Hline).
    reflexivity. }
  assert (Hmerge : forall M' (set' : M' -> string -> string -> M') m,
             parseAndMergeCommunities M' set' m body
             = (setAll set' m (entriesOf lines), mergeWarnings lines)).
  { intros M' set' m. unfold parseAndMergeCommunities.
    fold lines. rewrite fold_mergeLine. reflexivity. }
  assert (Hcand : forall M' (set' : M' -> string -> string -> M') m,
             parseRejectionCandidateCommunities M' set' m body
             = Ok (setAll set' m (numberFrom 0 (allCandidates lines)),
                   concat (map candidateWarning lines))).
  { intros M' set' m. unfold parseRejectionCandidateCommunities.
    fold lines. rewrite fold_candidateLine. reflexivity. }
  assert (Hnum : forall j c,
             allCandidates lines !! j = Some c ->
             numberFrom 0 (allCandidates lines) !! j
             = Some (c, "reject-candidate-" +:+ Itoa (Z.of_nat j + 1))).
  { intros j c Hj. rewrite (numberFrom_lookup _ 0 j c Hj).
    unfold candidateLabel. do 4 f_equal. lia. }
  split; [apply Hmerge | split; [apply Hcand | split; [exact Hnum |]]].
  split; [| split; [| split]]; cycle 2.
  { intros p1 k p2 p3 v p4 H1 H2 H3 H4 Hk Hv Heq line. subst line.
    unfold candidatesOf. rewrite (Hpad p1 k p2 p3 v p4) by assumption.
    split; reflexivity. }
  { intros line Hline. unfold candidatesOf, candidateWarning.
    cbn [mergeWarnings]. rewrite (Hnone line Hline). repeat split. }
  - intros d j k v Hj Hlast. rewrite Hmerge. cbn [fst].
    exact (setAll_flat_last _ d j k v Hj Hlast).
  - intros d j c Hj Hlast. eexists _, _. split; [apply Hcand |].
    apply (setAll_flat_last _ d j c _ (Hnum j c Hj)).
    intros j' v' Hlt Hj'.
    destruct (allCandidates lines !! j') as [c' |] eqn:Ec.
    + rewrite (Hnum j' c' Ec) in Hj'. injection Hj' as -> _.
      exact (Hlast j' Hlt Ec).
    + assert (Hlen : (length (allCandidates lines) <= j')%nat)
        by (apply lookup_ge_None; exact Ec).
      apply lookup_lt_Some in Hj'.
      assert (Hl : forall cs n, length (numberFrom n cs) = length cs).
      { intros cs. induction cs as [| x cs IHcs]; intros n; simpl;
          [reflexivity | rewrite IHcs; reflexivity]. }
      rewrite Hl in Hj'. lia.
Qed.

(** ** The theorems at concrete inputs *)

(** Goals over the six positions of a concrete set. *)
Ltac six_groups :=
  let i := fresh "i" in
  let g := fresh "g" in
  let Hi := fresh "Hi" in
  intros i g Hi;
  do 6 (destruct i as [| i]; [injection Hi as <-; reflexivity |]);
  discriminate Hi.

Lemma exA_typed : setTyped exHeap exA.
Proof. split; [reflexivity | six_groups]. Defined.

Lemma exB_typed : setTyped exHeap exB.
Proof. split; [reflexivity | six_groups]. Defined.

Lemma exA_noDuplicates :
  forall i g, exA !! i = Some g -> noDuplicates exHeap (Filters g) = true.
Proof. six_groups. Defined.

Lemma exB_NoDup : NoDup (allLocs exB).
Proof.
  change (allLocs exB) with [3%nat; 5%nat; 4%nat].
  apply NoDup_ListNoDup.
  repeat (constructor; [simpl; lia |]). constructor.
Defined.

Lemma exB_exA_disjoint : forall l, l ∈ allLocs exB -> l ∉ allLocs exA.
Proof.
  intros l Hl Hl'. apply list_elem_of_In in Hl, Hl'.
  change (allLocs exB) with [3%nat; 5%nat; 4%nat] in Hl.
  change (allLocs exA) with [1%nat; 2%nat] in Hl'.
  simpl in Hl, Hl'. lia.
Defined.

Lemma AddFilter_dedup_count_witness :
  AddFilters exHeap (emptyGroup SearchKeyCommunities) [2%nat; 6%nat; 6%nat]
  = Ok (<[2%nat := exFilter 3 "blackhole" (VCommunity [65000; 100])]> exHeap,
        {| Key := SearchKeyCommunities; Filters := [2%nat];
           filtersIdx := Some (<["65000:100" := 0%nat]> ∅) |}).
Proof.
  refine (proj1 (AddFilter_dedup_count exHeap (emptyGroup SearchKeyCommunities)
                   ∅ "65000:100" 2%nat
                   (exFilter 2 "blackhole" (VCommunity [65000; 100]))
                   [6%nat; 6%nat] eq_refl eq_refl _ eq_refl eq_refl _ _)).
  - intros l f Hin. apply elem_of_nil in Hin. contradiction.
  - repeat constructor;
      exists (exFilter 9 "other" (VCommunity [65000; 100])); split; reflexivity.
  - rewrite max_int_value. simpl. lia.
Defined.

Lemma MatchRoute_conjunction_witness :
  MatchRoute exHeap [exGroup SearchKeySources [7%nat] [("rs2", 0%nat)]] plainRoute
  = Ok false.
Proof.
  apply (proj1 (proj2 (MatchRoute_conjunction exHeap plainRoute)) _ 0%nat).
  - intros j Hj. lia.
  - exists (exGroup SearchKeySources [7%nat] [("rs2", 0%nat)]), MatchAny.
    repeat split.
Defined.

(** C7, as stated, fails on both sides: the first colon-token of [-5:1] is
    an integer and the line has two tokens, yet it is an invalid community;
    the first colon-token of [64512-65534:1] is no integer and the line has
    two tokens, yet it parses, as a range over ints. *)
Lemma parseRangeCommunity_first_token_counterexample :
  (Split "-5:1" ":" = ["-5"; "1"] /\ Atoi "-5" = Some (-5) /\
   parseRangeCommunity SpecModel.IntListFromStrings "-5:1"
   = Err "invalid community: -5:1") /\
  (Split "64512-65534:1" ":" = ["64512-65534"; "1"] /\
   Atoi "64512-65534" = None /\
   parseRangeCommunity SpecModel.IntListFromStrings "64512-65534:1"
   = Ok [RInts [64512; 65534]; RInts [1; 1]]).
Proof. repeat split. Qed.

Lemma parseRangeCommunitiesSet_classify_witness :
  parseRangeCommunitiesSet SpecModel.IntListFromStrings SpecModel.RangeType
    ("65000:100-200" +:+ String newline (nbsp +:+ String newline
       ((enQuad +:+ "RPKI:1:2" +:+ nbsp) +:+ String newline "# no")))
  = Ok {| Standard := [[RInts [65000; 65000]; RInts [100; 200]]];
          Large := [];
          Extended := [[RStrings ["RPKI"; "RPKI"]; RInts [1; 1]; RInts [2; 2]]] |} /\
  TrimSpace (enQuad +:+ "RPKI:1:2" +:+ nbsp) = "RPKI:1:2" /\
  effectiveLines (nbsp +:+ enQuad) = [].
Proof.
  destruct (parseRangeCommunitiesSet_classify
              SpecModel.IntListFromStrings SpecModel.RangeType
              (fun _ _ => eq_refl) (fun _ _ => eq_refl)
              (fun _ _ _ => eq_refl)) as (_ & _ & Hall & Htrim).
  assert (Hn : blank nbsp) by (apply blank_one, whiteSpace_test; reflexivity).
  assert (Hq : blank enQuad) by (apply blank_one, whiteSpace_test; reflexivity).
  split; [| split].
  - rewrite Hall; [reflexivity |]. intros t Ht. vm_compute in Ht.
    destruct Ht as [<- | [<- | []]]; reflexivity.
  - apply (Htrim enQuad "RPKI:1:2" nbsp Hq Hn).
    apply trimmedb_trimmed. reflexivity.
  - apply (Htrim nbsp "" enQuad Hn Hq). apply trimmedb_trimmed. reflexivity.
Defined.

(** C10, as stated, fails: the first colon-token of [65000-X:1:2] contains
    a hyphen and is no integer, yet the text before the hyphen is not a type
    tag and the text after it is read as an upper bound. *)
Lemma parseRangeCommunity_tag_hyphen_counterexample :
  Split "65000-X:1:2" ":" = ["65000-X"; "1"; "2"] /\
  Atoi "65000-X" = None /\
  cut "65000-X" "-" = Some ("65000", "X") /\
  parseRangeCommunity SpecModel.IntListFromStrings "65000-X:1:2"
  = Ok [RInts (SpecModel.IntListFromStrings ["65000"; "X"]);
        RInts [1; 1]; RInts [2; 2]] /\
  parseRangeCommunity SpecModel.IntListFromStrings "65000-X:1:2"
  <> Ok [RStrings ["65000"; "65000"]; RInts [1; 1]; RInts [2; 2]].
Proof. repeat split. discriminate. Qed.

Lemma parseRangeCommunity_tag_hyphen_witness :
  parseRangeCommunity SpecModel.IntListFromStrings "RPKI-X:1:2"
  = Ok [RStrings ["RPKI"; "RPKI"]; RInts [1; 1]; RInts [2; 2]].
Proof.
  apply (parseRangeCommunity_tag_hyphen SpecModel.IntListFromStrings
           "RPKI-X:1:2" "RPKI-X" "1" "2" "RPKI" "X"); reflexivity.
Defined.

(** The forgiving parsers on a body with a malformed line. *)
Example forgiving_parsers_example :
  let body := "65000:1 = one" +:+ String newline ("oops" +:+ String newline
              "communities = 1:2,3:4") in
  (map_to_list (fst (parseAndMergeCommunities _ SpecModel.Directory_Set ∅ body)),
   snd (parseAndMergeCommunities _ SpecModel.Directory_Set ∅ body))
  = ([("communities", "1:2,3:4"); ("65000:1", "one")],
     ["Skipping malformed BGP community: oops"]) /\
  (r ← parseRejectionCandidateCommunities _ SpecModel.Directory_Set ∅ body;
   Ok (fst r !! "1:2", fst r !! "3:4", snd r))
  = Ok (Some "reject-candidate-1", Some "reject-candidate-2",
        ["unexpected key '65000:1' in section 'rejection_candidates'";
         "Skipping malformed reject candidate BGP community: oops"]).
Proof. vm_compute. split; reflexivity. Qed.

Lemma forgiving_parsers_witness :
  let line := (nbsp +:+ "65000:1" +:+ " ") +:+ String "=" (" " +:+ "one" +:+ enQuad) in
  let body := line +:+ String newline ("oops" +:+ String newline
              "communities = 1:2,3:4") in
  entryOf line = Some ("65000:1", "one") /\
  fst (parseAndMergeCommunities _ SpecModel.Directory_Set ∅ body) !! "65000:1"
  = Some "one" /\
  (exists d' log,
      parseRejectionCandidateCommunities _ SpecModel.Directory_Set ∅ body
      = Ok (d', log) /\
      d' !! "3:4" = Some "reject-candidate-2") /\
  entryOf "oops" = None.
Proof.
  intros line body.
  pose proof (forgiving_parsers _ SpecModel.Directory_Set ∅ body) as H.
  cbv zeta in H. destruct H as (_ & _ & _ & Hlast & Hcand & Hpad & Hnone).
  assert (Hn : blank nbsp) by (apply blank_one, whiteSpace_test; reflexivity).
  assert (Hq : blank enQuad) by (apply blank_one, whiteSpace_test; reflexivity).
  assert (Hs : blank " ") by (apply blank_one, whiteSpace_test; reflexivity).
  split; [| split; [| split]].
  - apply (Hpad nbsp "65000:1" " " " " "one" enQuad Hn Hs Hs Hq);
      [apply trimmedb_trimmed; reflexivity
      |apply trimmedb_trimmed; reflexivity | reflexivity].
  - apply (Hlast ∅ 0%nat "65000:1" "one"); [reflexivity |].
    intros j' v' Hlt. destruct j' as [| [| j']]; [lia | |]; vm_compute;
      discriminate.
  - apply (Hcand ∅ 1%nat "3:4"); [reflexivity |].
    intros j' Hlt. destruct j' as [| [| j']]; [lia | lia |]. vm_compute.
    discriminate.
  - apply (Hnone "oops"). reflexivity.
Defined.

(** ** Further properties of package [api] *)

(** *** Equal on values of one kind *)

Lemma components_eqb_eq (a b : list Z) :
  length a = length b -> (components_eqb a b = true <-> a = b).
Proof.
  revert b. induction a as [| x a IH]; intros [| y b] Hlen; simpl in *;
    try discriminate Hlen.
  - split; reflexivity.
  - destruct (Z.eqb_spec x y) as [-> | Hne].
    + rewrite IH by lia. split; [intros ->; reflexivity | intros [= ->]; reflexivity].
    + split; [discriminate | intros [= Hxy _]; contradiction].
Qed.

Lemma ExtElem_eqb_eq (a b : ExtElem) : ExtElem_eqb a b = true <-> a = b.
Proof.
  destruct a as [s | z], b as [t | y]; simpl.
  - rewrite String.eqb_eq. split; [intros ->; reflexivity | intros [= ->]; reflexivity].
  - split; discriminate.
  - split; discriminate.
  - rewrite Z.eqb_eq. split; [intros ->; reflexivity | intros [= ->]; reflexivity].
Qed.

(** Two filters whose values are both ints, both strings or both
    communities are compared without panic, and [Equal] is true exactly
    when the values are the same; communities are compared element by
    element, in order. *)
Theorem Equal_decides_value (f g : SearchFilter) :
  kindOf (Value f) = kindOf (Value g) ->
  kindOf (Value f) = KInt \/ kindOf (Value f) = KString \/
  kindOf (Value f) = KCommunity ->
  exists b, Equal f g = Ok b /\ (b = true <-> Value f = Value g).
Proof.
  destruct f as [cf nf vf], g as [cg ng vg]; unfold Equal; simpl.
  intros Hk Hin.
  destruct vf as [| x | x | x | p | a | a]; simpl in Hin;
    try (exfalso; destruct Hin as [Hin | [Hin | Hin]]; discriminate Hin);
    destruct vg as [| y | y | y | q | b | b]; try discriminate Hk; simpl.
  - eexists. split; [reflexivity |]. rewrite Z.eqb_eq.
    split; [intros ->; reflexivity | intros [= ->]; reflexivity].
  - eexists. split; [reflexivity |]. rewrite String.eqb_eq.
    split; [intros ->; reflexivity | intros [= ->]; reflexivity].
  - destruct (Nat.eqb_spec (length a) (length b)) as [Hlen | Hlen]; simpl.
    + eexists. split; [reflexivity |]. rewrite (components_eqb_eq a b Hlen).
      split; [intros ->; reflexivity | intros [= ->]; reflexivity].
    + eexists. split; [reflexivity |].
      split; [discriminate | intros [= ->]; contradiction].
Qed.

Lemma Equal_decides_value_witness :
  exists b,
    Equal (filterOf (VCommunity [23; 42])) (filterOf (VCommunity [42; 23])) = Ok b /\
    (b = true <-> VCommunity [23; 42] = VCommunity [42; 23]).
Proof.
  apply (Equal_decides_value (filterOf (VCommunity [23; 42]))
           (filterOf (VCommunity [42; 23]))).
  - reflexivity.
  - right. right. reflexivity.
Defined.

(** Two extended communities are equal for [Equal] exactly when they are
    the same three elements; an extended community of another length is not
    even equal to itself. *)
Theorem Equal_ext_community (f g : SearchFilter) (a b : ExtCommunity) :
  Value f = VExtCommunity a -> Value g = VExtCommunity b ->
  exists r, Equal f g = Ok r /\ (r = true <-> a = b /\ length a = 3%nat).
Proof.
  destruct f as [cf nf vf], g as [cg ng vg]; unfold Equal; simpl.
  intros -> ->. simpl.
  destruct a as [| a0 [| a1 [| a2 [| a3 a]]]];
    try (eexists; split; [destruct b as [| ? [| ? [| ? [| ? ?]]]]; reflexivity |];
         split; [discriminate | intros [_ Hl]; discriminate Hl]).
  destruct b as [| b0 [| b1 [| b2 [| b3 b]]]];
    try (eexists; split; [reflexivity |];
         split; [discriminate | intros [Hab _]; discriminate Hab]).
  eexists. split; [reflexivity |].
  rewrite !andb_true_iff, !ExtElem_eqb_eq.
  split.
  - intros [[-> ->] ->]. split; reflexivity.
  - intros [[= -> -> ->] _]. repeat split.
Qed.

Lemma Equal_ext_community_witness :
  exists r,
    Equal (filterOf (VExtCommunity [EString "ro"; EInt 1]))
          (filterOf (VExtCommunity [EString "ro"; EInt 1])) = Ok r /\
    (r = true <->
     [EString "ro"; EInt 1] = [EString "ro"; EInt 1] /\
     length [EString "ro"; EInt 1] = 3%nat).
Proof.
  apply (Equal_ext_community (filterOf (VExtCommunity [EString "ro"; EInt 1]))
           (filterOf (VExtCommunity [EString "ro"; EInt 1]))); reflexivity.
Defined.

Lemma components_eqb_sym (a b : list Z) :
  length a = length b -> components_eqb a b = components_eqb b a.
Proof.
  revert b. induction a as [| x a IH]; intros [| y b] Hlen; simpl in *;
    try discriminate Hlen; [reflexivity |].
  rewrite (Z.eqb_sym x y). destruct (y =? x); [apply IH; lia | reflexivity].
Qed.

Lemma ExtElem_eqb_sym (a b : ExtElem) : ExtElem_eqb a b = ExtElem_eqb b a.
Proof.
  destruct a, b; simpl; try reflexivity; [apply String.eqb_sym | apply Z.eqb_sym].
Qed.

(** Whenever [f.Equal(g)] and [g.Equal(f)] both return, they return the
    same. *)
Theorem Equal_symmetric (f g : SearchFilter) (b1 b2 : bool) :
  Equal f g = Ok b1 -> Equal g f = Ok b2 -> b1 = b2.
Proof.
  destruct f as [cf nf vf], g as [cg ng vg]; unfold Equal; simpl.
  destruct vf as [| x | x | x | [p |] | a | a],
           vg as [| y | y | y | [q |] | b | b];
    simpl; try discriminate; try congruence.
  - rewrite (Z.eqb_sym x y). congruence.
  - rewrite (String.eqb_sym x y). congruence.
  - rewrite (String.eqb_sym x (pointee q)). congruence.
  - rewrite (String.eqb_sym (pointee p) y). congruence.
  - rewrite (N.eqb_sym (addr p) (addr q)). congruence.
  - rewrite (Nat.eqb_sym (length a) (length b)).
    destruct (Nat.eqb_spec (length b) (length a)) as [Hlen | Hlen]; simpl;
      [| congruence].
    rewrite (components_eqb_sym a b) by lia. congruence.
  - destruct a as [| a0 [| a1 [| a2 [| a3 a]]]],
             b as [| b0 [| b1' [| b2' [| b3 b]]]]; try congruence.
    rewrite (ExtElem_eqb_sym a0 b0), (ExtElem_eqb_sym a1 b1'),
      (ExtElem_eqb_sym a2 b2'). congruence.
Qed.

Lemma Equal_symmetric_witness :
  Equal (filterOf (VString "rs1"))
        (filterOf (VStringPtr (Some {| addr := 8; pointee := "rs1" |}))) = Ok true /\
  true = true.
Proof.
  split; [reflexivity |].
  apply (Equal_symmetric (filterOf (VString "rs1"))
           (filterOf (VStringPtr (Some {| addr := 8; pointee := "rs1" |}))));
    reflexivity.
Defined.

(** *** FindFilter returns the first equal filter *)

Lemma FindFilter_cons (h : heap) (x : loc) (fs : list loc) (l : loc) :
  FindFilter h (x :: fs) l
  = same ← equalAt h x l; if (same : bool) then Ok (Some x) else FindFilter h fs l.
Proof. reflexivity. Qed.

(** [FindFilter] returns a filter exactly when it is the first one of the
    list equal to the argument, all comparisons before it having returned
    false; it returns nil exactly when every comparison returned false, so
    on an empty list for any argument, the nil pointer included.  A
    comparison is [Equal] on the two filters; it reads the argument first:
    with an argument whose value has no comparator it returns false for
    every element, a nil pointer included, and with a nil argument it
    panics, so [FindFilter] panics on any list that is not empty. *)
Theorem FindFilter_first (h : heap) (fs : list loc) (l : loc) :
  (forall x,
      FindFilter h fs l = Ok (Some x) <->
      exists pre post,
        fs = pre ++ x :: post /\
        Forall (fun y => equalAt h y l = Ok false) pre /\
        equalAt h x l = Ok true) /\
  (FindFilter h fs l = Ok None <->
   Forall (fun y => equalAt h y l = Ok false) fs) /\
  (forall y fy fl,
      h !! y = Some fy -> h !! l = Some fl -> equalAt h y l = Equal fy fl) /\
  (forall y fl,
      h !! l = Some fl -> selectCmp (Value fl) = None ->
      equalAt h y l = Ok false) /\
  (h !! l = None -> fs <> [] -> FindFilter h fs l = Panic).
Proof.
  cut ((forall x,
           FindFilter h fs l = Ok (Some x) <->
           exists pre post,
             fs = pre ++ x :: post /\
             Forall (fun y => equalAt h y l = Ok false) pre /\
             equalAt h x l = Ok true) /\
       (FindFilter h fs l = Ok None <->
        Forall (fun y => equalAt h y l = Ok false) fs)).
  { intros [H1 H2]. split; [exact H1 | split; [exact H2 | split; [| split]]].
    - intros y fy fl Hy Hl. unfold equalAt, deref, Equal. rewrite Hl, Hy.
      simpl. destruct (selectCmp (Value fl)); reflexivity.
    - intros y fl Hl Hcmp. unfold equalAt, deref. rewrite Hl. simpl.
      rewrite Hcmp. reflexivity.
    - intros Hl Hne. destruct fs as [| y rest]; [congruence |].
      cbn [FindFilter]. unfold equalAt, deref. rewrite Hl. reflexivity. }
  induction fs as [| y fs [IHsome IHnone]].
  - split.
    + intros x. split; [discriminate |].
      intros (pre & post & Hfs & _). destruct pre; discriminate Hfs.
    + split; [constructor | reflexivity].
  - split.
    + intros x. rewrite FindFilter_cons. split.
      * destruct (equalAt h y l) as [[|] | |] eqn:Ey; simpl; try discriminate.
        -- intros [= <-]. exists [], fs. repeat split; [constructor | exact Ey].
        -- intros Hx. apply IHsome in Hx as (pre & post & -> & Hpre & Hx).
           exists (y :: pre), post. repeat split; [constructor; assumption | exact Hx].
      * intros (pre & post & Hfs & Hpre & Hx).
        destruct pre as [| z pre]; simpl in Hfs; injection Hfs as -> ->.
        -- rewrite Hx. reflexivity.
        -- apply Forall_cons in Hpre as [Hz Hpre]. rewrite Hz. simpl.
           apply IHsome. exists pre, post. repeat split; assumption.
    + rewrite FindFilter_cons. split.
      * destruct (equalAt h y l) as [[|] | |] eqn:Ey; simpl; try discriminate.
        intros Hn. constructor; [exact Ey | apply IHnone; exact Hn].
      * intros Hall. apply Forall_cons in Hall as [Hy Hall]. rewrite Hy. simpl.
        apply IHnone. exact Hall.
Qed.

(** A list with a nil pointer, and an argument of a kind without
    comparator: nothing is found, and nothing is dereferenced. *)
Lemma FindFilter_first_witness :
  let h := <[8%nat := exFilter 0 "" (VUint8 4)]> exHeap in
  h !! 9%nat = None /\
  FindFilter h [9%nat; 1%nat] 8%nat = Ok None /\
  FindFilter h [9%nat] 9%nat = Panic.
Proof.
  intros h. split; [reflexivity |].
  destruct (FindFilter_first h [9%nat; 1%nat] 8%nat)
    as (_ & Hnone & _ & Hkind & _).
  destruct (FindFilter_first h [9%nat] 9%nat) as (_ & _ & _ & _ & Hnil).
  split.
  - apply Hnone.
    repeat (constructor;
            [apply (Hkind _ (exFilter 0 "" (VUint8 4))); reflexivity |]).
    constructor.
  - apply Hnil; [reflexivity | discriminate].
Defined.

(** *** The index of a group *)

Lemma indexed_sameValues (h h' : heap) (g : SearchFilterGroup) :
  sameValues h h' -> indexed h g -> indexed h' g.
Proof.
  intros Hs (m & Hm & Hinv). exists m. split; [exact Hm |].
  intros ref i. rewrite Hinv. split.
  - intros (l & f & Hl & Hf & Hr).
    destruct (sameValues_lookup h h' l f Hs Hf) as (f' & Hf' & Hv).
    exists l, f'. rewrite Hv. repeat split; assumption.
  - intros (l & f' & Hl & Hf' & Hr).
    destruct (h !! l) as [f |] eqn:Hf.
    + destruct (sameValues_lookup h h' l f Hs Hf) as (f2 & Hf2 & Hv).
      rewrite Hf' in Hf2. injection Hf2 as <-.
      exists l, f. rewrite <- Hv. repeat split; assumption.
    + rewrite (sameValues_None h h' l Hs Hf) in Hf'. discriminate Hf'.
Qed.

Lemma sameValues_setCardinality (h : heap) (l : loc) (f : SearchFilter) (c : Z) :
  h !! l = Some f -> sameValues h (<[l := setCardinality c f]> h).
Proof.
  intros Hf x. destruct (decide (l = x)) as [<- | Hne].
  - rewrite lookup_insert_eq, Hf. reflexivity.
  - rewrite lookup_insert_ne by exact Hne. reflexivity.
Qed.

Lemma emptyGroup_indexed (h : heap) (key : string) : indexed h (emptyGroup key).
Proof.
  exists ∅. split; [reflexivity |]. intros ref i. split.
  - intros Hm. rewrite lookup_empty in Hm. discriminate Hm.
  - intros (l & f & Hl & _). discriminate Hl.
Qed.

(** The two outcomes of [AddFilter] on a group with a faithful index. *)
Lemma AddFilter_indexed_cases (h : heap) (g : SearchFilterGroup) (filter : loc)
  (f : SearchFilter) (ref : string) (m : gmap string nat) :
  filtersIdx g = Some m ->
  (forall ref i,
      m !! ref = Some i <->
      exists l f, Filters g !! i = Some l /\ h !! l = Some f /\
                  filterValueAsString (Value f) = Ok ref) ->
  h !! filter = Some f -> filterValueAsString (Value f) = Ok ref ->
  (exists i l0 pf,
      m !! ref = Some i /\ Filters g !! i = Some l0 /\ h !! l0 = Some pf /\
      filterValueAsString (Value pf) = Ok ref /\
      AddFilter h g filter
      = Ok (<[l0 := setCardinality (wrap_int (Cardinality pf + 1)) pf]> h, g)) \/
  (m !! ref = None /\ (filter ∉ Filters g) /\
   AddFilter h g filter
   = Ok (<[filter := setCardinality 1 f]> h,
         {| Key := Key g; Filters := Filters g ++ [filter];
            filtersIdx := Some (<[ref := length (Filters g)]> m) |})).
Proof.
  intros Hm Hinv Hf Hr.
  destruct (m !! ref) as [i |] eqn:Hi.
  - left. pose proof (proj1 (Hinv ref i) Hi) as (l0 & pf & Hl0 & Hpf & Hrpf).
    exists i, l0, pf. repeat split; try assumption.
    apply (AddFilter_present h g filter l0 m ref i pf Hm Hi Hl0 Hpf).
    exists f. split; assumption.
  - right. split; [reflexivity | split].
    + intros Hin. apply list_elem_of_lookup in Hin as [i Hin].
      assert (Hsome : m !! ref = Some i)
        by (apply Hinv; exists filter, f; repeat split; assumption).
      rewrite Hi in Hsome. discriminate Hsome.
    + apply (AddFilter_absent h g filter m ref f Hm Hi Hf Hr).
Qed.

(** One step of [AddFilter] on a group with a faithful index. *)
Lemma AddFilter_indexed_step (h : heap) (g : SearchFilterGroup) (filter : loc)
  (f : SearchFilter) (ref : string) :
  indexed h g ->
  h !! filter = Some f -> filterValueAsString (Value f) = Ok ref ->
  exists h' g',
    AddFilter h g filter = Ok (h', g') /\
    indexed h' g' /\ sameValues h h' /\ Key g' = Key g.
Proof.
  intros Hidx Hf Hr. pose proof Hidx as (m & Hm & Hinv).
  destruct (AddFilter_indexed_cases h g filter f ref m Hm Hinv Hf Hr)
    as [(i & l0 & pf & Hi & Hl0 & Hpf & Hrpf & Hadd) | (Hi & Hnin & Hadd)].
  - eexists _, g. split; [exact Hadd |].
    pose proof (sameValues_setCardinality h l0 pf
                  (wrap_int (Cardinality pf + 1)) Hpf) as Hs.
    split; [exact (indexed_sameValues _ _ g Hs Hidx) | split; [exact Hs | reflexivity]].
  - eexists _, _. split; [exact Hadd |].
    pose proof (sameValues_setCardinality h filter f 1 Hf) as Hs.
    split; [| split; [exact Hs | reflexivity]].
    exists (<[ref := length (Filters g)]> m). split; [reflexivity |].
    intros ref' i. simpl. split.
    + intros Hlook. destruct (decide (ref = ref')) as [<- | Hne].
      * rewrite lookup_insert_eq in Hlook. injection Hlook as <-.
        exists filter, (setCardinality 1 f).
        rewrite list_lookup_middle by reflexivity.
        rewrite lookup_insert_eq. repeat split. exact Hr.
      * rewrite lookup_insert_ne in Hlook by exact Hne.
        apply Hinv in Hlook as (l & f0 & Hl & Hf0 & Hr0).
        exists l, f0. rewrite lookup_app_l by (apply lookup_lt_Some in Hl; exact Hl).
        rewrite lookup_insert_ne; [repeat split; assumption |].
        intros <-. apply Hnin. eapply list_elem_of_lookup_2. exact Hl.
    + intros (l & f' & Hl & Hf' & Hr').
      destruct (decide (i < length (Filters g))%nat) as [Hlt | Hge].
      * rewrite lookup_app_l in Hl by exact Hlt.
        assert (Hne : filter <> l).
        { intros <-. apply Hnin. eapply list_elem_of_lookup_2. exact Hl. }
        rewrite lookup_insert_ne in Hf' by exact Hne.
        assert (Hold : m !! ref' = Some i)
          by (apply Hinv; exists l, f'; repeat split; assumption).
        rewrite lookup_insert_ne; [exact Hold |].
        intros <-. rewrite Hi in Hold. discriminate Hold.
      * rewrite lookup_app_r in Hl by lia.
        destruct (i - length (Filters g))%nat as [| k] eqn:Ek; simpl in Hl;
          [| discriminate Hl].
        injection Hl as <-. rewrite lookup_insert_eq in Hf'.
        injection Hf' as <-. simpl in Hr'. rewrite Hr in Hr'.
        injection Hr' as <-.
        replace i with (length (Filters g)) by lia. apply lookup_insert_eq.
Qed.

(** [AddFilter] keeps the index faithful: on a group whose index is the
    inverse of the positions of its filters, adding an allocated filter that
    has a canonical string returns, changes no filter value and key, and
    leaves the index the inverse of the positions again.  The empty groups of
    [NewSearchFilters] have such an index. *)
Theorem AddFilter_keeps_index (h : heap) (g : SearchFilterGroup) (filter : loc)
  (f : SearchFilter) (ref : string) :
  indexed h g ->
  h !! filter = Some f -> filterValueAsString (Value f) = Ok ref ->
  exists h' g',
    AddFilter h g filter = Ok (h', g') /\
    indexed h' g' /\ sameValues h h' /\ Key g' = Key g.
Proof. exact (AddFilter_indexed_step h g filter f ref). Qed.

Lemma AddFilter_keeps_index_witness :
  exists h' g',
    AddFilter exHeap (emptyGroup SearchKeyCommunities) 2%nat = Ok (h', g') /\
    indexed h' g' /\ sameValues exHeap h' /\
    Key g' = Key (emptyGroup SearchKeyCommunities).
Proof.
  apply (AddFilter_keeps_index exHeap (emptyGroup SearchKeyCommunities) 2%nat
           (exFilter 2 "blackhole" (VCommunity [65000; 100])) "65000:100").
  - apply emptyGroup_indexed.
  - reflexivity.
  - reflexivity.
Defined.

(** With a faithful index [GetFilterByValue] does not panic: it returns a
    filter of the group that has the canonical string of the value, or nil
    when no filter of the group has it. *)
Theorem GetFilterByValue_indexed (h : heap) (g : SearchFilterGroup)
  (value : FilterValue) (ref : string) :
  indexed h g -> filterValueAsString value = Ok ref ->
  (exists l, GetFilterByValue g value = Ok (Some l) /\
             l ∈ Filters g /\ hasRef h ref l) \/
  (GetFilterByValue g value = Ok None /\ lacksRef h ref (Filters g)).
Proof.
  intros (m & Hm & Hinv) Hr. unfold GetFilterByValue. rewrite Hr, Hm. simpl.
  destruct (m !! ref) as [i |] eqn:Hi.
  - left. pose proof (proj1 (Hinv ref i) Hi) as (l & f & Hl & Hf & Hrf).
    exists l. rewrite Hl. split; [reflexivity | split].
    + eapply list_elem_of_lookup_2. exact Hl.
    + exists f. split; assumption.
  - right. split; [reflexivity |].
    intros l f Hin Hf Hrf. apply list_elem_of_lookup in Hin as [i Hl].
    assert (Hsome : m !! ref = Some i)
      by (apply Hinv; exists l, f; repeat split; assumption).
    rewrite Hi in Hsome. discriminate Hsome.
Qed.

Lemma exASNS_indexed :
  indexed exHeap (exGroup SearchKeyASNS [1%nat] [("64512", 0%nat)]).
Proof.
  exists (<["64512" := 0%nat]> ∅). split; [reflexivity |].
  intros ref i. split.
  - intros Hm. destruct (decide (ref = "64512")) as [-> | Hne].
    + rewrite lookup_insert_eq in Hm. injection Hm as <-.
      exists 1%nat, (exFilter 4 "AS64512" (VInt 64512)). repeat split.
    + rewrite lookup_insert_ne, lookup_empty in Hm by congruence.
      discriminate Hm.
  - intros (l & f & Hl & Hf & Hr).
    destruct i as [| i]; [| discriminate Hl].
    injection Hl as <-.
    change (Some (exFilter 4 "AS64512" (VInt 64512)) = Some f) in Hf.
    injection Hf as <-.
    change (Ok "64512" = Ok ref) in Hr. injection Hr as <-.
    apply lookup_insert_eq.
Defined.

(** A group with one filter: the filter is found through the index; and
    a value the group has no filter for gives nil. *)
Lemma GetFilterByValue_indexed_witness :
  let g := exGroup SearchKeyASNS [1%nat] [("64512", 0%nat)] in
  (exists l, GetFilterByValue g (VInt 64512) = Ok (Some l) /\
             l ∈ Filters g /\ hasRef exHeap "64512" l) /\
  GetFilterByValue g (VInt 64512) = Ok (Some 1%nat) /\
  (GetFilterByValue g (VInt 64513) = Ok None /\
   lacksRef exHeap "64513" (Filters g)).
Proof.
  intros g. split; [| split].
  - destruct (GetFilterByValue_indexed exHeap g (VInt 64512) "64512"
                exASNS_indexed eq_refl) as [Hfound | [Hnone _]].
    + exact Hfound.
    + discriminate Hnone.
  - reflexivity.
  - destruct (GetFilterByValue_indexed exHeap g (VInt 64513) "64513"
                exASNS_indexed eq_refl) as [(l & Hfound & _) | Hnone].
    + discriminate Hfound.
    + exact Hnone.
Defined.

(** *** Counting with AddFilter *)

Lemma countOf_eq (h : heap) (g : SearchFilterGroup) (m : gmap string nat)
  (ref : string) :
  filtersIdx g = Some m ->
  countOf h g ref
  = match m !! ref with
    | Some i =>
        match Filters g !! i with
        | Some l => match h !! l with Some f => Cardinality f | None => 0 end
        | None => 0
        end
    | None => 0
    end.
Proof.
  intros Hm. unfold countOf. rewrite Hm. simpl.
  destruct (m !! ref) as [i |]; [| reflexivity].
  destruct (Filters g !! i) as [l |]; reflexivity.
Qed.

Lemma hasRefb_true (h : heap) (ref : string) (l : loc) (f : SearchFilter) :
  h !! l = Some f -> filterValueAsString (Value f) = Ok ref ->
  forall ref', hasRefb h ref' l = String.eqb ref ref'.
Proof. intros Hf Hr ref'. unfold hasRefb. rewrite Hf, Hr. reflexivity. Qed.

Lemma hasRefb_sameValues (h h' : heap) (ref : string) (l : loc) :
  sameValues h h' -> hasRefb h' ref l = hasRefb h ref l.
Proof.
  intros Hs. unfold hasRefb. destruct (h !! l) as [f |] eqn:Hf.
  - destruct (sameValues_lookup h h' l f Hs Hf) as (f' & -> & ->). reflexivity.
  - rewrite (sameValues_None h h' l Hs Hf). reflexivity.
Qed.

Lemma refCount_sameValues (h h' : heap) (ref : string) (ls : list loc) :
  sameValues h h' -> refCount h' ref ls = refCount h ref ls.
Proof.
  intros Hs. unfold refCount. do 2 f_equal.
  induction ls as [| l ls IH]; simpl; [reflexivity |].
  rewrite (hasRefb_sameValues h h' ref l Hs), IH. reflexivity.
Qed.

Lemma addable_sameValues (h h' : heap) (l : loc) :
  sameValues h h' -> addable h l -> addable h' l.
Proof.
  intros Hs (f & ref & Hf & Hr).
  destruct (sameValues_lookup h h' l f Hs Hf) as (f' & Hf' & Hv).
  exists f', ref. rewrite Hv. split; assumption.
Qed.

Lemma sameValues_trans (h1 h2 h3 : heap) :
  sameValues h1 h2 -> sameValues h2 h3 -> sameValues h1 h3.
Proof. intros H12 H23 l. rewrite H23, H12. reflexivity. Qed.

(** One [AddFilter] on a group with a faithful index adds one to the count
    of the canonical string of its argument and leaves every other count. *)
Lemma AddFilter_count_step (h : heap) (g : SearchFilterGroup) (filter : loc)
  (f : SearchFilter) (ref : string) :
  indexed h g ->
  h !! filter = Some f -> filterValueAsString (Value f) = Ok ref ->
  min_int <= countOf h g ref + 1 <= max_int ->
  exists h' g',
    AddFilter h g filter = Ok (h', g') /\
    forall ref',
      countOf h' g' ref'
      = countOf h g ref' + (if String.eqb ref ref' then 1 else 0).
Proof.
  intros (m & Hm & Hinv) Hf Hr Hrange.
  rewrite (countOf_eq h g m ref Hm) in Hrange.
  destruct (AddFilter_indexed_cases h g filter f ref m Hm Hinv Hf Hr)
    as [(i & l0 & pf & Hi & Hl0 & Hpf & Hrpf & Hadd) | (Hi & Hnin & Hadd)].
  - eexists _, g. split; [exact Hadd |]. intros ref'.
    rewrite Hi, Hl0, Hpf in Hrange.
    rewrite !(countOf_eq _ g m ref' Hm).
    destruct (String.eqb_spec ref ref') as [<- | Hne].
    + rewrite Hi, Hl0, Hpf, lookup_insert_eq. simpl.
      apply wrap_int_id. exact Hrange.
    + rewrite Z.add_0_r. destruct (m !! ref') as [i' |] eqn:Hi'; [| reflexivity].
      pose proof (proj1 (Hinv ref' i') Hi') as (l & f0 & Hl & Hf0 & Hr0).
      rewrite Hl, Hf0, lookup_insert_ne; [rewrite Hf0; reflexivity |].
      intros <-. rewrite Hpf in Hf0. injection Hf0 as <-.
      rewrite Hrpf in Hr0. injection Hr0 as Hr0. contradiction.
  - eexists _, _. split; [exact Hadd |]. intros ref'.
    rewrite (countOf_eq _ {| Key := Key g; Filters := Filters g ++ [filter];
                             filtersIdx := Some (<[ref := length (Filters g)]> m) |}
               (<[ref := length (Filters g)]> m) ref' eq_refl).
    rewrite (countOf_eq h g m ref' Hm). simpl.
    destruct (String.eqb_spec ref ref') as [<- | Hne].
    + rewrite lookup_insert_eq, Hi, list_lookup_middle by reflexivity.
      rewrite lookup_insert_eq. reflexivity.
    + rewrite lookup_insert_ne by exact Hne. rewrite Z.add_0_r.
      destruct (m !! ref') as [i' |] eqn:Hi'; [| reflexivity].
      pose proof (proj1 (Hinv ref' i') Hi') as (l & f0 & Hl & Hf0 & Hr0).
      rewrite lookup_app_l by (apply lookup_lt_Some in Hl; exact Hl).
      rewrite Hl, Hf0, lookup_insert_ne; [rewrite Hf0; reflexivity |].
      intros <-. apply Hnin. eapply list_elem_of_lookup_2. exact Hl.
Qed.

(** Facet counts: on a group with a faithful index, [AddFilters] returns,
    keeps the index faithful, and the count of every canonical string grows
    by the number of added filters that have it, as long as no count
    leaves the range of [int]. *)
Theorem AddFilters_counts (ls : list loc) :
  forall (h : heap) (g : SearchFilterGroup),
    indexed h g ->
    Forall (addable h) ls ->
    (forall ref, 0 <= countOf h g ref /\
                 countOf h g ref + Z.of_nat (length ls) <= max_int) ->
    exists h' g',
      AddFilters h g ls = Ok (h', g') /\
      indexed h' g' /\ sameValues h h' /\
      forall ref, countOf h' g' ref = countOf h g ref + refCount h ref ls.
Proof.
  induction ls as [| l ls IH]; intros h g Hidx Hall Hbound.
  - exists h, g. repeat split; try assumption; try reflexivity.
    intros ref. unfold refCount. simpl. lia.
  - apply Forall_cons in Hall as [(f & ref & Hf & Hr) Hall].
    assert (Hrange : min_int <= countOf h g ref + 1 <= max_int).
    { destruct (Hbound ref) as [H0 Hmax]. simpl length in Hmax.
      rewrite min_int_value. lia. }
    destruct (AddFilter_count_step h g l f ref Hidx Hf Hr Hrange)
      as (h1 & g1 & Hadd & Hcount).
    destruct (AddFilter_indexed_step h g l f ref Hidx Hf Hr)
      as (h1' & g1' & Hadd' & Hidx1 & Hs1 & _).
    rewrite Hadd in Hadd'. injection Hadd' as <- <-.
    destruct (IH h1 g1 Hidx1) as (h2 & g2 & Hadds & Hidx2 & Hs2 & Hcount2).
    { eapply Forall_impl; [exact Hall |].
      intros x Hx. exact (addable_sameValues h h1 x Hs1 Hx). }
    { intros r. rewrite Hcount. destruct (Hbound r) as [H0 Hmax].
      simpl length in Hmax. destruct (String.eqb ref r); lia. }
    exists h2, g2. split; [| split; [exact Hidx2 | split]].
    + cbn [AddFilters]. rewrite Hadd. cbn [mbind result_bind]. exact Hadds.
    + exact (sameValues_trans h h1 h2 Hs1 Hs2).
    + intros r. rewrite Hcount2, Hcount, (refCount_sameValues h h1 r ls Hs1).
      unfold refCount. cbn [List.filter].
      rewrite (hasRefb_true h ref l f Hf Hr r).
      destruct (String.eqb ref r); simpl length; lia.
Qed.

Lemma AddFilters_counts_witness :
  exists h' g',
    AddFilters exHeap (emptyGroup SearchKeyCommunities)
      [2%nat; 4%nat; 6%nat] = Ok (h', g') /\
    indexed h' g' /\ sameValues exHeap h' /\
    forall ref,
      countOf h' g' ref
      = countOf exHeap (emptyGroup SearchKeyCommunities) ref
        + refCount exHeap ref [2%nat; 4%nat; 6%nat].
Proof.
  apply (AddFilters_counts [2%nat; 4%nat; 6%nat] exHeap
           (emptyGroup SearchKeyCommunities)).
  - apply emptyGroup_indexed.
  - repeat constructor; eexists _, _; split; reflexivity.
  - intros ref. rewrite max_int_value. vm_compute. split; discriminate.
Defined.

Example AddFilters_counts_example :
  ('(h', g') ← AddFilters exHeap (emptyGroup SearchKeyCommunities)
                 [2%nat; 4%nat; 6%nat];
   Ok (countOf h' g' "65000:100", countOf h' g' "65000:200",
       countOf h' g' "65000:300", Filters g'))
  = Ok (2, 1, 0, [2%nat; 4%nat]).
Proof. vm_compute. reflexivity. Qed.

(** *** rebuildIndex: the last position wins *)

Lemma rebuildIndex_from_last (h : heap) (fs : list loc) :
  forall (k : nat) (idx idx' : gmap string nat),
    rebuildIndex_from h k fs idx = Ok idx' ->
    forall ref i,
      idx' !! ref = Some i <->
      (exists j, i = (k + j)%nat /\ (exists l, fs !! j = Some l /\ hasRef h ref l) /\
                 lacksRef h ref (drop (S j) fs)) \/
      (idx !! ref = Some i /\ lacksRef h ref fs).
Proof.
  induction fs as [| l fs IH]; intros k idx idx' Hre ref i.
  - injection Hre as <-. split.
    + intros Hi. right. split; [exact Hi |].
      intros x f Hin. apply elem_of_nil in Hin. contradiction.
    + intros [(j & _ & (x & Hx & _) & _) | [Hi _]]; [discriminate Hx | exact Hi].
  - cbn [rebuildIndex_from] in Hre. unfold deref in Hre.
    destruct (h !! l) as [f |] eqn:Hf; [| discriminate Hre]. simpl in Hre.
    destruct (filterValueAsString (Value f)) as [r0 | |] eqn:Hr0;
      try discriminate Hre. simpl in Hre.
    rewrite (IH (S k) _ idx' Hre ref i). split.
    + intros [(j & -> & (x & Hx & Hxr) & Hlast) | [Hi Hlack]].
      * left. exists (S j). split; [lia |]. split; [exists x; split; assumption |].
        exact Hlast.
      * destruct (decide (r0 = ref)) as [-> | Hne].
        -- rewrite lookup_insert_eq in Hi. injection Hi as <-.
           left. exists 0%nat. split; [lia |]. split.
           ++ exists l. split; [reflexivity | exists f; split; assumption].
           ++ exact Hlack.
        -- rewrite lookup_insert_ne in Hi by exact Hne.
           right. split; [exact Hi |].
           intros x fx Hin Hfx Hrx. apply elem_of_cons in Hin as [-> | Hin].
           ++ rewrite Hf in Hfx. injection Hfx as <-. rewrite Hr0 in Hrx.
              injection Hrx as Hrx. contradiction.
           ++ exact (Hlack x fx Hin Hfx Hrx).
    + intros [(j & -> & (x & Hx & Hxr) & Hlast) | [Hi Hlack]].
      * destruct j as [| j].
        -- injection Hx as <-. destruct Hxr as (f' & Hf' & Hr').
           rewrite Hf in Hf'. injection Hf' as <-. rewrite Hr0 in Hr'.
           injection Hr' as ->.
           right. split; [rewrite lookup_insert_eq; f_equal; lia | exact Hlast].
        -- left. exists j. split; [lia |]. split; [exists x; split; assumption |].
           exact Hlast.
      * assert (Hne : r0 <> ref).
        { intros ->. exact (Hlack l f (list_elem_of_here l fs) Hf Hr0). }
        right. split; [rewrite lookup_insert_ne by exact Hne; exact Hi |].
        intros x fx Hin. apply Hlack. right. exact Hin.
Qed.

(** [rebuildIndex] maps a canonical string to the last position whose
    filter has it: when it returns, the group keeps its key and filters, and
    the new index has [i] for [ref] exactly when the filter at [i] has the
    canonical string [ref] and no later filter has. *)
Theorem rebuildIndex_last_wins (h : heap) (g g' : SearchFilterGroup) :
  rebuildIndex h g = Ok g' ->
  Key g' = Key g /\ Filters g' = Filters g /\
  exists m,
    filtersIdx g' = Some m /\
    forall ref i,
      m !! ref = Some i <->
      (exists l, Filters g !! i = Some l /\ hasRef h ref l) /\
      lacksRef h ref (drop (S i) (Filters g)).
Proof.
  unfold rebuildIndex. intros Hre.
  destruct (rebuildIndex_from h 0 (Filters g) ∅) as [m | |] eqn:Hm;
    try discriminate Hre.
  injection Hre as <-. simpl. repeat split. exists m. split; [reflexivity |].
  intros ref i. rewrite (rebuildIndex_from_last h (Filters g) 0 ∅ m Hm ref i).
  split.
  - intros [(j & -> & Hj & Hlast) | [Hi _]].
    + split; assumption.
    + rewrite lookup_empty in Hi. discriminate Hi.
  - intros [Hi Hlast]. left. exists i. repeat split; assumption.
Qed.

Lemma rebuildIndex_last_wins_witness :
  Key (exGroup SearchKeyCommunities [2%nat; 4%nat; 6%nat] []) = SearchKeyCommunities /\
  exists g', rebuildIndex exHeap {| Key := SearchKeyCommunities;
                                    Filters := [2%nat; 4%nat; 6%nat];
                                    filtersIdx := None |} = Ok g' /\
             Filters g' = [2%nat; 4%nat; 6%nat].
Proof.
  split; [reflexivity |].
  destruct (rebuildIndex exHeap {| Key := SearchKeyCommunities;
                                   Filters := [2%nat; 4%nat; 6%nat];
                                   filtersIdx := None |}) as [g' | |] eqn:E;
    try discriminate E.
  exists g'. split; [reflexivity |].
  exact (proj1 (proj2 (rebuildIndex_last_wins exHeap _ g' E))).
Defined.

Example rebuildIndex_example :
  (g' ← rebuildIndex exHeap {| Key := SearchKeyCommunities;
                               Filters := [2%nat; 4%nat; 6%nat];
                               filtersIdx := None |};
   Ok (filtersIdx g' ≫= (.!! "65000:100"), filtersIdx g' ≫= (.!! "65000:200")))
  = Ok (Some 2%nat, Some 1%nat).
Proof. vm_compute. reflexivity. Qed.

(** *** Matching *)

Lemma allFilters_anyFilter (h : heap) (cmp : SearchFilterComparator)
  (r : Filterable) (fs : list loc) :
  fs <> [] -> allFilters h cmp r fs = Ok true -> anyFilter h cmp r fs = Ok true.
Proof.
  destruct fs as [| l fs]; [contradiction |]. intros _. simpl.
  destruct (deref h l) as [f | |]; simpl; try discriminate.
  destruct (cmp r (Value f)); simpl; [reflexivity | discriminate].
Qed.

(** A route that matches all filters of a group matches any of them: when
    [MatchAll] returns true, so does [MatchAny]. *)
Theorem MatchAll_implies_MatchAny (h : heap) (g : SearchFilterGroup)
  (r : Filterable) :
  MatchAll h g r = Ok true -> MatchAny h g r = Ok true.
Proof.
  unfold MatchAll, MatchAny.
  destruct (Nat.eqb_spec (length (Filters g)) 0) as [_ | Hne]; [reflexivity |].
  destruct (selectCmpFuncByKey (Key g)) as [cmp |]; [| discriminate].
  apply allFilters_anyFilter. intros E. rewrite E in Hne. apply Hne. reflexivity.
Qed.

Lemma MatchAll_implies_MatchAny_witness :
  MatchAny exHeap (exGroup SearchKeyASNS [1%nat] [("64512", 0%nat)]) plainRoute
  = Ok true.
Proof.
  apply (MatchAll_implies_MatchAny exHeap
           (exGroup SearchKeyASNS [1%nat] [("64512", 0%nat)]) plainRoute).
  reflexivity.
Defined.

Lemma matcher_wrong_kind (key : string) (k : Kind) :
  matcherKind key = Some k ->
  exists cmp,
    selectCmpFuncByKey key = Some cmp /\
    forall r v, kindOf v <> k -> cmp r v = false.
Proof.
  unfold matcherKind, selectCmpFuncByKey.
  destruct (String.eqb key SearchKeySources);
    [| destruct (String.eqb key SearchKeyASNS);
       [| destruct (String.eqb key SearchKeyCommunities);
          [| destruct (String.eqb key SearchKeyExtCommunities);
             [| destruct (String.eqb key SearchKeyLargeCommunities);
                [| destruct (String.eqb key SearchKeyAddrFamily);
                   [| discriminate]]]]]];
    intros [= <-]; eexists; (split; [reflexivity |]);
    intros r v Hk; destruct v; simpl in *; try reflexivity; contradiction.
Qed.

Lemma anyFilter_wrong_kind (h : heap) (cmp : SearchFilterComparator)
  (r : Filterable) (k : Kind) (fs : list loc) :
  (forall v, kindOf v <> k -> cmp r v = false) ->
  Forall (fun l => exists f, h !! l = Some f /\ kindOf (Value f) <> k) fs ->
  anyFilter h cmp r fs = Ok false /\
  (fs <> [] -> allFilters h cmp r fs = Ok false).
Proof.
  intros Hcmp Hall. induction Hall as [| l fs (f & Hf & Hk) Hall [IHany IHall]].
  - split; [reflexivity | contradiction].
  - simpl. unfold deref. rewrite Hf. simpl. rewrite (Hcmp _ Hk). simpl.
    split; [exact IHany | reflexivity].
Qed.

(** A group matches no route through filters of the wrong kind: when all
    filters of a non-empty group have a value of another kind than the
    matcher of the group's key asserts, [MatchAny] and [MatchAll] return
    false for every route.  This is so for a sources group holding string
    pointers, the matcher of sources asserting a string. *)
Theorem Match_wrong_kind (h : heap) (g : SearchFilterGroup) (r : Filterable)
  (k : Kind) :
  matcherKind (Key g) = Some k ->
  Filters g <> [] ->
  Forall (fun l => exists f, h !! l = Some f /\ kindOf (Value f) <> k) (Filters g) ->
  MatchAny h g r = Ok false /\ MatchAll h g r = Ok false.
Proof.
  intros Hkey Hne Hall.
  destruct (matcher_wrong_kind (Key g) k Hkey) as (cmp & Hsel & Hcmp).
  unfold MatchAny, MatchAll. rewrite Hsel.
  destruct (Nat.eqb_spec (length (Filters g)) 0) as [Hlen | _].
  - destruct (Filters g); [contradiction | discriminate Hlen].
  - destruct (anyFilter_wrong_kind h cmp r k (Filters g) (Hcmp r) Hall)
      as [Hany Hallf].
    split; [exact Hany | exact (Hallf Hne)].
Qed.

Lemma Match_wrong_kind_witness :
  MatchAny (<[9%nat := exFilter 3 "rs1"
                (VStringPtr (Some {| addr := 8; pointee := "rs1" |}))]> exHeap)
    (exGroup SearchKeySources [9%nat] [("rs1", 0%nat)]) plainRoute = Ok false.
Proof.
  apply (Match_wrong_kind _ (exGroup SearchKeySources [9%nat] [("rs1", 0%nat)])
           plainRoute KString).
  - reflexivity.
  - discriminate.
  - repeat constructor. eexists. split; [reflexivity | discriminate].
Defined.

(** *** The six groups and their keys *)

(** On a new filter set [GetGroupByKey] never panics: each of the six keys
    finds the empty group that carries this key, and the key has a matcher;
    every other key finds nil and has no matcher. *)
Theorem NewSearchFilters_keys (key : string) :
  match GetGroupByKey NewSearchFilters key with
  | Ok (Some g) => g = emptyGroup key /\ is_Some (selectCmpFuncByKey key)
  | Ok None => selectCmpFuncByKey key = None
  | _ => False
  end.
Proof.
  unfold GetGroupByKey, groupPosition, selectCmpFuncByKey.
  destruct (String.eqb_spec key SearchKeySources) as [-> | _];
    [split; [reflexivity | eexists; reflexivity] |].
  destruct (String.eqb_spec key SearchKeyASNS) as [-> | _];
    [split; [reflexivity | eexists; reflexivity] |].
  destruct (String.eqb_spec key SearchKeyCommunities) as [-> | _];
    [split; [reflexivity | eexists; reflexivity] |].
  destruct (String.eqb_spec key SearchKeyExtCommunities) as [-> | _];
    [split; [reflexivity | eexists; reflexivity] |].
  destruct (String.eqb_spec key SearchKeyLargeCommunities) as [-> | _];
    [split; [reflexivity | eexists; reflexivity] |].
  destruct (String.eqb_spec key SearchKeyAddrFamily) as [-> | _];
    [split; [reflexivity | eexists; reflexivity] |].
  reflexivity.
Qed.

(** [HasGroup] tells whether the group of one of the six keys has filters;
    for any other key it panics, the group being nil, and so it does when
    the set is too short for the key. *)
Theorem HasGroup_unknown_key_panics (s : SearchFilters) (key : string) :
  match groupPosition key with
  | None => HasGroup s key = Panic
  | Some i =>
      match s !! i with
      | Some g => HasGroup s key = Ok (negb (length (Filters g) =? 0)%nat)
      | None => HasGroup s key = Panic
      end
  end.
Proof.
  unfold HasGroup, groupByKey, GetGroupByKey.
  destruct (groupPosition key) as [i |]; [| reflexivity].
  destruct (s !! i) as [g |]; [| reflexivity].
  simpl. destruct (length (Filters g)); reflexivity.
Qed.

(** *** Combine and MergeProperties, repeated *)

Lemma combineFilters_contained (h : heap) (combined others : list loc) :
  (forall l, l ∈ others -> Contains h combined l = Ok true) ->
  combineFilters h combined others = Ok combined.
Proof.
  induction others as [| f rest IH]; intros Hall; [reflexivity |].
  cbn [combineFilters]. rewrite (Hall f (list_elem_of_here f rest)).
  cbn [mbind result_bind]. apply IH. intros l Hl. apply Hall. right. exact Hl.
Qed.

Lemma exAp_groups : groupsOf exG exAp exA.
Proof. repeat constructor. Defined.

Lemma exBp_groups : groupsOf exG exBp exB.
Proof. repeat constructor. Defined.

(** Combining a filter set with itself adds nothing: every group of
    [A.Combine(A)] has the key and exactly the filters of the group of [A],
    no filter is written, and the groups of [A] are as they were. *)
Theorem Combine_idempotent (h : heap) (G : groupStore) (A : list gloc)
  (gs : SearchFilters) :
  groupsOf G A gs -> setTyped h gs ->
  exists G' R gsR,
    Combine h G A A = Ok (h, G', R) /\ length R = length A /\
    groupsOf G' A gs /\ groupsOf G' R gsR /\
    forall i gA, gs !! i = Some gA ->
      exists gR, gsR !! i = Some gR /\ Key gR = Key gA /\ Filters gR = Filters gA.
Proof.
  intros HA [Hlen Hty].
  assert (Hbody : forall i g, gs !! i = Some g ->
            exists idx, combineGroup h g (Ok g)
                        = Ok {| Key := Key g; Filters := Filters g;
                                filtersIdx := Some idx |}).
  { intros i g Hi. unfold combineGroup. cbn [mbind result_bind].
    rewrite combineFilters_contained.
    - cbn [mbind result_bind]. unfold rebuildIndex. simpl.
      destruct (rebuildIndex_from_typed h i (Filters g) (Hty i g Hi) 0%nat ∅)
        as [idx Hidx].
      rewrite Hidx. exists idx. reflexivity.
    - intros l Hl. exact (Contains_member h i (Filters g) l (Hty i g Hi) Hl). }
  destruct (eachGroup_ok (combineGroup h) (A ++ A) G A gs HA A gs 0%nat G)
    as (G' & R & gsR & HR & HlenR & HgR & Hfr & _ & Hat).
  { tauto. }
  { exact HA. }
  { simpl. lia. }
  { intros k g og Hk Hok. simpl in Hok. rewrite Hk in Hok. injection Hok as <-.
    destruct (Hbody k g Hk) as [idx Hidx]. eauto. }
  exists G', R, gsR. split; [unfold Combine; rewrite HR; reflexivity |].
  split; [rewrite (groupsOf_length G' R gsR HgR); exact HlenR |].
  split; [exact (groupsOf_extends G G' A gs Hfr HA) |].
  split; [exact HgR |].
  intros i gA Hi. destruct (Hat i gA gA Hi Hi) as (x & Hx & Hbx).
  destruct (Hbody i gA Hi) as [idx Hidx]. rewrite Hidx in Hbx.
  injection Hbx as <-. eexists. split; [exact Hx | split; reflexivity].
Qed.

Lemma Combine_idempotent_witness :
  exists G' R gsR,
    Combine exHeap exG exAp exAp = Ok (exHeap, G', R) /\
    length R = length exAp /\
    groupsOf G' exAp exA /\ groupsOf G' R gsR /\
    forall i gA, exA !! i = Some gA ->
      exists gR, gsR !! i = Some gR /\ Key gR = Key gA /\ Filters gR = Filters gA.
Proof. exact (Combine_idempotent exHeap exG exAp exA exAp_groups exA_typed). Defined.

Lemma filtersTyped_sameValues (h h' : heap) (i : nat) (fs : list loc) :
  sameValues h h' -> filtersTyped h i fs = true -> filtersTyped h' i fs = true.
Proof.
  intros Hs. unfold filtersTyped. rewrite !forallb_forall. intros Hall x Hx.
  specialize (Hall x Hx). unfold locTyped in *.
  destruct (h !! x) as [f |] eqn:Hf; [| discriminate Hall].
  destruct (sameValues_lookup h h' x f Hs Hf) as (f' & -> & ->). exact Hall.
Qed.

Lemma setTyped_sameValues (h h' : heap) (s : SearchFilters) :
  sameValues h h' -> setTyped h s -> setTyped h' s.
Proof.
  intros Hs [Hlen Hty]. split; [exact Hlen |].
  intros i g Hi. exact (filtersTyped_sameValues h h' i _ Hs (Hty i g Hi)).
Qed.

Lemma setProperties_twice (fo f : SearchFilter) :
  setProperties fo (setProperties fo f) = setProperties fo f.
Proof. reflexivity. Qed.

(** Merging the properties a second time changes nothing: under the
    conditions of a merge between two separate filter sets, the heap
    [MergeProperties] returns is returned again when it is merged once
    more. *)
Theorem MergeProperties_idempotent (h h' : heap) (s other : SearchFilters) :
  setTyped h s -> setTyped h other ->
  NoDup (allLocs s) ->
  (forall l, l ∈ allLocs s -> l ∉ allLocs other) ->
  MergeProperties h s other = Ok h' ->
  MergeProperties h' s other = Ok h'.
Proof.
  intros Hts Hto Hnd Hdis Hm.
  pose proof Hts as [Hls Htys]. pose proof Hto as [Hlo Htyo].
  destruct (mergeGroups_spec h other Htyo s 0%nat h) as (h1 & Hm1 & Hout1 & Hat1);
    [simpl; lia | exact Htys | exact Hnd | exact Hdis
    | intros l; reflexivity | intros l _; reflexivity |].
  unfold MergeProperties in Hm. rewrite Hm in Hm1. injection Hm1 as <-.
  assert (Hs : sameValues h h').
  { intros l. destruct (decide (l ∈ allLocs s)) as [Hin | Hnin].
    - apply allLocs_elem in Hin as (i & g & Hi & Hl).
      destruct (lookup_lt_is_Some_2 other i) as [og Hog].
      { apply lookup_lt_Some in Hi. lia. }
      pose proof (locTyped_inv h i l (filtersTyped_elem h i _ l (Htys i g Hi) Hl))
        as (f & Hf & _).
      pose proof (Hat1 i g og l f Hi Hog Hl Hf) as Hmerged.
      unfold mergedAt in Hmerged. rewrite Hf.
      destruct (FindFilter h (Filters og) l) as [[ol |] | |]; try contradiction.
      + destruct Hmerged as (fo & _ & ->). reflexivity.
      + rewrite Hmerged. reflexivity.
    - rewrite (Hout1 l Hnin). reflexivity. }
  pose proof (setTyped_sameValues h h' other Hs Hto) as [_ Htyo'].
  pose proof (setTyped_sameValues h h' s Hs Hts) as [_ Htys'].
  destruct (mergeGroups_spec h' other Htyo' s 0%nat h')
    as (h2 & Hm2 & Hout2 & Hat2);
    [simpl; lia | exact Htys' | exact Hnd | exact Hdis
    | intros l; reflexivity | intros l _; reflexivity |].
  unfold MergeProperties. rewrite Hm2. f_equal. apply map_eq. intros l.
  destruct (decide (l ∈ allLocs s)) as [Hin | Hnin]; [| exact (Hout2 l Hnin)].
  apply allLocs_elem in Hin as (i & g & Hi & Hl).
  destruct (lookup_lt_is_Some_2 other i) as [og Hog].
  { apply lookup_lt_Some in Hi. lia. }
  pose proof (locTyped_inv h i l (filtersTyped_elem h i _ l (Htys i g Hi) Hl))
    as (f & Hf & _).
  pose proof (locTyped_inv h' i l (filtersTyped_elem h' i _ l (Htys' i g Hi) Hl))
    as (f' & Hf' & _).
  pose proof (Hat1 i g og l f Hi Hog Hl Hf) as Hfirst.
  pose proof (Hat2 i g og l f' Hi Hog Hl Hf') as Hsecond.
  unfold mergedAt in *.
  rewrite (FindFilter_sameValues h h' (Filters og) l Hs) in Hsecond.
  destruct (FindFilter h (Filters og) l) as [[ol |] | |] eqn:Hfind;
    try contradiction.
  - destruct Hfirst as (fo & Hfo & Hl1). destruct Hsecond as (fo' & Hfo' & Hl2).
    assert (Hol : ol ∈ allLocs other).
    { destruct (FindFilter_typed h i (Filters og) l (Htyo i og Hog)
                  (filtersTyped_elem h i _ l (Htys i g Hi) Hl))
        as (o & Ho & Hmem).
      rewrite Hfind in Ho. injection Ho as <-.
      exact (allLocs_group other i og ol Hog Hmem). }
    assert (Hsame : h' !! ol = h !! ol).
    { apply Hout1. intros Hin. exact (Hdis ol Hin Hol). }
    rewrite Hsame, Hfo in Hfo'. injection Hfo' as <-.
    rewrite Hf' in Hl1. injection Hl1 as ->. rewrite Hl2, Hf'. reflexivity.
  - rewrite Hsecond. symmetry. exact Hf'.
Qed.

Lemma MergeProperties_idempotent_witness :
  exists h', MergeProperties exHeap exB exA = Ok h' /\
             MergeProperties h' exB exA = Ok h'.
Proof.
  destruct (MergeProperties exHeap exB exA) as [h' | |] eqn:E;
    try (vm_compute in E; discriminate E).
  exists h'. split; [reflexivity |].
  exact (MergeProperties_idempotent exHeap h' exB exA exB_typed exA_typed
           exB_NoDup exB_exA_disjoint E).
Defined.

(** ** Canonical strings *)

(** *** Itoa and Atoi *)

Lemma digits_string_of_uint (d : Decimal.uint) :
  forall acc, digits (NilEmpty.string_of_uint d) acc = Some (accValue d acc).
Proof. induction d; intros acc; simpl; try apply IHd; reflexivity. Qed.

Lemma accValue_pos (d : Decimal.uint) :
  forall p, accValue d (Z.pos p) = Z.pos (Pos.of_uint_acc d p).
Proof.
  induction d; intros p; cbn [accValue Pos.of_uint_acc]; [reflexivity | ..];
    rewrite <- IHd; f_equal; lia.
Qed.

Lemma accValue_zero (d : Decimal.uint) : accValue d 0 = Z.of_N (Pos.of_uint d).
Proof.
  induction d; cbn [accValue Pos.of_uint]; try reflexivity; try exact IHd;
    apply accValue_pos.
Qed.

Lemma string_of_uint_first (d : Decimal.uint) (c : ascii) (rest : string) :
  NilEmpty.string_of_uint d = String c rest ->
  Ascii.eqb c "+" = false /\ Ascii.eqb c "-" = false /\ Ascii.eqb c ":" = false.
Proof. destruct d; simpl; intros [= <- _]; repeat split. Qed.

Lemma string_of_uint_occurs (d : Decimal.uint) :
  occurs ":" (NilEmpty.string_of_uint d) = false /\
  occurs "-" (NilEmpty.string_of_uint d) = false.
Proof. induction d; simpl; try exact IHd; split; reflexivity. Qed.

Lemma Itoa_pos (p : positive) :
  Itoa (Z.pos p) = NilEmpty.string_of_uint (Pos.to_uint p) /\
  Itoa (Z.neg p) = String "-" (NilEmpty.string_of_uint (Pos.to_uint p)).
Proof.
  unfold Itoa. simpl. unfold NilZero.string_of_uint.
  pose proof (DecimalPos.Unsigned.to_uint_nonnil p) as Hnn.
  destruct (Pos.to_uint p); [contradiction | split; reflexivity ..].
Qed.

Lemma digits_to_uint (p : positive) :
  digits (NilEmpty.string_of_uint (Pos.to_uint p)) 0 = Some (Z.pos p).
Proof.
  rewrite digits_string_of_uint, accValue_zero, DecimalPos.Unsigned.of_to.
  reflexivity.
Qed.

Lemma string_of_to_uint_cons (p : positive) :
  exists c rest, NilEmpty.string_of_uint (Pos.to_uint p) = String c rest.
Proof.
  pose proof (DecimalPos.Unsigned.to_uint_nonnil p) as Hnn.
  destruct (Pos.to_uint p); [contradiction | simpl; eauto ..].
Qed.

(** [Atoi] reads back what [Itoa] writes of an [int]. *)
Lemma Atoi_Itoa (z : Z) : inRange z -> Atoi (Itoa z) = Some z.
Proof.
  unfold inRange. intros [Hlo Hhi].
  destruct z as [| p | p].
  - reflexivity.
  - rewrite (proj1 (Itoa_pos p)).
    destruct (string_of_to_uint_cons p) as (c & rest & E).
    pose proof (string_of_uint_first _ c rest E) as (Hplus & Hminus & _).
    unfold Atoi. rewrite E, Hplus, Hminus, <- E.
    unfold signed_digits. rewrite E at 1. rewrite digits_to_uint.
    cbv zeta. rewrite Z.mul_1_l.
    destruct (Z.leb_spec min_int (Z.pos p)); [| lia].
    destruct (Z.leb_spec (Z.pos p) max_int); [reflexivity | lia].
  - rewrite (proj2 (Itoa_pos p)).
    destruct (string_of_to_uint_cons p) as (c & rest & E).
    unfold Atoi. simpl Ascii.eqb. cbv iota.
    unfold signed_digits. rewrite E at 1. rewrite digits_to_uint.
    cbv zeta.
    replace (-1 * Z.pos p) with (Z.neg p) by lia.
    destruct (Z.leb_spec min_int (Z.neg p)); [| lia].
    destruct (Z.leb_spec (Z.neg p) max_int); [reflexivity | lia].
Qed.

Lemma Itoa_occurs (z : Z) :
  occurs ":" (Itoa z) = false /\ (0 <= z -> occurs "-" (Itoa z) = false) /\
  Itoa z <> "".
Proof.
  destruct z as [| p | p].
  - repeat split. discriminate.
  - rewrite (proj1 (Itoa_pos p)).
    destruct (string_of_uint_occurs (Pos.to_uint p)) as [Hc Hm].
    destruct (string_of_to_uint_cons p) as (c & rest & E).
    repeat split; [exact Hc | intros _; exact Hm | rewrite E; discriminate].
  - rewrite (proj2 (Itoa_pos p)).
    destruct (string_of_uint_occurs (Pos.to_uint p)) as [Hc Hm].
    repeat split; [simpl; exact Hc | lia | discriminate].
Qed.

Lemma Itoa_inj (a b : Z) : Itoa a = Itoa b -> a = b.
Proof.
  unfold Itoa. intros E.
  assert (Hnn : forall z, Z.to_int z <> Decimal.Pos Decimal.Nil /\
                          Z.to_int z <> Decimal.Neg Decimal.Nil).
  { intros [| p | p]; simpl; split; try discriminate;
      intros [= H]; exact (DecimalPos.Unsigned.to_uint_nonnil p H). }
  pose proof (NilZero.isi (Z.to_int a) (proj1 (Hnn a)) (proj2 (Hnn a))) as Ha.
  pose proof (NilZero.isi (Z.to_int b) (proj1 (Hnn b)) (proj2 (Hnn b))) as Hb.
  rewrite E, Hb in Ha. injection Ha as Ha.
  rewrite <- (DecimalZ.of_to a), <- (DecimalZ.of_to b), Ha. reflexivity.
Qed.

(** *** Split *)

Lemma append_empty_r (s : string) : s +:+ "" = s.
Proof.
  induction s as [| c s IH]; [reflexivity |].
  change (String c (s +:+ "") = String c s). rewrite IH. reflexivity.
Qed.

Lemma Split_Community_String (v : Z) (rest : list Z) :
  Split (Community_String (v :: rest)) ":" = map Itoa (v :: rest).
Proof.
  unfold Community_String. revert v.
  induction rest as [| w rest IH]; intros v.
  - simpl Community_String_tail.
    rewrite append_empty_r.
    apply Split_none. exact (proj1 (Itoa_occurs v)).
  - cbn [Community_String_tail map].
    change (":" +:+ Itoa w +:+ Community_String_tail rest)
      with (String ":" (Itoa w +:+ Community_String_tail rest)).
    rewrite Split_app by exact (proj1 (Itoa_occurs v)).
    rewrite IH. reflexivity.
Qed.

Lemma Community_String_empty (c : Community) : Community_String c = "" -> c = [].
Proof.
  destruct c as [| v rest]; [reflexivity |]. simpl. intros E.
  destruct (Itoa v) as [| a s] eqn:Ev; [| discriminate E].
  exfalso. exact (proj2 (proj2 (Itoa_occurs v)) Ev).
Qed.

Lemma map_Itoa_inj (a b : list Z) : map Itoa a = map Itoa b -> a = b.
Proof.
  revert b. induction a as [| x a IH]; intros [| y b] E; simpl in E;
    try discriminate E; [reflexivity |].
  injection E as Hx Hab. rewrite (Itoa_inj x y Hx), (IH b Hab). reflexivity.
Qed.

Lemma Equal_decides_value_aux (a b : Community) :
  searchFilterCmpCommunity (VCommunity a) (VCommunity b)
  = Ok (if (length a =? length b)%nat then components_eqb a b else false) /\
  ((if (length a =? length b)%nat then components_eqb a b else false) = true
   <-> a = b).
Proof.
  simpl. destruct (Nat.eqb_spec (length a) (length b)) as [Hlen | Hlen]; simpl.
  - split; [reflexivity | exact (components_eqb_eq a b Hlen)].
  - split; [reflexivity |]. split; [discriminate | intros ->; contradiction].
Qed.

(** The canonical string of a community determines it: two communities
    with the same string are the same, so the string index of a community
    group and [Equal] tell the same filters apart. *)
Theorem Community_String_injective (f g : SearchFilter) (a b : Community) :
  Value f = VCommunity a -> Value g = VCommunity b ->
  (Community_String a = Community_String b -> a = b) /\
  (Equal f g = Ok true <->
   filterValueAsString (Value f) = filterValueAsString (Value g)).
Proof.
  intros Hf Hg.
  assert (Hinj : Community_String a = Community_String b -> a = b).
  { intros E. destruct a as [| x a], b as [| y b].
    - reflexivity.
    - symmetry. apply Community_String_empty. symmetry. exact E.
    - apply Community_String_empty. exact E.
    - apply map_Itoa_inj. rewrite <- !Split_Community_String, E. reflexivity. }
  split; [exact Hinj |].
  destruct (Equal_decides_value_aux a b) as [Hok Hiff].
  destruct f as [cf nf vf], g as [cg ng vg]; simpl in *. subst vf vg.
  unfold Equal. simpl. rewrite Hok. split.
  - intros [= Hb]. apply Hiff in Hb. subst b. reflexivity.
  - intros [= E]. f_equal. apply Hiff. exact (Hinj E).
Qed.

(** Bounds of concrete ints. *)
Ltac in_range :=
  unfold inRange; rewrite ?min_int_value, ?max_int_value; lia.

Lemma Community_String_injective_witness :
  (Community_String [65000; 100] = Community_String [65000; 100] ->
   [65000; 100] = [65000; 100]) /\
  (Equal (exFilter 2 "blackhole" (VCommunity [65000; 100]))
         (exFilter 9 "other" (VCommunity [65000; 100])) = Ok true <->
   filterValueAsString (VCommunity [65000; 100])
   = filterValueAsString (VCommunity [65000; 100])).
Proof.
  apply (Community_String_injective
           (exFilter 2 "blackhole" (VCommunity [65000; 100]))
           (exFilter 9 "other" (VCommunity [65000; 100]))); reflexivity.
Defined.

(** *** Canonical strings given back to the parsers *)

Section CanonicalTokens.

Variable parseExtCommunityValue : string -> result SearchFilter.
Variable parseCommunityValue : string -> result SearchFilter.

(** The canonical string of a community of ints, given back as the text of
    a token, is never taken for an extended community: with two elements it
    is filed under the community key, with three under the large-community
    key, with the filter [parseCommunityValue] makes of it. *)
Theorem canonical_string_as_token (c : Community) (f : SearchFilter) :
  Forall inRange c ->
  parseCommunityValue (Community_String c) = Ok f ->
  (length c = 2%nat ->
   parseCommunityFilterText parseExtCommunityValue parseCommunityValue
     (Community_String c) = Ok (SearchKeyCommunities, f)) /\
  (length c = 3%nat ->
   parseCommunityFilterText parseExtCommunityValue parseCommunityValue
     (Community_String c) = Ok (SearchKeyLargeCommunities, f)).
Proof.
  intros Hrange Hf.
  assert (Hgen : forall n, (2 <= n)%nat -> length c = n ->
            parseCommunityFilterText parseExtCommunityValue parseCommunityValue
              (Community_String c)
            = if (n =? 2)%nat then Ok (SearchKeyCommunities, f)
              else Ok (SearchKeyLargeCommunities, f)).
  { intros n Hn Hlen. destruct c as [| v rest]; [simpl in Hlen; lia |].
    apply Forall_cons in Hrange as [Hv _].
    unfold parseCommunityFilterText.
    rewrite Split_Community_String, length_map, Hlen.
    destruct (Nat.ltb_spec n 2); [lia |].
    cbn [map hd]. rewrite (Atoi_Itoa v Hv), Hf. reflexivity. }
  split; intros Hlen.
  - rewrite (Hgen 2%nat ltac:(lia) Hlen). reflexivity.
  - rewrite (Hgen 3%nat ltac:(lia) Hlen). reflexivity.
Qed.

End CanonicalTokens.

Lemma canonical_string_as_token_witness :
  parseCommunityFilterText SpecModel.parseExtCommunityValue
    SpecModel.parseCommunityValue (Community_String [65000; 100])
  = Ok (SearchKeyCommunities, exFilter 0 "" (VCommunity [65000; 100])).
Proof.
  apply (canonical_string_as_token SpecModel.parseExtCommunityValue
           SpecModel.parseCommunityValue [65000; 100]
           (exFilter 0 "" (VCommunity [65000; 100]))).
  - repeat (constructor; [in_range |]). constructor.
  - reflexivity.
  - reflexivity.
Defined.

(** The canonical string of a community of at least two non-negative ints
    is a valid range line: [parseRangeCommunity] returns, for every element,
    the range from the element to itself. *)
Theorem canonical_string_as_range (IntListFromStrings : list string -> list Z)
  (c : Community) :
  (2 <= length c)%nat ->
  Forall (fun v => 0 <= v <= max_int) c ->
  parseRangeCommunity IntListFromStrings (Community_String c)
  = Ok (map (fun v => RInts (IntListFromStrings [Itoa v; Itoa v])) c).
Proof.
  intros Hlen Hall.
  assert (Hpart : forall v, 0 <= v -> partOf (Itoa v) = [Itoa v; Itoa v]).
  { intros v Hv. unfold partOf.
    rewrite (cut_none _ _ (proj1 (proj2 (Itoa_occurs v)) Hv)). reflexivity. }
  assert (Hmap : map (fun t => RInts (IntListFromStrings (partOf t))) (map Itoa c)
                 = map (fun v => RInts (IntListFromStrings [Itoa v; Itoa v])) c).
  { rewrite map_map. apply map_ext_in. intros v Hv.
    rewrite Forall_forall in Hall.
    rewrite Hpart; [reflexivity |].
    apply list_elem_of_In in Hv. exact (proj1 (Hall v Hv)). }
  destruct c as [| v [| w rest]]; simpl in Hlen; try lia.
  pose proof (proj1 (Forall_cons _ _ _) Hall) as [[Hv0 Hvmax] _].
  rewrite parseRangeCommunity_eq, Split_Community_String.
  cbn [map]. unfold lowerBound. rewrite (Hpart v Hv0). cbn [hd].
  rewrite (Atoi_Itoa v) by (unfold inRange; rewrite min_int_value; lia).
  cbn [map] in Hmap. rewrite (Hpart v Hv0) in Hmap. f_equal. exact Hmap.
Qed.

Lemma canonical_string_as_range_witness :
  parseRangeCommunity SpecModel.IntListFromStrings (Community_String [65000; 100])
  = Ok [RInts [65000; 65000]; RInts [100; 100]].
Proof.
  apply (canonical_string_as_range SpecModel.IntListFromStrings [65000; 100]).
  - simpl. lia.
  - repeat (constructor; [in_range |]). constructor.
Defined.

(** *** The canonical string of an extended community *)

Lemma ExtCommunity_String_tail_ints (ints : list Z) :
  ExtCommunity_String_tail (map EInt ints) = Ok (Community_String_tail ints).
Proof.
  induction ints as [| v ints IH]; simpl; [reflexivity |].
  rewrite IH. reflexivity.
Qed.

Lemma ExtCommunity_String_tail_shape (l : list ExtElem) :
  (exists ints, l = map EInt ints) \/
  ((forall ints, l <> map EInt ints) /\ ExtCommunity_String_tail l = Panic).
Proof.
  induction l as [| e l [(ints & ->) | [Hno Hp]]].
  - left. exists []. reflexivity.
  - destruct e as [s | z].
    + right. split; [intros [| v ints']; discriminate | reflexivity].
    + left. exists (z :: ints). reflexivity.
  - right. split.
    + intros [| v ints'] E; [discriminate E |]. injection E as _ E.
      exact (Hno ints' E).
    + destruct e as [s | z]; [reflexivity |]. simpl. rewrite Hp. reflexivity.
Qed.

(** [ExtCommunity.String] returns exactly on the empty community and on a
    string tag followed by ints, for which it is the tag followed by the
    ints, each after a colon; on any other shape it panics. *)
Theorem ExtCommunity_String_shape (c : ExtCommunity) :
  match c with
  | [] => ExtCommunity_String c = Ok ""
  | _ =>
      (exists tag ints,
          c = EString tag :: map EInt ints /\
          ExtCommunity_String c = Ok (tag +:+ Community_String_tail ints)) \/
      ((forall tag ints, c <> EString tag :: map EInt ints) /\
       ExtCommunity_String c = Panic)
  end.
Proof.
  destruct c as [| [tag | z] rest]; [reflexivity | |].
  - destruct (ExtCommunity_String_tail_shape rest) as [(ints & ->) | [Hno Hp]].
    + left. exists tag, ints. split; [reflexivity |]. simpl.
      rewrite ExtCommunity_String_tail_ints. reflexivity.
    + right. split.
      * intros t ints [= _ E]. exact (Hno ints E).
      * simpl. rewrite Hp. reflexivity.
  - right. split; [intros t ints; discriminate | reflexivity].
Qed.

(** ** Further properties of the response types *)

Lemma pair_eq_nth (com community : list Z) :
  length com = 2%nat -> length community = 2%nat ->
  ((nth 0 com 0 =? nth 0 community 0) && (nth 1 com 0 =? nth 1 community 0) = true
   <-> com = community).
Proof.
  destruct com as [| a [| b [| ? ?]]]; try discriminate.
  destruct community as [| x [| y [| ? ?]]]; try discriminate.
  intros _ _. simpl. rewrite andb_true_iff, !Z.eqb_eq.
  split; [intros [-> ->]; reflexivity | intros [= -> ->]; split; reflexivity].
Qed.

Lemma triple_eq_nth (com community : list Z) :
  length com = 3%nat -> length community = 3%nat ->
  ((nth 0 com 0 =? nth 0 community 0) && (nth 1 com 0 =? nth 1 community 0) &&
   (nth 2 com 0 =? nth 2 community 0) = true
   <-> com = community).
Proof.
  destruct com as [| a [| b [| c [| ? ?]]]]; try discriminate.
  destruct community as [| x [| y [| z [| ? ?]]]]; try discriminate.
  intros _ _. simpl. rewrite !andb_true_iff, !Z.eqb_eq.
  split; [intros [[-> ->] ->]; reflexivity
         | intros [= -> -> ->]; repeat split].
Qed.

Lemma ext_triple_eq_nth (com community : list ExtElem) :
  length com = 3%nat -> length community = 3%nat ->
  (ExtElem_eqb (nth 0 com (EInt 0)) (nth 0 community (EInt 0)) &&
   ExtElem_eqb (nth 1 com (EInt 0)) (nth 1 community (EInt 0)) &&
   ExtElem_eqb (nth 2 com (EInt 0)) (nth 2 community (EInt 0)) = true
   <-> com = community).
Proof.
  destruct com as [| a [| b [| c [| ? ?]]]]; try discriminate.
  destruct community as [| x [| y [| z [| ? ?]]]]; try discriminate.
  intros _ _. simpl. rewrite !andb_true_iff, !ExtElem_eqb_eq.
  split; [intros [[-> ->] ->]; reflexivity
         | intros [= -> -> ->]; repeat split].
Qed.

Lemma hasPair_In (coms : list Community) (community : Community) :
  length community = 2%nat -> (hasPair coms community = true <-> In community coms).
Proof.
  intros Hc. induction coms as [| com rest IH]; simpl; [split; [discriminate | tauto] |].
  destruct (Nat.eqb_spec (length com) (length community)) as [Hlen | Hlen]; simpl.
  - pose proof (pair_eq_nth com community ltac:(lia) Hc) as Hp.
    destruct ((nth 0 com 0 =? nth 0 community 0) && (nth 1 com 0 =? nth 1 community 0)).
    + split; [intros _; left; apply Hp; reflexivity | reflexivity].
    + rewrite IH. split; [tauto |]. intros [E | Hin]; [| exact Hin].
      apply Hp in E. discriminate E.
  - rewrite IH. split; [tauto |]. intros [E | Hin]; [| exact Hin].
    subst com. contradiction.
Qed.

Lemma hasTriple_In (coms : list Community) (community : Community) :
  length community = 3%nat ->
  (hasTriple coms community = true <-> In community coms).
Proof.
  intros Hc. induction coms as [| com rest IH]; simpl; [split; [discriminate | tauto] |].
  destruct (Nat.eqb_spec (length com) (length community)) as [Hlen | Hlen]; simpl.
  - pose proof (triple_eq_nth com community ltac:(lia) Hc) as Hp.
    destruct ((nth 0 com 0 =? nth 0 community 0) && (nth 1 com 0 =? nth 1 community 0)
              && (nth 2 com 0 =? nth 2 community 0)).
    + split; [intros _; left; apply Hp; reflexivity | reflexivity].
    + rewrite IH. split; [tauto |]. intros [E | Hin]; [| exact Hin].
      apply Hp in E. discriminate E.
  - rewrite IH. split; [tauto |]. intros [E | Hin]; [| exact Hin].
    subst com. contradiction.
Qed.

Lemma hasExtTriple_In (coms : list ExtCommunity) (community : ExtCommunity) :
  length community = 3%nat ->
  (hasExtTriple coms community = true <-> In community coms).
Proof.
  intros Hc. induction coms as [| com rest IH]; simpl; [split; [discriminate | tauto] |].
  destruct (Nat.eqb_spec (length com) (length community)) as [Hlen | Hlen]; simpl.
  - pose proof (ext_triple_eq_nth com community ltac:(lia) Hc) as Hp.
    destruct (ExtElem_eqb (nth 0 com (EInt 0)) (nth 0 community (EInt 0)) &&
              ExtElem_eqb (nth 1 com (EInt 0)) (nth 1 community (EInt 0)) &&
              ExtElem_eqb (nth 2 com (EInt 0)) (nth 2 community (EInt 0))).
    + split; [intros _; left; apply Hp; reflexivity | reflexivity].
    + rewrite IH. split; [tauto |]. intros [E | Hin]; [| exact Hin].
      apply Hp in E. discriminate E.
  - rewrite IH. split; [tauto |]. intros [E | Hin]; [| exact Hin].
    subst com. contradiction.
Qed.

(** [HasCommunity] is membership among the route's communities for a
    community of two elements and false for any other length;
    [HasLargeCommunity] is the same for three elements and the large
    communities. *)
Theorem HasCommunity_membership (bgp : BGPInfo) (community : Community) :
  (HasCommunity bgp community = true <->
   length community = 2%nat /\ In community (Communities bgp)) /\
  (HasLargeCommunity bgp community = true <->
   length community = 3%nat /\ In community (LargeCommunities bgp)).
Proof.
  unfold HasCommunity, HasLargeCommunity. split.
  - destruct (Nat.eqb_spec (length community) 2) as [Hc | Hc]; simpl.
    + rewrite (hasPair_In _ community Hc). tauto.
    + split; [discriminate | intros [E _]; contradiction].
  - destruct (Nat.eqb_spec (length community) 3) as [Hc | Hc]; simpl.
    + rewrite (hasTriple_In _ community Hc). tauto.
    + split; [discriminate | intros [E _]; contradiction].
Qed.

(** [HasExtCommunity] is membership among the route's extended communities
    for a community of three elements, compared as interface values, and
    false for any other length. *)
Theorem HasExtCommunity_membership (bgp : BGPInfo) (community : ExtCommunity) :
  HasExtCommunity bgp community = true <->
  length community = 3%nat /\ In community (ExtCommunities bgp).
Proof.
  unfold HasExtCommunity.
  destruct (Nat.eqb_spec (length community) 3) as [Hc | Hc]; simpl.
  - rewrite (hasExtTriple_In _ community Hc). tauto.
  - split; [discriminate | intros [E _]; contradiction].
Qed.

(** *** Sorting route servers *)

Lemma at_index_Ok {A : Type} (rs : list A) (i : Z) (x : A) :
  at_index rs i = Ok x <-> 0 <= i /\ rs !! Z.to_nat i = Some x.
Proof.
  unfold at_index. destruct (Z.ltb_spec i 0) as [Hneg | Hpos].
  - split; [discriminate | lia].
  - destruct (rs !! Z.to_nat i) as [y |].
    + split; [intros [= ->]; split; [lia | reflexivity] | intros [_ [= ->]]; reflexivity].
    + split; [discriminate | intros [_ E]; discriminate E].
Qed.

(** [Less] orders the positions of a slice of route servers strictly by
    their [Order]: on positions of the slice it is irreflexive, asymmetric
    and transitive, and two positions neither of which is less have the same
    [Order]; on a position outside the slice it panics. *)
Theorem Less_strict_order (rs : RouteServers) (i j k : Z) (a b c : RouteServer) :
  at_index rs i = Ok a -> at_index rs j = Ok b -> at_index rs k = Ok c ->
  Less rs i i = Ok false /\
  (Less rs i j = Ok true -> Less rs j i = Ok false) /\
  (Less rs i j = Ok true -> Less rs j k = Ok true -> Less rs i k = Ok true) /\
  (Less rs i j = Ok false -> Less rs j i = Ok false -> Order a = Order b) /\
  (forall n, at_index rs n = Panic -> Less rs n i = Panic /\ Less rs i n = Panic).
Proof.
  intros Ha Hb Hc. unfold Less. rewrite Ha, Hb, Hc. simpl.
  repeat split.
  - rewrite Z.ltb_irrefl. reflexivity.
  - intros [= H]. f_equal. apply Z.ltb_lt in H. apply Z.ltb_ge. lia.
  - intros [= H1] [= H2]. f_equal. apply Z.ltb_lt in H1, H2. apply Z.ltb_lt. lia.
  - intros [= H1] [= H2]. apply Z.ltb_ge in H1, H2. lia.
  - rewrite H. reflexivity.
  - rewrite H. reflexivity.
Qed.

Lemma Less_strict_order_witness : Less exServers 0 0 = Ok false.
Proof.
  refine (proj1 (Less_strict_order exServers 0 1 1 _ _ _ _ _ _)); reflexivity.
Defined.

(** [Swap] exchanges the route servers at two positions of the slice and
    keeps every other position and the length; swapping the same positions
    again gives the slice back. *)
Theorem Swap_exchanges (rs rs' : RouteServers) (i j : Z) :
  Swap rs i j = Ok rs' ->
  length rs' = length rs /\
  at_index rs' i = at_index rs j /\
  at_index rs' j = at_index rs i /\
  (forall n, n <> i -> n <> j -> at_index rs' n = at_index rs n) /\
  Swap rs' i j = Ok rs.
Proof.
  unfold Swap. intros H.
  destruct (at_index rs j) as [b | |] eqn:Hb; try discriminate H.
  destruct (at_index rs i) as [a | |] eqn:Ha; try discriminate H.
  simpl in H. injection H as <-.
  apply at_index_Ok in Ha as [Hi Ha]. apply at_index_Ok in Hb as [Hj Hb].
  pose proof (lookup_lt_Some _ _ _ Ha) as Hli.
  pose proof (lookup_lt_Some _ _ _ Hb) as Hlj.
  assert (Hat_i : at_index (<[Z.to_nat j := a]> (<[Z.to_nat i := b]> rs)) i = Ok b).
  { apply at_index_Ok. split; [exact Hi |].
    destruct (decide (Z.to_nat j = Z.to_nat i)) as [E | Hne].
    - rewrite E, list_lookup_insert_eq by (rewrite length_insert; exact Hli).
      rewrite E, Ha in Hb. exact Hb.
    - rewrite list_lookup_insert_ne by exact Hne.
      apply list_lookup_insert_eq. exact Hli. }
  assert (Hat_j : at_index (<[Z.to_nat j := a]> (<[Z.to_nat i := b]> rs)) j = Ok a).
  { apply at_index_Ok. split; [exact Hj |].
    apply list_lookup_insert_eq. rewrite length_insert. exact Hlj. }
  split; [rewrite !length_insert; reflexivity |].
  split; [exact Hat_i |].
  split; [exact Hat_j |].
  split.
  - intros n Hni Hnj. unfold at_index.
    destruct (Z.ltb_spec n 0) as [Hneg | Hpos]; [reflexivity |].
    rewrite !list_lookup_insert_ne by lia. reflexivity.
  - rewrite Hat_j, Hat_i. simpl. f_equal.
    apply list_eq. intros n.
    destruct (decide (n = Z.to_nat j)) as [-> | Hnj].
    + rewrite list_lookup_insert_eq by (rewrite !length_insert; exact Hlj).
      symmetry. exact Hb.
    + rewrite list_lookup_insert_ne by congruence.
      destruct (decide (n = Z.to_nat i)) as [-> | Hni].
      * rewrite list_lookup_insert_eq by (rewrite !length_insert; exact Hli).
        symmetry. exact Ha.
      * rewrite !list_lookup_insert_ne by congruence. reflexivity.
Qed.

Lemma Swap_exchanges_witness :
  Swap exServers 0 1 = Ok [ {| ID := "rs2"; Type_ := "bird";
                               RouteServer_Name := "two"; Group := "a";
                               Blackholes := []; Order := 1 |};
                            {| ID := "rs1"; Type_ := "bird";
                               RouteServer_Name := "one"; Group := "a";
                               Blackholes := []; Order := 2 |} ] /\
  Swap [ {| ID := "rs2"; Type_ := "bird"; RouteServer_Name := "two"; Group := "a";
            Blackholes := []; Order := 1 |};
         {| ID := "rs1"; Type_ := "bird"; RouteServer_Name := "one"; Group := "a";
            Blackholes := []; Order := 2 |} ] 0 1 = Ok exServers.
Proof.
  split; [reflexivity |].
  refine (proj2 (proj2 (proj2 (proj2 (Swap_exchanges exServers _ 0 1 _))))).
  reflexivity.
Defined.

(** *** The neighbor filter *)

(** A neighbor filter matches a neighbor exactly when its name is not empty
    and matches, or its ASN is positive and matches; a filter with an empty
    name and no positive ASN matches no neighbor. *)
Theorem NeighborFilter_Match_cases (s : Neighbors.NeighborFilter)
  (neighbor : Neighbors.Neighbor) :
  (Neighbors.Match s neighbor = true <->
   (Neighbors.name s <> "" /\
    Neighbors.MatchName neighbor (Neighbors.name s) = true) \/
   (0 < Neighbors.asn s /\
    Neighbors.MatchASN neighbor (Neighbors.asn s) = true)) /\
  (Neighbors.name s = "" -> Neighbors.asn s <= 0 ->
   Neighbors.Match s neighbor = false).
Proof.
  unfold Neighbors.Match.
  destruct (String.eqb_spec (Neighbors.name s) "") as [En | En];
    destruct (Z.ltb_spec 0 (Neighbors.asn s)) as [Ea | Ea];
    destruct (Neighbors.MatchName neighbor (Neighbors.name s));
    destruct (Neighbors.MatchASN neighbor (Neighbors.asn s)); simpl;
    (split;
     [ split;
       [ intros H; try discriminate H;
         first [ left; split; [exact En | reflexivity]
               | right; split; [exact Ea | reflexivity] ]
       | intros [[H1 H2] | [H1 H2]]; try reflexivity; try contradiction;
         try discriminate H2; lia ]
     | intros H1 H2; try reflexivity; try contradiction; lia ]).
Qed.

(** ** Properties of package [decoders] *)

(** [MapGetString] returns the fallback when the first argument is no map
    or the map lacks the key, and the string under the key when there is
    one; it panics exactly when the key holds a value that is no string.
    [MapGetBool] does the same for booleans. *)
Theorem MapGet_typed (m : Decoders.any) (key : string) :
  (forall fallback,
      (Decoders.MapGetString m key fallback = Panic <->
       exists smap v, m = Decoders.AMap smap /\ smap !! key = Some v /\
                      forall s, v <> Decoders.AString s) /\
      ((forall smap, m = Decoders.AMap smap -> smap !! key = None) ->
       Decoders.MapGetString m key fallback = Ok fallback) /\
      (forall smap s, m = Decoders.AMap smap ->
                      smap !! key = Some (Decoders.AString s) ->
                      Decoders.MapGetString m key fallback = Ok s)) /\
  (forall fallback,
      (Decoders.MapGetBool m key fallback = Panic <->
       exists smap v, m = Decoders.AMap smap /\ smap !! key = Some v /\
                      forall b, v <> Decoders.ABool b) /\
      ((forall smap, m = Decoders.AMap smap -> smap !! key = None) ->
       Decoders.MapGetBool m key fallback = Ok fallback) /\
      (forall smap b, m = Decoders.AMap smap ->
                      smap !! key = Some (Decoders.ABool b) ->
                      Decoders.MapGetBool m key fallback = Ok b)).
Proof.
  unfold Decoders.MapGetString, Decoders.MapGetBool, Decoders.MapGet.
  split; intros fallback; (split; [| split]).
  - destruct m as [| s | b | z | smap];
      try (split; [discriminate | intros (sm & v & E & _); discriminate E]).
    destruct (smap !! key) as [v |] eqn:Hv.
    + destruct v as [| s | b | z | sm'];
        try (split; [intros _; eexists _, _; repeat split; [exact Hv | discriminate]
                    | reflexivity]).
      split; [discriminate |].
      intros (sm & v & [= <-] & Hv' & Hno). rewrite Hv in Hv'.
      injection Hv' as <-. exfalso. exact (Hno s eq_refl).
    + split; [discriminate |].
      intros (sm & v & [= <-] & Hv' & _). rewrite Hv in Hv'. discriminate Hv'.
  - intros Hnone. destruct m as [| s | b | z | smap]; try reflexivity.
    rewrite (Hnone smap eq_refl). reflexivity.
  - intros smap s -> Hs. rewrite Hs. reflexivity.
  - destruct m as [| s | b | z | smap];
      try (split; [discriminate | intros (sm & v & E & _); discriminate E]).
    destruct (smap !! key) as [v |] eqn:Hv.
    + destruct v as [| s | b | z | sm'];
        try (split; [intros _; eexists _, _; repeat split; [exact Hv | discriminate]
                    | reflexivity]).
      split; [discriminate |].
      intros (sm & v & [= <-] & Hv' & Hno). rewrite Hv in Hv'.
      injection Hv' as <-. exfalso. exact (Hno b eq_refl).
    + split; [discriminate |].
      intros (sm & v & [= <-] & Hv' & _). rewrite Hv in Hv'. discriminate Hv'.
  - intros Hnone. destruct m as [| s | b | z | smap]; try reflexivity.
    rewrite (Hnone smap eq_refl). reflexivity.
  - intros smap b -> Hb. rewrite Hb. reflexivity.
Qed.

Example MapGet_example :
  (Decoders.MapGetString exStatus "version" "n/a",
   Decoders.MapGetString exStatus "missing" "n/a",
   Decoders.MapGetString exStatus "ready" "n/a",
   Decoders.MapGetBool exStatus "ready" false,
   Decoders.MapGetBool (Decoders.AString "no map") "ready" false)
  = (Ok "2.0", Ok "n/a", Panic, Ok true, Ok false).
Proof. vm_compute. reflexivity. Qed.

(** ** Properties of package [birdwatcher] *)

Lemma length_append (s t : string) :
  String.length (s +:+ t) = (String.length s + String.length t)%nat.
Proof.
  induction s as [| c s IH]; [reflexivity |].
  change (S (String.length (s +:+ t)) = S (String.length s + String.length t)).
  rewrite IH. reflexivity.
Qed.

Lemma substring_all (t : string) : substring 0 (String.length t) t = t.
Proof. induction t as [| c t IH]; simpl; [| rewrite IH]; reflexivity. Qed.

Lemma substring_prefix (s t : string) :
  substring 0 (String.length s) (s +:+ t) = s.
Proof.
  induction s as [| c s IH].
  - simpl. destruct t; reflexivity.
  - change (String c (substring 0 (String.length s) (s +:+ t)) = String c s).
    rewrite IH. reflexivity.
Qed.

Lemma substring_suffix (s t : string) :
  substring (String.length s) (String.length t) (s +:+ t) = t.
Proof.
  induction s as [| c s IH]; [apply substring_all |].
  change (substring (String.length s) (String.length t) (s +:+ t) = t).
  exact IH.
Qed.

Lemma TrimSuffix_app (s t : string) : TrimSuffix (s +:+ t) t = s.
Proof.
  assert (Hlen : (String.length (s +:+ t) - String.length t)%nat = String.length s)
    by (rewrite length_append; lia).
  unfold TrimSuffix, HasSuffix.
  rewrite Hlen, substring_suffix, String.eqb_refl, substring_prefix.
  destruct (Nat.leb_spec (String.length t) (String.length (s +:+ t)))
    as [_ | Hlt]; [reflexivity |].
  rewrite length_append in Hlt. lia.
Qed.

(** [NewClient] removes one trailing slash and no more: of an address
    written as [s] followed by a slash the client keeps [s], also when [s]
    ends with a slash itself; an address that does not end with a slash is
    kept as it is. *)
Theorem NewClient_one_slash (s : string) :
  Birdwatcher.api (Birdwatcher.NewClient (s +:+ "/")) = s /\
  (HasSuffix s "/" = false ->
   Birdwatcher.api (Birdwatcher.NewClient s) = s).
Proof.
  unfold Birdwatcher.NewClient. simpl Birdwatcher.api. split.
  - apply TrimSuffix_app.
  - unfold TrimSuffix. intros ->. reflexivity.
Qed.

Lemma NewClient_one_slash_witness :
  Birdwatcher.api (Birdwatcher.NewClient "http://rs1:29184") = "http://rs1:29184".
Proof.
  apply (proj2 (NewClient_one_slash "http://rs1:29184")). reflexivity.
Defined.

Example NewClient_example :
  Birdwatcher.api (Birdwatcher.NewClient "http://rs1:29184//") = "http://rs1:29184/".
Proof. reflexivity. Qed.

(** ** Further properties of package [config] *)

(** [parseRangeCommunity] accepts a line exactly when it has at least two
    colon-tokens and either the text before the first hyphen of the first
    token is an integer or there are exactly three tokens; the tokens after
    the first are not examined.  The range it returns has one element for
    every colon-token. *)
Theorem parseRangeCommunity_accepts
  (IntListFromStrings : list string -> list Z) (s : string) :
  let tokens := Split s ":" in
  (is_Ok (parseRangeCommunity IntListFromStrings s) = true <->
   (2 <= length tokens)%nat /\
   (is_Some (Atoi (lowerBound (hd "" tokens))) \/ length tokens = 3%nat)) /\
  (forall r, parseRangeCommunity IntListFromStrings s = Ok r ->
             length r = length tokens).
Proof.
  intros tokens. subst tokens. rewrite parseRangeCommunity_eq.
  destruct (Split s ":") as [| t0 [| t1 rest]]; cbn [hd length].
  - split; [split; [discriminate | lia] | discriminate].
  - split; [split; [discriminate | lia] | discriminate].
  - destruct (Atoi (lowerBound t0)) as [z |].
    + split.
      * split; [intros _; split; [lia | left; eexists; reflexivity] | reflexivity].
      * intros r [= <-]. cbn [map length]. rewrite length_map. reflexivity.
    + destruct rest as [| t2 [| t3 rest]]; cbn [length].
      * split; [split; [discriminate | intros [_ [[z Hz] | Hl]]; [discriminate Hz | lia]]
               | discriminate].
      * split; [split; [intros _; split; [lia | right; reflexivity] | reflexivity] |].
        intros r [= <-]. reflexivity.
      * split; [split; [discriminate | intros [_ [[z Hz] | Hl]]; [discriminate Hz | lia]]
               | discriminate].
Qed.

Lemma all_or_one {A : Type} (p : A -> bool) (xs : list A) :
  (forall x, In x xs -> p x = true) \/ (exists x, In x xs /\ p x = false).
Proof.
  induction xs as [| x xs [Hall | (y & Hy & Hpy)]].
  - left. intros x [].
  - destruct (p x) eqn:Hx.
    + left. intros y [<- | Hy]; [exact Hx | exact (Hall y Hy)].
    + right. exists x. split; [left; reflexivity | exact Hx].
  - right. exists y. split; [right; exact Hy | exact Hpy].
Qed.

Lemma okRanges_length (parse : string -> result BGPCommunityRange)
  (ts : list string) : (length (okRanges parse ts) <= length ts)%nat.
Proof.
  induction ts as [| t ts IH]; simpl; [lia |].
  destruct (parse t); simpl; lia.
Qed.

Lemma collect_lengths (RangeType : BGPCommunityRange -> BGPCommunityType)
  (rs : list BGPCommunityRange) :
  (length (List.filter (fun r => typeIs BGPCommunityTypeStd (RangeType r)) rs)
   + length (List.filter (fun r => typeIs BGPCommunityTypeLarge (RangeType r)) rs)
   + length (List.filter (fun r => typeIs BGPCommunityTypeExt (RangeType r)) rs)
   <= length rs)%nat.
Proof.
  induction rs as [| r rs IH]; [simpl; lia |].
  cbn [List.filter].
  destruct (typeIs BGPCommunityTypeStd (RangeType r)) eqn:E1,
           (typeIs BGPCommunityTypeLarge (RangeType r)) eqn:E2,
           (typeIs BGPCommunityTypeExt (RangeType r)) eqn:E3;
    cbn [length]; try lia;
    destruct (RangeType r); discriminate.
Qed.

(** A body without a line to parse (empty, or blank lines and comments
    only) gives the empty set; and a returned set never holds more ranges
    than the body has lines that are neither blank nor comments.  Blank is
    of white space only, as Unicode has it: a body of such characters and
    line feeds gives the empty set. *)
Theorem parseRangeCommunitiesSet_sizes
  (IntListFromStrings : list string -> list Z)
  (RangeType : BGPCommunityRange -> BGPCommunityType) (body : string) :
  (effectiveLines body = [] ->
   parseRangeCommunitiesSet IntListFromStrings RangeType body
   = Ok {| Standard := []; Large := []; Extended := [] |}) /\
  (forall set,
      parseRangeCommunitiesSet IntListFromStrings RangeType body = Ok set ->
      (length (Standard set) + length (Large set) + length (Extended set)
       <= length (effectiveLines body))%nat) /\
  (blank body ->
   parseRangeCommunitiesSet IntListFromStrings RangeType body
   = Ok {| Standard := []; Large := []; Extended := [] |}).
Proof.
  assert (Hempty : effectiveLines body = [] ->
                   parseRangeCommunitiesSet IntListFromStrings RangeType body
                   = Ok {| Standard := []; Large := []; Extended := [] |}).
  { unfold parseRangeCommunitiesSet, effectiveLines.
    intros Hnone. rewrite rangeLines_ok.
    + rewrite Hnone. reflexivity.
    + rewrite Hnone. intros t []. }
  split; [exact Hempty | split];
    [| intros Hb; apply Hempty, effectiveLines_blank, Hb].
  unfold parseRangeCommunitiesSet, effectiveLines.
  - intros set Hset.
    destruct (all_or_one (fun t => is_Ok (parseRangeCommunity IntListFromStrings t))
                (List.filter isEffective (map TrimSpace (Split body newline))))
      as [Hall | Hbad].
    + rewrite (rangeLines_ok IntListFromStrings RangeType _ Hall) in Hset.
      cbv zeta in Hset. injection Hset as <-. cbn [Standard Large Extended app].
      etransitivity; [apply collect_lengths | apply okRanges_length].
    + destruct (rangeLines_abort IntListFromStrings RangeType _ Hbad [] [] [])
        as (t & _ & Herr).
      rewrite Herr in Hset. discriminate Hset.
Qed.

Lemma parseRangeCommunitiesSet_sizes_witness :
  parseRangeCommunitiesSet SpecModel.IntListFromStrings SpecModel.RangeType
    ("# only a comment" +:+ String newline (nbsp +:+ enQuad +:+ "   "))
  = Ok {| Standard := []; Large := []; Extended := [] |} /\
  parseRangeCommunitiesSet SpecModel.IntListFromStrings SpecModel.RangeType
    (nbsp +:+ String newline "" +:+ enQuad)
  = Ok {| Standard := []; Large := []; Extended := [] |}.
Proof.
  split.
  - apply (proj1 (parseRangeCommunitiesSet_sizes
                    SpecModel.IntListFromStrings SpecModel.RangeType _)).
    reflexivity.
  - apply (proj2 (proj2 (parseRangeCommunitiesSet_sizes
                           SpecModel.IntListFromStrings SpecModel.RangeType _))).
    apply (blank_more nbsp); [apply whiteSpace_test; reflexivity |].
    apply (blank_more (String newline ""));
      [apply whiteSpace_test; reflexivity |].
    apply blank_one, whiteSpace_test. reflexivity.
Defined.

(** A body of one line [key=label] whose key has no equals sign sets the
    trimmed key to the trimmed label and logs nothing: the line is cut at
    its first equals sign only, so the label may contain more of them.
    Trimmed is without the white space of Unicode around it: when the key
    and the label stand between white space, they are what is set. *)
Theorem parseAndMergeCommunities_one_line (M : Type)
  (set : M -> string -> string -> M) (communities : M) (key label : string) :
  occurs "=" key = false ->
  occurs newline key = false -> occurs newline label = false ->
  parseAndMergeCommunities M set communities (key +:+ String "=" label)
  = (set communities (TrimSpace key) (TrimSpace label), []) /\
  (forall p1 k p2 p3 v p4,
      blank p1 -> blank p2 -> blank p3 -> blank p4 ->
      trimmed k -> trimmed v ->
      key = p1 +:+ k +:+ p2 -> label = p3 +:+ v +:+ p4 ->
      parseAndMergeCommunities M set communities (key +:+ String "=" label)
      = (set communities k v, [])).
Proof.
  intros Heq Hk Hl.
  assert (E : parseAndMergeCommunities M set communities
                (key +:+ String "=" label)
              = (set communities (TrimSpace key) (TrimSpace label), [])).
  { unfold parseAndMergeCommunities. rewrite Split_none.
    - cbn [fold_left]. rewrite mergeLine_eq. unfold entryOf.
      rewrite (cut_app key label "=" Heq). reflexivity.
    - rewrite occurs_append, Hk. simpl. exact Hl. }
  split; [exact E |].
  intros p1 k p2 p3 v p4 H1 H2 H3 H4 Hkt Hvt Ekey Elabel. rewrite E.
  rewrite Ekey, Elabel, (TrimSpace_spec p1 k p2 H1 H2 Hkt),
    (TrimSpace_spec p3 v p4 H3 H4 Hvt). reflexivity.
Qed.

Lemma parseAndMergeCommunities_one_line_witness :
  fst (parseAndMergeCommunities _ SpecModel.Directory_Set ∅
         ((nbsp +:+ "65000:1" +:+ " ") +:+ String "=" (enQuad +:+ "a=b" +:+ nbsp)))
  !! "65000:1" = Some "a=b".
Proof.
  assert (Hn : blank nbsp) by (apply blank_one, whiteSpace_test; reflexivity).
  assert (Hq : blank enQuad) by (apply blank_one, whiteSpace_test; reflexivity).
  assert (Hs : blank " ") by (apply blank_one, whiteSpace_test; reflexivity).
  rewrite (proj2 (parseAndMergeCommunities_one_line _ SpecModel.Directory_Set ∅
                    (nbsp +:+ "65000:1" +:+ " ") (enQuad +:+ "a=b" +:+ nbsp)
                    eq_refl eq_refl eq_refl)
             nbsp "65000:1" " " enQuad "a=b" nbsp Hn Hs Hq Hn
             (trimmedb_trimmed "65000:1" eq_refl)
             (trimmedb_trimmed "a=b" eq_refl) eq_refl eq_refl).
  reflexivity.
Defined.

(** ** Observing a route *)

Lemma newLoc_unallocated (h : heap) (held : list loc) :
  h !! newLoc h held = None.
Proof.
  apply not_elem_of_dom. intros Hin.
  apply (is_fresh (dom h ∪ list_to_set held : gset loc)).
  apply elem_of_union. left. exact Hin.
Qed.

Lemma newLoc_not_held (h : heap) (held : list loc) : newLoc h held ∉ held.
Proof.
  intros Hin. apply (is_fresh (dom h ∪ list_to_set held : gset loc)).
  apply elem_of_union. right. apply elem_of_list_to_set. exact Hin.
Qed.

Lemma indexed_agree (h h' : heap) (g : SearchFilterGroup) :
  (forall l, l ∈ Filters g -> h' !! l = h !! l) -> indexed h g -> indexed h' g.
Proof.
  intros Hsame (m & Hm & Hinv). exists m. split; [exact Hm |].
  intros ref i. rewrite (Hinv ref i).
  split; intros (l & f & Hl & Hf & Hr); exists l, f;
    (split; [exact Hl | split; [| exact Hr]]).
  - rewrite Hsame; [exact Hf | eapply list_elem_of_lookup_2; exact Hl].
  - rewrite <- Hsame; [exact Hf | eapply list_elem_of_lookup_2; exact Hl].
Qed.

Lemma grounded_agree (h h' : heap) (g : SearchFilterGroup) :
  (forall l, l ∈ Filters g -> h' !! l = h !! l) -> grounded h g -> grounded h' g.
Proof. intros Hsame Hg l Hl. rewrite (Hsame l Hl). exact (Hg l Hl). Qed.

Lemma countOf_agree (h h' : heap) (g : SearchFilterGroup) (ref : string) :
  (forall l, l ∈ Filters g -> h' !! l = h !! l) ->
  countOf h' g ref = countOf h g ref.
Proof.
  intros Hsame. unfold countOf.
  destruct (filtersIdx g ≫= (.!! ref)) as [i |]; [| reflexivity].
  destruct (Filters g !! i) as [l |] eqn:Hl; [| reflexivity].
  simpl. rewrite Hsame; [reflexivity | eapply list_elem_of_lookup_2; exact Hl].
Qed.

Lemma alloc_agree (h : heap) (g : SearchFilterGroup) (n : loc)
  (f0 : SearchFilter) :
  h !! n = None -> grounded h g ->
  forall l, l ∈ Filters g -> <[n := f0]> h !! l = h !! l.
Proof.
  intros Hn Hg l Hl. apply lookup_insert_ne. intros E. subst l.
  destruct (Hg _ Hl) as [f Hf]. rewrite Hn in Hf. discriminate Hf.
Qed.

(** A new filter, allocated and added. *)
Lemma alloc_AddFilter_step (h : heap) (g : SearchFilterGroup) (n : loc)
  (f0 : SearchFilter) (ref : string) :
  h !! n = None ->
  indexed h g -> grounded h g ->
  filterValueAsString (Value f0) = Ok ref ->
  exists h2 g2,
    AddFilter (<[n := f0]> h) g n = Ok (h2, g2) /\
    indexed h2 g2 /\ grounded h2 g2 /\ extendsValues h h2 /\
    Key g2 = Key g /\
    (Filters g2 = Filters g \/ Filters g2 = Filters g ++ [n]) /\
    (forall x, is_Some (h !! x) -> x ∉ Filters g -> h2 !! x = h !! x) /\
    (min_int <= countOf h g ref + 1 <= max_int ->
     forall r, countOf h2 g2 r
               = countOf h g r + (if String.eqb ref r then 1 else 0)).
Proof.
  intros Hn Hidx Hg Hr.
  pose proof (alloc_agree h g n f0 Hn Hg) as Hagree.
  rename n into l. set (h1 := <[l := f0]> h) in *.
  pose proof (indexed_agree h h1 g Hagree Hidx) as Hidx1.
  pose proof (grounded_agree h h1 g Hagree Hg) as Hg1.
  assert (Hl1 : h1 !! l = Some f0) by apply lookup_insert_eq.
  assert (Hext1 : forall x, is_Some (h !! x) -> h1 !! x = h !! x).
  { intros x [fx Hx]. apply lookup_insert_ne. intros E. subst x.
    rewrite Hn in Hx. discriminate Hx. }
  pose proof Hidx1 as (m & Hm & Hinv).
  destruct (AddFilter_indexed_step h1 g l f0 ref Hidx1 Hl1 Hr)
    as (h2 & g2 & Hadd & Hidx2 & Hs12 & Hkey).
  exists h2, g2. split; [exact Hadd | split; [exact Hidx2 |]].
  assert (Hext : extendsValues h h2).
  { intros x fx Hx.
    assert (Hx1 : h1 !! x = Some fx)
      by (rewrite Hext1; [exact Hx | eexists; exact Hx]).
    exact (sameValues_lookup h1 h2 x fx Hs12 Hx1). }
  assert (Hcount : min_int <= countOf h g ref + 1 <= max_int ->
            forall r, countOf h2 g2 r
                      = countOf h g r + (if String.eqb ref r then 1 else 0)).
  { intros Hrange. rewrite <- (countOf_agree h h1 g ref Hagree) in Hrange.
    destruct (AddFilter_count_step h1 g l f0 ref Hidx1 Hl1 Hr Hrange)
      as (h2' & g2' & Hadd' & Hcount).
    rewrite Hadd in Hadd'. injection Hadd' as <- <-.
    intros r. rewrite Hcount. rewrite (countOf_agree h h1 g r Hagree).
    reflexivity. }
  destruct (AddFilter_indexed_cases h1 g l f0 ref m Hm Hinv Hl1 Hr)
    as [(i & l0 & pf & Hi & Hl0 & Hpf & _ & Hadd2) | (Hi & Hnin & Hadd2)];
    rewrite Hadd in Hadd2; injection Hadd2 as -> ->.
  - split; [| split; [exact Hext | split; [reflexivity | split; [left; reflexivity |]]]].
    + intros x Hx. destruct (Hg1 x Hx) as [fx Hfx].
      destruct (sameValues_lookup h1 _ x fx Hs12 Hfx) as (fx' & Hfx' & _).
      eexists. exact Hfx'.
    + split; [| exact Hcount].
      intros x Hx Hnin. rewrite lookup_insert_ne.
      * apply Hext1. exact Hx.
      * intros <-. apply Hnin. eapply list_elem_of_lookup_2. exact Hl0.
  - split; [| split; [exact Hext | split; [reflexivity | split; [right; reflexivity |]]]].
    + intros x Hx. simpl in Hx. apply elem_of_app in Hx as [Hx | Hx].
      * destruct (Hg1 x Hx) as [fx Hfx].
        destruct (sameValues_lookup h1 _ x fx Hs12 Hfx) as (fx' & Hfx' & _).
        eexists. exact Hfx'.
      * apply list_elem_of_singleton in Hx. subst x.
        rewrite lookup_insert_eq. eexists. reflexivity.
    + split; [| exact Hcount].
      intros x Hx _. rewrite lookup_insert_ne.
      * apply Hext1. exact Hx.
      * intros <-. destruct Hx as [fx Hx]. 
        rewrite Hn in Hx. discriminate Hx.
Qed.

Lemma extendsValues_trans (h1 h2 h3 : heap) :
  extendsValues h1 h2 -> extendsValues h2 h3 -> extendsValues h1 h3.
Proof.
  intros H12 H23 l f Hf. destruct (H12 l f Hf) as (f2 & Hf2 & Hv2).
  destruct (H23 l f2 Hf2) as (f3 & Hf3 & Hv3).
  exists f3. split; [exact Hf3 | congruence].
Qed.

Lemma extendsValues_unallocated (h h' : heap) (x : loc) :
  extendsValues h h' -> h' !! x = None -> h !! x = None.
Proof.
  intros Hext Hx. destruct (h !! x) as [f |] eqn:Hf; [| reflexivity].
  destruct (Hext x f Hf) as (f' & Hf' & _). congruence.
Qed.

Lemma loopKeeps_refl (h : heap) (g : SearchFilterGroup) :
  indexed h g -> grounded h g -> loopKeeps h g h g.
Proof.
  intros Hidx Hg. repeat split; try assumption; try reflexivity.
  - intros l f Hf. exists f. split; [exact Hf | reflexivity].
  - intros x Hx. left. exact Hx.
Qed.

Lemma loopKeeps_step (h : heap) (g : SearchFilterGroup) (n : loc) (h2 : heap)
  (g2 : SearchFilterGroup) (h' : heap) (g' : SearchFilterGroup) :
  extendsValues h h2 -> Key g2 = Key g ->
  h !! n = None ->
  (Filters g2 = Filters g \/ Filters g2 = Filters g ++ [n]) ->
  (forall x, is_Some (h !! x) -> x ∉ Filters g -> h2 !! x = h !! x) ->
  loopKeeps h2 g2 h' g' -> loopKeeps h g h' g'.
Proof.
  intros Hext2 Hkey2 Hn Hfs2 Hframe2
    (Hidx' & Hg' & Hext' & Hkey' & Hnew' & Hframe').
  split; [exact Hidx' | split; [exact Hg' |]].
  split; [exact (extendsValues_trans h h2 h' Hext2 Hext') |].
  split; [congruence |]. split.
  - intros x Hx. destruct (Hnew' x Hx) as [Hin | Hnone].
    + destruct Hfs2 as [E | E]; rewrite E in Hin; [left; exact Hin |].
      apply elem_of_app in Hin as [Hin | Hin]; [left; exact Hin |].
      apply list_elem_of_singleton in Hin. subst x. right.
      exact Hn.
    + right. exact (extendsValues_unallocated h h2 x Hext2 Hnone).
  - intros x Hx Hnin. rewrite Hframe'.
    + exact (Hframe2 x Hx Hnin).
    + rewrite (Hframe2 x Hx Hnin). exact Hx.
    + destruct Hfs2 as [-> | ->]; [exact Hnin |].
      intros Hin. apply elem_of_app in Hin as [Hin | Hin]; [exact (Hnin Hin) |].
      apply list_elem_of_singleton in Hin. subst x.
      destruct Hx as [fx Hx]. rewrite Hn in Hx. discriminate Hx.
Qed.

(** The loop over the standard or large communities of a route. *)
Lemma addCommunityFilters_loop (cs : list Community) :
  forall (held : list loc) (h : heap) (g : SearchFilterGroup),
    indexed h g -> grounded h g -> roomFor h g (length cs) ->
    exists h' g',
      addCommunityFilters held h g cs = Ok (h', g') /\
      loopKeeps h g h' g' /\
      forall ref, countOf h' g' ref = countOf h g ref + stringCount ref cs.
Proof.
  induction cs as [| c cs IH]; intros held h g Hidx Hg Hbound.
  - exists h, g. split; [reflexivity |].
    split; [exact (loopKeeps_refl h g Hidx Hg) |].
    intros ref. unfold stringCount. simpl. lia.
  - set (f0 := {| Cardinality := 0; Name := Community_String c;
                  Value := VCommunity c |}).
    destruct (alloc_AddFilter_step h g (newLoc h held) f0 (Community_String c)
                (newLoc_unallocated h held) Hidx Hg eq_refl)
      as (h2 & g2 & Hadd & Hidx2 & Hg2 & Hext2 & Hkey2 & Hfs2 & Hframe2 & Hcount2).
    assert (Hrange : min_int <= countOf h g (Community_String c) + 1 <= max_int).
    { destruct (Hbound (Community_String c)) as [H0 Hmax]. simpl length in Hmax.
      rewrite min_int_value. lia. }
    specialize (Hcount2 Hrange).
    destruct (IH held h2 g2 Hidx2 Hg2) as (h' & g' & Hloop & Hkeeps & Hcount').
    { intros r. rewrite Hcount2. destruct (Hbound r) as [H0 Hmax].
      simpl length in Hmax. destruct (String.eqb (Community_String c) r); lia. }
    exists h', g'. split; [| split].
    + cbn [addCommunityFilters]. unfold alloc. fold f0. rewrite Hadd.
      cbn [mbind result_bind]. exact Hloop.
    + exact (loopKeeps_step h g (newLoc h held) h2 g2 h' g' Hext2 Hkey2
               (newLoc_unallocated h held) Hfs2 Hframe2 Hkeeps).
    + intros r. rewrite Hcount', Hcount2. unfold stringCount.
      cbn [List.filter]. destruct (String.eqb (Community_String c) r);
        simpl length; lia.
Qed.

(** The loop over the extended communities of a route. *)
Lemma addExtCommunityFilters_loop (cs : list ExtCommunity) :
  forall (held : list loc) (h : heap) (g : SearchFilterGroup),
    indexed h g -> grounded h g -> Forall printable cs ->
    exists h' g',
      addExtCommunityFilters held h g cs = Ok (h', g') /\ loopKeeps h g h' g'.
Proof.
  induction cs as [| c cs IH]; intros held h g Hidx Hg Hcs.
  - exists h, g. split; [reflexivity | exact (loopKeeps_refl h g Hidx Hg)].
  - inversion Hcs as [| c' cs' [name Hname] Hrest]; subst.
    set (f0 := {| Cardinality := 0; Name := name; Value := VExtCommunity c |}).
    destruct (alloc_AddFilter_step h g (newLoc h held) f0 name
                (newLoc_unallocated h held) Hidx Hg Hname)
      as (h2 & g2 & Hadd & Hidx2 & Hg2 & Hext2 & Hkey2 & Hfs2 & Hframe2 & _).
    destruct (IH held h2 g2 Hidx2 Hg2 Hrest) as (h' & g' & Hloop & Hkeeps).
    exists h', g'. split.
    + cbn [addExtCommunityFilters]. rewrite Hname. cbn [mbind result_bind].
      unfold alloc. fold f0. rewrite Hadd. cbn [mbind result_bind]. exact Hloop.
    + exact (loopKeeps_step h g (newLoc h held) h2 g2 h' g' Hext2 Hkey2
               (newLoc_unallocated h held) Hfs2 Hframe2 Hkeeps).
Qed.

Lemma updateGroup_at (s : SearchFilters) (key : string) (i : nat)
  (body : SearchFilterGroup -> result (heap * SearchFilterGroup))
  (g : SearchFilterGroup) (h' : heap) (g' : SearchFilterGroup) :
  groupPosition key = Some i -> s !! i = Some g -> body g = Ok (h', g') ->
  updateGroup s key body = Ok (h', <[i := g']> s).
Proof.
  intros Hpos Hs Hbody. unfold updateGroup, groupByKey, GetGroupByKey.
  rewrite Hpos, Hs. cbn [mbind result_bind]. rewrite Hbody.
  cbn [mbind result_bind]. reflexivity.
Qed.

(** [UpdateFromRoute] counts the communities of a route.  On a filter set
    whose three community groups have a faithful index, hold no nil pointer
    and share no filter, and for a route whose extended communities can be
    printed, the call returns; the set keeps its length and every other
    group; and in the groups of the standard and of the large communities
    the count of every canonical string has grown by the number of the
    route's communities that have it: a community the route lists twice is
    counted twice. *)
Theorem UpdateFromRoute_counts (h : heap) (s : SearchFilters)
  (gc ge gl : SearchFilterGroup)
  (communities : list Community) (extCommunities : list ExtCommunity)
  (largeCommunities : list Community) :
  s !! 2%nat = Some gc -> s !! 3%nat = Some ge -> s !! 4%nat = Some gl ->
  indexed h gc -> indexed h ge -> indexed h gl ->
  grounded h gc -> grounded h ge -> grounded h gl ->
  apart gc ge -> apart gc gl -> apart ge gl ->
  Forall printable extCommunities ->
  roomFor h gc (length communities) ->
  roomFor h gl (length largeCommunities) ->
  exists h' s' gc' gl',
    UpdateFromRoute h s communities extCommunities largeCommunities
    = Ok (h', s') /\
    length s' = length s /\
    (forall i, i <> 2%nat -> i <> 3%nat -> i <> 4%nat -> s' !! i = s !! i) /\
    s' !! 2%nat = Some gc' /\ s' !! 4%nat = Some gl' /\
    (forall ref, countOf h' gc' ref
                 = countOf h gc ref + stringCount ref communities) /\
    (forall ref, countOf h' gl' ref
                 = countOf h gl ref + stringCount ref largeCommunities).
Proof.
  intros Hs2 Hs3 Hs4 Hic Hie Hil Hgc Hge Hgl Hce Hcl Hel Hext Hrc Hrl.
  destruct (addCommunityFilters_loop communities (allLocs s) h gc Hic Hgc Hrc)
    as (h1 & gc' & Hloop1 & (Hic1 & Hgc1 & Hext1 & _ & Hnew1 & Hframe1) & Hcount1).
  assert (Hage : forall l, l ∈ Filters ge -> h1 !! l = h !! l).
  { intros l Hl. apply Hframe1; [exact (Hge l Hl) |].
    intros Hin. exact (Hce l Hin Hl). }
  destruct (addExtCommunityFilters_loop extCommunities
              (allLocs (<[2%nat := gc']> s)) h1 ge
              (indexed_agree h h1 ge Hage Hie) (grounded_agree h h1 ge Hage Hge)
              Hext)
    as (h2 & ge' & Hloop2 & (_ & _ & Hext2 & _ & Hnew2 & Hframe2)).
  assert (Hagl : forall l, l ∈ Filters gl -> h2 !! l = h !! l).
  { intros l Hl.
    assert (H1 : h1 !! l = h !! l).
    { apply Hframe1; [exact (Hgl l Hl) |]. intros Hin. exact (Hcl l Hin Hl). }
    rewrite <- H1. apply Hframe2.
    - rewrite H1. exact (Hgl l Hl).
    - intros Hin. exact (Hel l Hin Hl). }
  destruct (addCommunityFilters_loop largeCommunities
              (allLocs (<[3%nat := ge']> (<[2%nat := gc']> s))) h2 gl
              (indexed_agree h h2 gl Hagl Hil) (grounded_agree h h2 gl Hagl Hgl))
    as (h3 & gl' & Hloop3 & (_ & _ & _ & _ & _ & Hframe3) & Hcount3).
  { intros ref. rewrite (countOf_agree h h2 gl ref Hagl). exact (Hrl ref). }
  pose proof (lookup_lt_Some _ _ _ Hs2) as Hlen2.
  pose proof (lookup_lt_Some _ _ _ Hs4) as Hlen4.
  exists h3, (<[4%nat := gl']> (<[3%nat := ge']> (<[2%nat := gc']> s))), gc', gl'.
  split; [| split; [| split; [| split; [| split; [| split]]]]].
  - unfold UpdateFromRoute.
    rewrite (updateGroup_at s SearchKeyCommunities 2 _ gc h1 gc' eq_refl Hs2 Hloop1).
    cbn [mbind result_bind].
    rewrite (updateGroup_at (<[2%nat := gc']> s) SearchKeyExtCommunities 3 _
               ge h2 ge' eq_refl).
    + cbn [mbind result_bind].
      apply (updateGroup_at _ SearchKeyLargeCommunities 4 _ gl h3 gl' eq_refl).
      * rewrite !list_lookup_insert_ne by lia. exact Hs4.
      * exact Hloop3.
    + rewrite list_lookup_insert_ne by lia. exact Hs3.
    + exact Hloop2.
  - rewrite !length_insert. reflexivity.
  - intros i H2 H3 H4. rewrite !list_lookup_insert_ne by congruence. reflexivity.
  - rewrite !list_lookup_insert_ne by lia. apply list_lookup_insert_eq. exact Hlen2.
  - apply list_lookup_insert_eq. rewrite !length_insert. exact Hlen4.
  - intros ref. rewrite <- Hcount1. apply countOf_agree. intros x Hx.
    assert (Hne : x ∉ Filters ge).
    { intros Hin. destruct (Hnew1 x Hx) as [Hc | Hnone].
      - exact (Hce x Hc Hin).
      - destruct (Hge x Hin) as [f Hf]. congruence. }
    assert (Hnl : x ∉ Filters gl).
    { intros Hin. destruct (Hnew1 x Hx) as [Hc | Hnone].
      - exact (Hcl x Hc Hin).
      - destruct (Hgl x Hin) as [f Hf]. congruence. }
    assert (H12 : h2 !! x = h1 !! x) by (apply Hframe2; [exact (Hgc1 x Hx) | exact Hne]).
    rewrite <- H12. apply Hframe3; [| exact Hnl].
    rewrite H12. exact (Hgc1 x Hx).
  - intros ref. rewrite Hcount3. rewrite (countOf_agree h h2 gl ref Hagl).
    reflexivity.
Qed.

Lemma UpdateFromRoute_counts_witness :
  exists h' s' gc',
    UpdateFromRoute exHeap NewSearchFilters
      [[65000; 100]; [65000; 200]; [65000; 100]]
      [[EString "rt"; EInt 65000; EInt 1]]
      [[65000; 1; 2]] = Ok (h', s') /\
    s' !! 2%nat = Some gc' /\
    countOf h' gc' "65000:100" = 2 /\ countOf h' gc' "65000:200" = 1.
Proof.
  destruct (UpdateFromRoute_counts exHeap NewSearchFilters
              (emptyGroup SearchKeyCommunities)
              (emptyGroup SearchKeyExtCommunities)
              (emptyGroup SearchKeyLargeCommunities)
              [[65000; 100]; [65000; 200]; [65000; 100]]
              [[EString "rt"; EInt 65000; EInt 1]]
              [[65000; 1; 2]])
    as (h' & s' & gc' & gl' & Hcall & _ & _ & Hs2 & _ & Hcount & _);
    try reflexivity;
    try apply emptyGroup_indexed;
    try (intros l Hl; apply elem_of_nil in Hl; contradiction).
  - repeat constructor. exists "rt:65000:1". reflexivity.
  - intros ref. rewrite max_int_value. vm_compute. split; discriminate.
  - intros ref. rewrite max_int_value. vm_compute. split; discriminate.
  - exists h', s', gc'. split; [exact Hcall | split; [exact Hs2 |]].
    rewrite !Hcount. split; reflexivity.
Defined.

(** ** Address families *)

Section AddrFamilyProperties.

Variable AddrFamilyIPv4 : Z.
Variable AddrFamilyIPv6 : Z.

Lemma addFilterAddrFamily_new (h : heap) (s : SearchFilters)
  (g : SearchFilterGroup) (m : gmap string nat) (af : Z) :
  s !! 5%nat = Some g -> filtersIdx g = Some m -> m !! Itoa af = None ->
  AddrFamilies.addFilterAddrFamily AddrFamilyIPv6 h s af
  = Ok (<[newLoc h (allLocs s) :=
            {| Cardinality := 1;
               Name := if af =? AddrFamilyIPv6 then "IPv6" else "IPv4";
               Value := VInt af |}]> h,
        <[5%nat := {| Key := Key g;
                      Filters := Filters g ++ [newLoc h (allLocs s)];
                      filtersIdx := Some (<[Itoa af := length (Filters g)]> m) |}]> s).
Proof.
  intros Hs Hm Hnone. unfold AddrFamilies.addFilterAddrFamily.
  apply (updateGroup_at s SearchKeyAddrFamily 5 _ g _ _ eq_refl Hs).
  unfold alloc.
  set (f0 := {| Cardinality := 1;
                Name := if af =? AddrFamilyIPv6 then "IPv6" else "IPv4";
                Value := VInt af |}).
  rewrite (AddFilter_absent (<[newLoc h (allLocs s) := f0]> h) g
             (newLoc h (allLocs s)) m
             (Itoa af) f0 Hm Hnone (lookup_insert_eq _ _ _) eq_refl).
  rewrite insert_insert_eq. reflexivity.
Qed.

Lemma newLoc_ne_allocated (h : heap) (held : list loc) (l : loc)
  (f : SearchFilter) :
  h !! l = Some f -> newLoc h held <> l.
Proof.
  intros Hl E. rewrite <- E in Hl. rewrite newLoc_unallocated in Hl.
  discriminate Hl.
Qed.

Lemma insert_fresh_keeps (h : heap) (held : list loc) (f0 : SearchFilter)
  (l : loc) (f : SearchFilter) :
  h !! l = Some f -> <[newLoc h held := f0]> h !! l = Some f.
Proof.
  intros Hl. rewrite lookup_insert_ne; [exact Hl |].
  exact (newLoc_ne_allocated h held l f Hl).
Qed.

(** [SetFilterAddrFamilies] on a set whose address family group is still
    empty, the two constants being different values of a [uint8]: the call
    returns, only the address family group changes, no filter that existed
    is touched, the group gets one filter for every enabled family, and
    [MatchAny] on it accepts every route when no family is enabled and
    otherwise exactly the routes of an enabled family. *)
Theorem SetFilterAddrFamilies_matches (h : heap) (s : SearchFilters)
  (ip4 ip6 : bool) :
  0 <= AddrFamilyIPv4 <= 255 -> 0 <= AddrFamilyIPv6 <= 255 ->
  AddrFamilyIPv4 <> AddrFamilyIPv6 ->
  s !! 5%nat = Some (emptyGroup SearchKeyAddrFamily) ->
  exists h' s' g',
    AddrFamilies.SetFilterAddrFamilies AddrFamilyIPv4 AddrFamilyIPv6 h s ip4 ip6
    = Ok (h', s') /\
    s' = <[5%nat := g']> s /\
    Key g' = SearchKeyAddrFamily /\
    length (Filters g') = (Nat.b2n ip4 + Nat.b2n ip6)%nat /\
    (forall l f, h !! l = Some f -> h' !! l = Some f) /\
    forall r,
      MatchAny h' g' r
      = Ok (negb (ip4 || ip6)
            || (ip4 && MatchAddrFamily r AddrFamilyIPv4)
            || (ip6 && MatchAddrFamily r AddrFamilyIPv6)).
Proof.
  intros H4 H6 Hne Hs.
  pose proof (lookup_lt_Some _ _ _ Hs) as Hlen.
  assert (Hmod4 : AddrFamilyIPv4 mod 256 = AddrFamilyIPv4)
    by (apply Z.mod_small; lia).
  assert (Hmod6 : AddrFamilyIPv6 mod 256 = AddrFamilyIPv6)
    by (apply Z.mod_small; lia).
  unfold AddrFamilies.SetFilterAddrFamilies.
  destruct ip4, ip6.
  - rewrite (addFilterAddrFamily_new h s _ ∅ AddrFamilyIPv4 Hs eq_refl
               (lookup_empty _)).
    cbn [mbind result_bind].
    set (l1 := newLoc h (allLocs s)).
    set (f1 := {| Cardinality := 1;
                  Name := if AddrFamilyIPv4 =? AddrFamilyIPv6 then "IPv6" else "IPv4";
                  Value := VInt AddrFamilyIPv4 |}).
    set (h1 := <[l1 := f1]> h).
    set (g1 := {| Key := Key (emptyGroup SearchKeyAddrFamily);
                  Filters := Filters (emptyGroup SearchKeyAddrFamily) ++ [l1];
                  filtersIdx :=
                    Some (<[Itoa AddrFamilyIPv4
                            := length (Filters (emptyGroup SearchKeyAddrFamily))]> ∅) |}).
    rewrite (addFilterAddrFamily_new h1 (<[5%nat := g1]> s) g1
               (<[Itoa AddrFamilyIPv4 := 0%nat]> ∅) AddrFamilyIPv6).
    + eexists _, _, _. split; [reflexivity |].
      split; [apply list_insert_insert_eq |].
      split; [reflexivity | split; [reflexivity | split]].
      * intros l f Hl. apply insert_fresh_keeps. unfold h1.
        apply insert_fresh_keeps. exact Hl.
      * intros r. unfold MatchAny. cbn.
        unfold deref.
        rewrite (insert_fresh_keeps h1 _ _ l1 f1 (lookup_insert_eq _ _ _)).
        cbn. rewrite Hmod4.
        destruct (MatchAddrFamily r AddrFamilyIPv4); [reflexivity |].
        rewrite lookup_insert_eq. cbn. rewrite Hmod6.
        destruct (MatchAddrFamily r AddrFamilyIPv6); reflexivity.
    + apply list_lookup_insert_eq. exact Hlen.
    + reflexivity.
    + cbn. rewrite lookup_insert_ne; [apply lookup_empty |].
      intros E. apply Itoa_inj in E. exact (Hne E).
  - rewrite (addFilterAddrFamily_new h s _ ∅ AddrFamilyIPv4 Hs eq_refl
               (lookup_empty _)).
    cbn [mbind result_bind].
    eexists _, _, _. split; [reflexivity |].
    split; [reflexivity |].
    split; [reflexivity | split; [reflexivity | split]].
    + intros l f Hl. apply insert_fresh_keeps. exact Hl.
    + intros r. unfold MatchAny. cbn. unfold deref.
      rewrite lookup_insert_eq. cbn. rewrite Hmod4.
      destruct (MatchAddrFamily r AddrFamilyIPv4); reflexivity.
  - cbn [mbind result_bind].
    rewrite (addFilterAddrFamily_new h s _ ∅ AddrFamilyIPv6 Hs eq_refl
               (lookup_empty _)).
    eexists _, _, _. split; [reflexivity |].
    split; [reflexivity |].
    split; [reflexivity | split; [reflexivity | split]].
    + intros l f Hl. apply insert_fresh_keeps. exact Hl.
    + intros r. unfold MatchAny. cbn. unfold deref.
      rewrite lookup_insert_eq. cbn. rewrite Hmod6.
      destruct (MatchAddrFamily r AddrFamilyIPv6); reflexivity.
  - cbn [mbind result_bind].
    exists h, s, (emptyGroup SearchKeyAddrFamily). split; [reflexivity |].
    split; [symmetry; apply list_insert_id; exact Hs |].
    split; [reflexivity | split; [reflexivity | split]].
    + intros l f Hl. exact Hl.
    + intros r. reflexivity.
Qed.

End AddrFamilyProperties.

(** With 1 and 2 for the two constants, on a new filter set. *)
Lemma SetFilterAddrFamilies_matches_witness :
  exists h' s' g',
    AddrFamilies.SetFilterAddrFamilies 1 2 exHeap NewSearchFilters true false
    = Ok (h', s') /\
    s' = <[5%nat := g']> NewSearchFilters /\
    Key g' = SearchKeyAddrFamily /\
    length (Filters g') = 1%nat /\
    (forall l f, exHeap !! l = Some f -> h' !! l = Some f) /\
    forall r, MatchAny h' g' r
              = Ok (negb (true || false) || (true && MatchAddrFamily r 1)
                    || (false && MatchAddrFamily r 2)).
Proof.
  apply (SetFilterAddrFamilies_matches 1 2 exHeap NewSearchFilters true false);
    [lia | lia | discriminate | reflexivity].
Defined.

(** ** The set algebra, on values *)

(** On the values of one facet [Equal] is the equality of the data
    model. *)
Lemma Equal_sameValue (i : nat) (f g : SearchFilter) :
  facetKindOk i (Value f) = true -> facetKindOk i (Value g) = true ->
  Equal f g = Ok (sameValue (Value f) (Value g)).
Proof.
  destruct f as [cf nf vf], g as [cg ng vg]; unfold Equal; simpl.
  intros Hf Hg.
  assert (Hcom : forall a b : list Z,
            (if negb (length a =? length b)%nat then Ok false
             else Ok (components_eqb a b))
            = Ok (bool_decide (a = b))).
  { intros a b. destruct (Nat.eqb_spec (length a) (length b)) as [Hlen | Hlen];
      simpl; f_equal.
    - case_bool_decide as Hab.
      + apply (components_eqb_eq a b Hlen). exact Hab.
      + destruct (components_eqb a b) eqn:E; [| reflexivity].
        apply (components_eqb_eq a b Hlen) in E. contradiction.
    - case_bool_decide as Hab; [| reflexivity]. subst b. contradiction. }
  destruct i as [|[|[|[|[|[|i]]]]]];
    destruct vf as [| x | x | x | [p|] | a | a]; try discriminate Hf;
    destruct vg as [| y | y | y | [q|] | b | b]; try discriminate Hg;
    simpl; try reflexivity; try apply Hcom.
  destruct a as [|[ta|] [|[|xa] [|[|ya] [|]]]]; try discriminate Hf.
  destruct b as [|[tb|] [|[|xb] [|[|yb] [|]]]]; try discriminate Hg.
  simpl. f_equal.
  destruct (String.eqb_spec ta tb) as [-> | Ht], (Z.eqb_spec xa xb) as [-> | Hx],
           (Z.eqb_spec ya yb) as [-> | Hy]; simpl;
    case_bool_decide as E; try reflexivity; try congruence.
Qed.

Lemma equalAt_sameValueAt (h : heap) (i : nat) (x l : loc) :
  locTyped h i x = true -> locTyped h i l = true ->
  equalAt h x l = Ok (sameValueAt h x l).
Proof.
  intros Hx Hl.
  apply locTyped_inv in Hx as (f & Hf & Hkf).
  apply locTyped_inv in Hl as (o & Ho & Hko).
  rewrite (equalAt_Equal h x l f o Hf Ho).
  unfold sameValueAt. rewrite Hf, Ho. exact (Equal_sameValue i f o Hkf Hko).
Qed.

(** [FindFilter] returns the counterpart. *)
Lemma FindFilter_counterpart (h : heap) (i : nat) (fs : list loc) (l : loc) :
  filtersTyped h i fs = true -> locTyped h i l = true ->
  FindFilter h fs l = Ok (counterpart h fs l).
Proof.
  intros Hfs Hl. induction fs as [| x fs IH]; [reflexivity |].
  simpl in Hfs. apply andb_true_iff in Hfs as [Hx Hfs].
  cbn [FindFilter counterpart List.find].
  rewrite (equalAt_sameValueAt h i x l Hx Hl). cbn [mbind result_bind].
  destruct (sameValueAt h x l); [reflexivity | exact (IH Hfs)].
Qed.

Lemma hasValue_counterpart (h : heap) (fs : list loc) (l : loc) :
  hasValue h fs l
  = match counterpart h fs l with Some _ => true | None => false end.
Proof.
  unfold hasValue, counterpart.
  induction fs as [| x fs IH]; simpl; [reflexivity |].
  destruct (sameValueAt h x l); [reflexivity | exact IH].
Qed.

Lemma Contains_hasValue (h : heap) (i : nat) (fs : list loc) (l : loc) :
  filtersTyped h i fs = true -> locTyped h i l = true ->
  Contains h fs l = Ok (hasValue h fs l).
Proof.
  intros Hfs Hl. unfold Contains.
  rewrite (FindFilter_counterpart h i fs l Hfs Hl), hasValue_counterpart.
  reflexivity.
Qed.

Lemma isContained_hasValue (h : heap) (i : nat) (fs : list loc) (l : loc) :
  filtersTyped h i fs = true -> locTyped h i l = true ->
  isContained h fs l = hasValue h fs l.
Proof.
  intros Hfs Hl. unfold isContained.
  rewrite (Contains_hasValue h i fs l Hfs Hl). destruct (hasValue h fs l); reflexivity.
Qed.

(** On the values of one facet the list has no duplicate for [Contains]
    exactly when its values are distinct. *)
Lemma noDupFrom_distinct (h : heap) (i : nat) (rest : list loc) :
  forall pre,
    filtersTyped h i pre = true -> filtersTyped h i rest = true ->
    (noDupFrom h pre rest = true <->
     forall j y, rest !! j = Some y -> hasValue h (pre ++ take j rest) y = false).
Proof.
  induction rest as [| l rest IH]; intros pre Hpre Hrest.
  - split; [intros _ j y Hj; discriminate Hj | reflexivity].
  - simpl in Hrest. apply andb_true_iff in Hrest as [Hl Hrest].
    cbn [noDupFrom]. rewrite (Contains_hasValue h i pre l Hpre Hl).
    assert (Hpre' : filtersTyped h i (pre ++ [l]) = true).
    { rewrite filtersTyped_app, Hpre. simpl. rewrite Hl. reflexivity. }
    split.
    + intros Hn j y Hj.
      destruct (hasValue h pre l) eqn:E; [discriminate Hn |].
      destruct j as [| j].
      * injection Hj as <-. simpl. rewrite app_nil_r. exact E.
      * simpl in Hj. cbn [take].
        replace (pre ++ l :: take j rest) with ((pre ++ [l]) ++ take j rest)
          by (rewrite <- app_assoc; reflexivity).
        exact (proj1 (IH (pre ++ [l]) Hpre' Hrest) Hn j y Hj).
    + intros Hall.
      pose proof (Hall 0%nat l eq_refl) as E. simpl in E.
      rewrite app_nil_r in E. rewrite E.
      apply (IH (pre ++ [l]) Hpre' Hrest). intros j y Hj.
      rewrite <- app_assoc. exact (Hall (S j) y Hj).
Qed.

Lemma noDuplicates_distinct (h : heap) (i : nat) (fs : list loc) :
  filtersTyped h i fs = true ->
  (noDuplicates h fs = true <-> distinctValues h fs).
Proof.
  intros Hfs. unfold noDuplicates, distinctValues.
  exact (noDupFrom_distinct h i fs [] eq_refl Hfs).
Qed.

(** The index [rebuildIndex] writes. *)
Lemma rebuildIndex_from_rebuilt (h : heap) (key : string) (fs : list loc)
  (m : gmap string nat) :
  rebuildIndex_from h 0 fs ∅ = Ok m ->
  rebuilt h {| Key := key; Filters := fs; filtersIdx := Some m |}.
Proof.
  intros Hm. exists m. split; [reflexivity |]. intros ref i. simpl.
  rewrite (rebuildIndex_from_last h fs 0 ∅ m Hm ref i). split.
  - intros [(j & -> & Hj & Hlast) | [Hi _]].
    + split; assumption.
    + rewrite lookup_empty in Hi. discriminate Hi.
  - intros [Hi Hlast]. left. exists i. repeat split; assumption.
Qed.

(** C2: on two filter sets over the six facets whose left groups hold
    distinct values, [Combine] returns a new set: six new groups, stored
    where no group was.  It writes no filter and no group of before: the
    heap after the call is the heap before it, and the two sets have the
    groups they had.  The group of the new set at each position has the key
    of the left group; it starts with the left group's filters themselves,
    so with their labels and cardinalities, and continues with filters of
    the right group, in their order, none of which has a value of the left
    group; every value of either group is present in it; its values are
    distinct; its index is the one rebuilt from its filters. *)
Theorem Combine_union (h : heap) (G : groupStore) (A B : list gloc)
  (gsA gsB : SearchFilters) :
  groupsOf G A gsA -> groupsOf G B gsB ->
  setTyped h gsA -> setTyped h gsB ->
  (forall i g, gsA !! i = Some g -> distinctValues h (Filters g)) ->
  exists G' R gsR,
    Combine h G A B = Ok (h, G', R) /\
    (forall p g, G !! p = Some g -> G' !! p = Some g) /\
    groupsOf G' A gsA /\ groupsOf G' B gsB /\
    (forall q, q ∈ R -> G !! q = None /\ (q ∉ A) /\ (q ∉ B)) /\
    groupsOf G' R gsR /\ setTyped h gsR /\
    forall i gA gB, gsA !! i = Some gA -> gsB !! i = Some gB ->
      exists gR kept,
        gsR !! i = Some gR /\
        Key gR = Key gA /\
        Filters gR = Filters gA ++ kept /\
        sublist kept (Filters gB) /\
        (forall l, l ∈ kept -> hasValue h (Filters gA) l = false) /\
        (forall l, l ∈ Filters gA \/ l ∈ Filters gB ->
                   hasValue h (Filters gR) l = true) /\
        distinctValues h (Filters gR) /\
        rebuilt h gR.
Proof.
  intros HpA HpB [HlenA HtyA] [HlenB HtyB] HndA.
  pose proof (groupsOf_length G A gsA HpA) as HlA.
  pose proof (groupsOf_length G B gsB HpB) as HlB.
  destruct (eachGroup_ok (combineGroup h) (A ++ B) G B gsB HpB A gsA 0%nat G)
    as (G' & R & gsR & HR & HlenR & HgR & Hfr & Hfresh & Hat).
  { tauto. }
  { exact HpA. }
  { simpl. lia. }
  { intros k g og Hk Hok. simpl in Hok.
    destruct (combineGroup_spec h k g og (HtyA k g Hk) (HtyB k og Hok))
      as (kept & idx & Hc & _). eauto. }
  assert (HtyR : forall i gR, gsR !! i = Some gR ->
                              filtersTyped h i (Filters gR) = true).
  { intros i gR Hi.
    destruct (lookup_lt_is_Some_2 gsA i) as [gA HgA].
    { apply lookup_lt_Some in Hi. lia. }
    destruct (lookup_lt_is_Some_2 gsB i) as [gB HgB].
    { apply lookup_lt_Some in Hi. lia. }
    destruct (Hat i gA gB HgA HgB) as (x & Hx & Hbody).
    destruct (combineGroup_spec h i gA gB (HtyA i gA HgA) (HtyB i gB HgB))
      as (kept & idx & Hc & _ & _ & Hty & _).
    rewrite Hi in Hx. injection Hx as Hx. subst x. rewrite Hc in Hbody.
    injection Hbody as Hbody. subst gR. exact Hty. }
  exists G', R, gsR. split; [unfold Combine; rewrite HR; reflexivity |].
  split; [exact Hfr |].
  split; [exact (groupsOf_extends G G' A gsA Hfr HpA) |].
  split; [exact (groupsOf_extends G G' B gsB Hfr HpB) |].
  split.
  { intros q Hq. destruct (Hfresh q Hq) as [Hnone Hheld].
    split; [exact Hnone |].
    split; intros Hin; apply Hheld, elem_of_app; [left | right]; exact Hin. }
  split; [exact HgR |].
  split; [split; [lia | exact HtyR] |].
  intros i gA gB HgA HgB.
  destruct (Hat i gA gB HgA HgB) as (x & Hx & Hbody).
  destruct (combineGroup_spec h i gA gB (HtyA i gA HgA) (HtyB i gB HgB))
    as (kept & idx & Hc & Hidx & Hsub & Hty & Hall & Hnd & Hnew).
  rewrite Hc in Hbody. injection Hbody as Hbody. subst x.
  pose proof (HtyA i gA HgA) as HA. pose proof (HtyB i gB HgB) as HB.
  assert (HkeptB : forall l, l ∈ kept -> locTyped h i l = true).
  { intros l Hl. apply (filtersTyped_elem h i (Filters gB)); [exact HB |].
    exact (elem_of_sublist _ _ l Hl Hsub). }
  eexists _, kept. split; [exact Hx |]. simpl.
  split; [reflexivity | split; [reflexivity | split; [exact Hsub |]]].
  split; [| split; [| split]].
  - intros l Hl. pose proof (Hnew l Hl) as Hc'.
    rewrite (Contains_hasValue h i _ l HA (HkeptB l Hl)) in Hc'.
    injection Hc' as Hc'. exact Hc'.
  - intros l Hl.
    assert (Hlt : locTyped h i l = true).
    { destruct Hl as [Hl | Hl];
        [exact (filtersTyped_elem h i _ l HA Hl)
        | exact (filtersTyped_elem h i _ l HB Hl)]. }
    assert (Hc' : Contains h (Filters gA ++ kept) l = Ok true).
    { destruct Hl as [Hl | Hl]; [| exact (Hall l Hl)].
      apply (Contains_member h i); [exact Hty |].
      apply elem_of_app. left. exact Hl. }
    rewrite (Contains_hasValue h i _ l Hty Hlt) in Hc'.
    injection Hc' as Hc'. exact Hc'.
  - apply (noDuplicates_distinct h i _ Hty). apply Hnd.
    apply (noDuplicates_distinct h i _ HA). exact (HndA i gA HgA).
  - exact (rebuildIndex_from_rebuilt h (Key gA) _ idx Hidx).
Qed.

Lemma exA_distinct :
  forall i g, exA !! i = Some g -> distinctValues exHeap (Filters g).
Proof.
  intros i g Hi.
  do 6 (destruct i as [| i];
        [injection Hi as <-; intros [| j] y Hj;
           [reflexivity | try destruct j; discriminate Hj] |]).
  discriminate Hi.
Defined.

(** The aggregate [exA] with the request [exB]: the group of the ASNs is
    a new group; it has the filter of the ASN 64513, which only [exB] has;
    the groups of the two sets are as they were. *)
Lemma Combine_union_witness :
  exists G' R q gR,
    Combine exHeap exG exAp exBp = Ok (exHeap, G', R) /\
    groupsOf G' exAp exA /\ groupsOf G' exBp exB /\
    R !! 1%nat = Some q /\ exG !! q = None /\ G' !! q = Some gR /\
    hasValue exHeap (Filters gR) 5%nat = true /\
    distinctValues exHeap (Filters gR) /\
    rebuilt exHeap gR.
Proof.
  destruct (Combine_union exHeap exG exAp exBp exA exB exAp_groups exBp_groups
              exA_typed exB_typed exA_distinct)
    as (G' & R & gsR & HR & _ & HA & HB & Hfresh & HgR & _ & Hat).
  destruct (Hat 1%nat _ _ eq_refl eq_refl)
    as (gR & kept & Hi & _ & _ & _ & _ & Hall & Hnd & Hidx).
  destruct (groupsOf_lookup G' R gsR 1%nat gR HgR Hi) as (q & Hq & HgRq).
  exists G', R, q, gR.
  split; [exact HR | split; [exact HA | split; [exact HB |]]].
  split; [exact Hq |].
  split; [apply (Hfresh q); eapply list_elem_of_lookup_2; exact Hq |].
  split; [exact HgRq | split; [| split]].
  - apply Hall. right. right. left.
  - exact Hnd.
  - exact Hidx.
Defined.

(** The filters of the groups of a set of pointers. *)
Example Combine_example :
  (r ← Combine exHeap exG exAp exBp;
   Ok (map (fun q => Filters <$> (snd (fst r) : groupStore) !! q) (snd r)))
  = Ok [Some []; Some [1%nat; 5%nat]; Some [2%nat; 4%nat];
        Some []; Some []; Some []].
Proof. vm_compute. reflexivity. Qed.

Lemma filter_agree {A : Type} (p q : A -> bool) (xs : list A) :
  (forall x, In x xs -> p x = q x) -> List.filter p xs = List.filter q xs.
Proof.
  induction xs as [| x xs IH]; intros Hall; simpl; [reflexivity |].
  rewrite (Hall x (or_introl eq_refl)), IH; [reflexivity |].
  intros y Hy. apply Hall. right. exact Hy.
Qed.

(** C3: on two filter sets over the six facets, [Sub] returns a new set,
    of new groups, and writes no filter and no group of before; its group
    at each position has the key of the left group and keeps, in order,
    exactly the filters of the left group whose value is not present in
    the right group, with the index rebuilt from them; [A.Sub(A)] has six
    empty groups. *)
Theorem Sub_difference (h : heap) (G : groupStore) (A B : list gloc)
  (gsA gsB : SearchFilters) :
  groupsOf G A gsA -> groupsOf G B gsB ->
  setTyped h gsA -> setTyped h gsB ->
  (exists G' R gsR,
      Sub h G A B = Ok (h, G', R) /\
      (forall p g, G !! p = Some g -> G' !! p = Some g) /\
      (forall q, q ∈ R -> G !! q = None) /\
      groupsOf G' R gsR /\ length gsR = 6%nat /\
      forall i gA gB, gsA !! i = Some gA -> gsB !! i = Some gB ->
        exists gR,
          gsR !! i = Some gR /\
          Key gR = Key gA /\
          Filters gR
          = List.filter (fun l => negb (hasValue h (Filters gB) l)) (Filters gA) /\
          rebuilt h gR) /\
  (exists G' R gsR,
      Sub h G A A = Ok (h, G', R) /\
      groupsOf G' R gsR /\ length gsR = 6%nat /\
      forall gR, gR ∈ gsR -> Filters gR = []).
Proof.
  intros HpA HpB [HlenA HtyA] [HlenB HtyB].
  pose proof (groupsOf_length G A gsA HpA) as HlA.
  assert (Hgen : forall C gsC, groupsOf G C gsC -> length gsC = 6%nat ->
            (forall i g, gsC !! i = Some g -> filtersTyped h i (Filters g) = true) ->
            exists G' R gsR,
              Sub h G A C = Ok (h, G', R) /\
              (forall p g, G !! p = Some g -> G' !! p = Some g) /\
              (forall q, q ∈ R -> G !! q = None) /\
              groupsOf G' R gsR /\ length gsR = 6%nat /\
              forall i gA gC, gsA !! i = Some gA -> gsC !! i = Some gC ->
                exists gR idx,
                  gsR !! i = Some gR /\
                  gR = {| Key := Key gA;
                          Filters := List.filter
                                       (fun l => negb (hasValue h (Filters gC) l))
                                       (Filters gA);
                          filtersIdx := Some idx |} /\
                  rebuildIndex_from h 0 (Filters gR) ∅ = Ok idx).
  { intros C gsC HpC HlenC HtyC.
    pose proof (groupsOf_length G C gsC HpC) as HlC.
    destruct (eachGroup_ok (subGroup h) (A ++ C) G C gsC HpC A gsA 0%nat G)
      as (G' & R & gsR & HR & HlenR & HgR & Hfr & Hfresh & Hat).
    { tauto. }
    { exact HpA. }
    { simpl. lia. }
    { intros k g og Hk Hok. simpl in Hok.
      destruct (subGroup_spec h k g og (HtyA k g Hk) (HtyC k og Hok))
        as (idx & Hs & _). eauto. }
    exists G', R, gsR. split; [unfold Sub; rewrite HR; reflexivity |].
    split; [exact Hfr |].
    split; [intros q Hq; exact (proj1 (Hfresh q Hq)) |].
    split; [exact HgR | split; [lia |]].
    intros i gA gC HgA HgC.
    destruct (Hat i gA gC HgA HgC) as (x & Hx & Hbody).
    destruct (subGroup_spec h i gA gC (HtyA i gA HgA) (HtyC i gC HgC))
      as (idx & Hs & Hidx).
    cbv zeta in Hs, Hidx. rewrite Hs in Hbody. injection Hbody as Hbody.
    assert (Hf : List.filter (fun l => negb (isContained h (Filters gC) l))
                   (Filters gA)
                 = List.filter (fun l => negb (hasValue h (Filters gC) l))
                     (Filters gA)).
    { apply filter_agree. intros l Hl. f_equal.
      apply (isContained_hasValue h i); [exact (HtyC i gC HgC) |].
      apply (filtersTyped_elem h i (Filters gA)); [exact (HtyA i gA HgA) |].
      apply list_elem_of_In. exact Hl. }
    exists x, idx. split; [exact Hx |]. subst x. simpl. rewrite <- Hf.
    split; [reflexivity | exact Hidx]. }
  split.
  - destruct (Hgen B gsB HpB HlenB HtyB)
      as (G' & R & gsR & HR & Hfr & Hfresh & HgR & HlenR & Hat).
    exists G', R, gsR.
    split; [exact HR | split; [exact Hfr | split; [exact Hfresh |]]].
    split; [exact HgR | split; [exact HlenR |]].
    intros i gA gB HgA HgB.
    destruct (Hat i gA gB HgA HgB) as (gR & idx & Hi & Heq & Hidx).
    exists gR. split; [exact Hi |]. subst gR. simpl in *.
    split; [reflexivity | split; [reflexivity |]].
    exact (rebuildIndex_from_rebuilt h (Key gA) _ idx Hidx).
  - destruct (Hgen A gsA HpA HlenA HtyA)
      as (G' & R & gsR & HR & _ & _ & HgR & HlenR & Hat).
    exists G', R, gsR. split; [exact HR | split; [exact HgR | split; [exact HlenR |]]].
    intros gR Hin. apply list_elem_of_lookup in Hin as [i Hi].
    destruct (lookup_lt_is_Some_2 gsA i) as [gA HgA].
    { apply lookup_lt_Some in Hi. lia. }
    destruct (Hat i gA gA HgA HgA) as (gR' & idx & Hi' & Heq & _).
    rewrite Hi in Hi'. injection Hi' as Hi'. subst gR' gR. simpl.
    apply filter_none. intros l Hl.
    rewrite <- (isContained_hasValue h i _ l (HtyA i gA HgA)).
    + unfold isContained.
      rewrite (Contains_member h i (Filters gA) l (HtyA i gA HgA)); [reflexivity |].
      apply list_elem_of_In. exact Hl.
    + apply (filtersTyped_elem h i (Filters gA)); [exact (HtyA i gA HgA) |].
      apply list_elem_of_In. exact Hl.
Qed.

(** The request [exB] without what the aggregate [exA] has: the ASN 64513
    and the community 65000:200 stay. *)
Lemma Sub_difference_witness :
  exists G' R gsR g1 g2,
    Sub exHeap exG exBp exAp = Ok (exHeap, G', R) /\
    groupsOf G' R gsR /\
    gsR !! 1%nat = Some g1 /\ Filters g1 = [5%nat] /\ rebuilt exHeap g1 /\
    gsR !! 2%nat = Some g2 /\ Filters g2 = [4%nat] /\ rebuilt exHeap g2.
Proof.
  destruct (proj1 (Sub_difference exHeap exG exBp exAp exB exA
                     exBp_groups exAp_groups exB_typed exA_typed))
    as (G' & R & gsR & HR & _ & _ & HgR & _ & Hat).
  destruct (Hat 1%nat _ _ eq_refl eq_refl) as (g1 & H1 & _ & Hf1 & Hr1).
  destruct (Hat 2%nat _ _ eq_refl eq_refl) as (g2 & H2 & _ & Hf2 & Hr2).
  exists G', R, gsR, g1, g2.
  split; [exact HR | split; [exact HgR |]].
  split; [exact H1 | split; [exact Hf1 | split; [exact Hr1 |]]].
  split; [exact H2 | split; [exact Hf2 | exact Hr2]].
Defined.

(** A nil pointer to the other group: [Combine] ranges over its filters
    and panics; [Sub] reads it when the group has a filter to look for, and
    not on the empty group of the sources of [exA]. *)
Example Sub_nil_group :
  Combine exHeap exG [10%nat] [99%nat] = Panic /\
  Sub exHeap exG [11%nat] [99%nat] = Panic /\
  is_Ok (Sub exHeap exG [10%nat] [99%nat]) = true.
Proof. vm_compute. repeat split. Qed.

Example Sub_example :
  (r ← Sub exHeap exG exBp exAp;
   Ok (map (fun q => Filters <$> (snd (fst r) : groupStore) !! q) (snd r)))
  = Ok [Some []; Some [5%nat]; Some [4%nat]; Some []; Some []; Some []].
Proof. vm_compute. reflexivity. Qed.

(** C8: on two filter sets over the six facets that share no filter, the
    filters of self being distinct pointers, [MergeProperties] returns, and
    every filter of self keeps its value; when the group of other at the
    same position has a counterpart, a filter with the same value, the
    filter of self has afterwards the label and the cardinality of the
    first such counterpart; without a counterpart it keeps its own label
    and cardinality.  Every filter of other and every other filter of the
    heap is as it was.  The two sets are inputs only: their groups are not
    changed. *)
Theorem MergeProperties_frame (h : heap) (s other : SearchFilters) :
  setTyped h s -> setTyped h other ->
  NoDup (allLocs s) ->
  (forall l, l ∈ allLocs s -> l ∉ allLocs other) ->
  exists h',
    MergeProperties h s other = Ok h' /\
    (forall i g og l f,
        s !! i = Some g -> other !! i = Some og ->
        l ∈ Filters g -> h !! l = Some f ->
        exists f',
          h' !! l = Some f' /\ Value f' = Value f /\
          match counterpart h (Filters og) l with
          | Some ol =>
              exists fo, h !! ol = Some fo /\
                         Name f' = Name fo /\ Cardinality f' = Cardinality fo
          | None => Name f' = Name f /\ Cardinality f' = Cardinality f
          end) /\
    (forall l, l ∈ allLocs other -> h' !! l = h !! l) /\
    (forall l, l ∉ allLocs s -> h' !! l = h !! l) /\
    sameValues h h'.
Proof.
  intros [Hls Hts] [Hlo Hto] Hnd Hdis.
  destruct (mergeGroups_spec h other Hto s 0%nat h) as (h' & Hm & Hout & Hat);
    [simpl; lia | exact Hts | exact Hnd | exact Hdis | | |].
  { intros l. reflexivity. }
  { intros l _. reflexivity. }
  assert (Hread : forall i g og l f,
            s !! i = Some g -> other !! i = Some og ->
            l ∈ Filters g -> h !! l = Some f ->
            match counterpart h (Filters og) l with
            | Some ol => exists fo, h !! ol = Some fo /\
                                    h' !! l = Some (setProperties fo f)
            | None => h' !! l = Some f
            end).
  { intros i g og l f Hi Hog Hl Hf.
    pose proof (Hat i g og l f Hi Hog Hl Hf) as Hmerged. unfold mergedAt in Hmerged.
    rewrite (FindFilter_counterpart h i (Filters og) l (Hto i og Hog)
               (filtersTyped_elem h i _ l (Hts i g Hi) Hl)) in Hmerged.
    exact Hmerged. }
  exists h'. split; [exact Hm | split; [| split; [| split]]].
  - intros i g og l f Hi Hog Hl Hf.
    pose proof (Hread i g og l f Hi Hog Hl Hf) as Hr.
    destruct (counterpart h (Filters og) l) as [ol |].
    + destruct Hr as (fo & Hfo & Hl').
      exists (setProperties fo f). split; [exact Hl' | split; [reflexivity |]].
      exists fo. split; [exact Hfo | split; reflexivity].
    + exists f. split; [exact Hr | repeat split].
  - intros l Hl. apply Hout. intros Hl'. exact (Hdis l Hl' Hl).
  - exact Hout.
  - intros l. destruct (decide (l ∈ allLocs s)) as [Hin | Hnin].
    + apply allLocs_elem in Hin as (i & g & Hi & Hl).
      destruct (lookup_lt_is_Some_2 other i) as [og Hog].
      { apply lookup_lt_Some in Hi. lia. }
      pose proof (locTyped_inv h i l (filtersTyped_elem h i _ l (Hts i g Hi) Hl))
        as (f & Hf & _).
      pose proof (Hread i g og l f Hi Hog Hl Hf) as Hr. rewrite Hf.
      destruct (counterpart h (Filters og) l) as [ol |].
      * destruct Hr as (fo & _ & ->). reflexivity.
      * rewrite Hr. reflexivity.
    + rewrite (Hout l Hnin). reflexivity.
Qed.

(** The request [exB] merged with the aggregate [exA]: the ASN 64512 gets
    the label and the count of the aggregate, the ASN 64513, which the
    aggregate lacks, stays as parsed, and the aggregate is as before. *)
Lemma MergeProperties_frame_witness :
  exists h',
    MergeProperties exHeap exB exA = Ok h' /\
    h' !! 3%nat = Some (exFilter 4 "AS64512" (VInt 64512)) /\
    h' !! 5%nat = Some (exFilter 0 "" (VInt 64513)) /\
    h' !! 1%nat = exHeap !! 1%nat.
Proof.
  destruct (MergeProperties_frame exHeap exB exA exB_typed exA_typed
              exB_NoDup exB_exA_disjoint) as (h' & Hm & Hat & Hother & _).
  exists h'. split; [exact Hm | split; [| split]].
  - destruct (Hat 1%nat _ _ 3%nat _ eq_refl eq_refl
                (list_elem_of_here _ _) eq_refl)
      as (f' & Hf' & Hv & Hc).
    change (counterpart exHeap _ 3%nat) with (Some 1%nat) in Hc.
    destruct Hc as (fo & Hfo & Hn & Hcard).
    injection Hfo as <-. rewrite Hf'. destruct f' as [c n v].
    simpl in Hv, Hn, Hcard. subst. reflexivity.
  - destruct (Hat 1%nat _ _ 5%nat _ eq_refl eq_refl
                (list_elem_of_further _ _ _ (list_elem_of_here _ _)) eq_refl)
      as (f' & Hf' & Hv & Hc).
    change (counterpart exHeap _ 5%nat) with (@None loc) in Hc.
    destruct Hc as [Hn Hcard]. rewrite Hf'. destruct f' as [c n v].
    simpl in Hv, Hn, Hcard. subst. reflexivity.
  - apply Hother. left.
Defined.

Example MergeProperties_example :
  (h' ← MergeProperties exHeap exB exA;
   Ok (h' !! 3%nat, h' !! 5%nat, h' !! 4%nat, h' !! 1%nat))
  = Ok (Some (exFilter 4 "AS64512" (VInt 64512)),
        Some (exFilter 0 "" (VInt 64513)),
        Some (exFilter 0 "" (VCommunity [65000; 200])),
        Some (exFilter 4 "AS64512" (VInt 64512))).
Proof. vm_compute. reflexivity. Qed.

(** ** Filter sets from tokens *)

Lemma HasPrefix_isMarked (token : string) :
  HasPrefix token "#" = isMarked token.
Proof.
  destruct token as [| c text]; [reflexivity |].
  unfold HasPrefix, isMarked. cbn [String.prefix].
  destruct (ascii_dec "#" c) as [<- | Hne].
  - destruct text; reflexivity.
  - destruct (Ascii.eqb_spec c "#") as [-> | _]; [contradiction | reflexivity].
Qed.

Lemma isMarked_inv (token : string) :
  isMarked token = true -> exists text, token = String "#" text.
Proof.
  destruct token as [| c text]; [discriminate |]. simpl.
  destruct (Ascii.eqb_spec c "#") as [-> | _]; [eauto | discriminate].
Qed.

Lemma groupPosition_facetKey (key : string) (i : nat) :
  groupPosition key = Some i -> facetKey i = key /\ (i < 6)%nat.
Proof.
  unfold groupPosition.
  repeat (match goal with
          | |- context [String.eqb key ?k] =>
              destruct (String.eqb_spec key k) as [-> | ?]
          end;
          [intros [= <-]; split; [reflexivity | lia] |]).
  discriminate.
Qed.

Lemma facetKey_inj (i j : nat) :
  (i < 6)%nat -> (j < 6)%nat -> facetKey i = facetKey j -> i = j.
Proof.
  intros Hi Hj.
  do 6 (destruct i as [| i]; [do 6 (destruct j as [| j];
          [first [reflexivity | discriminate] |]); lia |]).
  lia.
Qed.

Lemma facetOfText_position (text key : string) :
  facetOfText text = Some key ->
  exists i, groupPosition key = Some i /\
            (i = 2 \/ i = 3 \/ i = 4)%nat.
Proof.
  unfold facetOfText. destruct (length (Split text ":") <? 2)%nat; [discriminate |].
  destruct (Atoi (hd "" (Split text ":"))).
  - destruct (length (Split text ":") =? 2)%nat; intros [= <-].
    + exists 2%nat. split; [reflexivity | tauto].
    + exists 4%nat. split; [reflexivity | tauto].
  - intros [= <-]. exists 3%nat. split; [reflexivity | tauto].
Qed.

Lemma contributesTo_snoc (key ref k r : string) (f : SearchFilter)
  (cs : list (string * SearchFilter)) :
  filterValueAsString (Value f) = Ok r ->
  contributed key ref (cs ++ [(k, f)])
  = contributed key ref cs
    + (if String.eqb k key && String.eqb r ref then 1 else 0).
Proof.
  intros Hr. unfold contributed. rewrite List.filter_app, length_app.
  cbn [List.filter]. unfold contributesTo at 2. cbn [fst snd]. rewrite Hr.
  destruct (String.eqb k key && String.eqb r ref); simpl length; lia.
Qed.

Lemma contributed_bounds (key ref : string) (cs : list (string * SearchFilter)) :
  0 <= contributed key ref cs <= Z.of_nat (length cs).
Proof.
  unfold contributed. split; [lia |].
  apply inj_le. induction cs as [| c cs IH]; simpl; [lia |].
  destruct (contributesTo key ref c); simpl; lia.
Qed.

(** [AddFilter] changes no value and no label. *)
Lemma AddFilter_keeps_labels (h : heap) (g : SearchFilterGroup) (l : loc)
  (h' : heap) (g' : SearchFilterGroup) :
  AddFilter h g l = Ok (h', g') ->
  forall x fx, h !! x = Some fx ->
    exists fx', h' !! x = Some fx' /\ Value fx' = Value fx /\ Name fx' = Name fx.
Proof.
  unfold AddFilter, deref. intros Hadd x fx Hx.
  destruct (h !! l) as [f |] eqn:Hf; [| discriminate Hadd]. simpl in Hadd.
  assert (Happend : forall r, appendFilter h g l f = Ok r -> r = (h', g') ->
            exists fx', h' !! x = Some fx' /\ Value fx' = Value fx /\
                        Name fx' = Name fx).
  { unfold appendFilter. intros r Hr Heq. subst r.
    destruct (filterValueAsString (Value f)); try discriminate Hr. simpl in Hr.
    destruct (filtersIdx g); [| discriminate Hr]. injection Hr as <- _.
    destruct (decide (l = x)) as [-> | Hne].
    - rewrite lookup_insert_eq. rewrite Hf in Hx. injection Hx as <-.
      eexists. repeat split.
    - rewrite lookup_insert_ne by exact Hne. eexists. repeat split. exact Hx. }
  destruct (GetFilterByValue g (Value f)) as [[l0 |] | |]; try discriminate Hadd;
    simpl in Hadd.
  - destruct (h !! l0) as [pf |] eqn:Hpf.
    + injection Hadd as <- _.
      destruct (decide (l0 = x)) as [-> | Hne].
      * rewrite lookup_insert_eq. rewrite Hpf in Hx. injection Hx as <-.
        eexists. repeat split.
      * rewrite lookup_insert_ne by exact Hne. eexists. repeat split. exact Hx.
    + exact (Happend _ Hadd eq_refl).
  - exact (Happend _ Hadd eq_refl).
Qed.

Lemma countOf_emptyGroup (h : heap) (key ref : string) :
  countOf h (emptyGroup key) ref = 0.
Proof. reflexivity. Qed.

Lemma filled_start (h : heap) : filled h h NewSearchFilters [].
Proof.
  split; [reflexivity |]. split; [tauto |]. split.
  { intros l Hl. apply elem_of_nil in Hl. contradiction. }
  split.
  { intros i j gi gj _ Hi _ l Hl.
    do 6 (destruct i as [| i];
          [injection Hi as <-; apply elem_of_nil in Hl; contradiction |]).
    discriminate Hi. }
  intros i g Hi.
  do 6 (destruct i as [| i];
        [injection Hi as <-;
         repeat split;
         [apply emptyGroup_indexed
         | intros l Hl; apply elem_of_nil in Hl; contradiction
         | intros l Hl; apply elem_of_nil in Hl; contradiction] |]).
  discriminate Hi.
Qed.

(** One contribution, added to the group of its facet. *)
Lemma filled_step (h0 h : heap) (s : SearchFilters)
  (cs : list (string * SearchFilter)) (key : string) (f : SearchFilter)
  (i : nat) (g : SearchFilterGroup) (ref : string) :
  filled h0 h s cs ->
  groupPosition key = Some i -> s !! i = Some g ->
  filterValueAsString (Value f) = Ok ref ->
  Z.of_nat (length cs) + 1 <= max_int ->
  exists h2 g2,
    AddFilter (<[newLoc h (allLocs s) := f]> h) g (newLoc h (allLocs s))
    = Ok (h2, g2) /\
    filled h0 h2 (<[i := g2]> s) (cs ++ [(key, f)]).
Proof.
  intros (Hlen & Hkeep & Hnew & Hapart & Hgroups) Hpos Hg Href Hroom.
  destruct (groupPosition_facetKey key i Hpos) as [Hfk Hi6].
  destruct (Hgroups i g Hg) as (Hkey & Hidx & Hgr & Hcnt & Hprov).
  assert (Hkg : Key g = key) by congruence.
  set (n := newLoc h (allLocs s)).
  assert (Hn : h !! n = None) by apply newLoc_unallocated.
  assert (Hnheld : n ∉ allLocs s) by apply newLoc_not_held.
  destruct (alloc_AddFilter_step h g n f ref Hn Hidx Hgr Href)
    as (h2 & g2 & Hadd & Hidx2 & Hg2 & Hext2 & Hkey2 & Hfs2 & Hframe2 & Hcount2).
  assert (Hrange : min_int <= countOf h g ref + 1 <= max_int).
  { rewrite Hcnt. pose proof (contributed_bounds (Key g) ref cs).
    rewrite min_int_value. lia. }
  specialize (Hcount2 Hrange).
  pose proof (AddFilter_keeps_labels _ g n h2 g2 Hadd) as Hlab.
  assert (Hin2 : forall l, l ∈ Filters g2 -> l ∈ Filters g \/ l = n).
  { intros l Hl. destruct Hfs2 as [E | E]; rewrite E in Hl; [left; exact Hl |].
    apply elem_of_app in Hl as [Hl | Hl]; [left; exact Hl |].
    apply list_elem_of_singleton in Hl. right. exact Hl. }
  assert (Hmem : forall j gj l, s !! j = Some gj -> l ∈ Filters gj -> l <> n).
  { intros j gj l Hj Hl ->. apply Hnheld. exact (allLocs_group s j gj n Hj Hl). }
  assert (Hagree : forall j gj, j <> i -> s !! j = Some gj ->
                     forall l, l ∈ Filters gj -> h2 !! l = h !! l).
  { intros j gj Hne Hj l Hl.
    destruct (Hgroups j gj Hj) as (_ & _ & Hgrj & _).
    apply Hframe2; [exact (Hgrj l Hl) |].
    exact (Hapart j i gj g Hne Hj Hg l Hl). }
  exists h2, g2. split; [exact Hadd |].
  split; [rewrite length_insert; exact Hlen |].
  split; [| split; [| split]].
  - intros l f0 Hl. pose proof (Hkeep l f0 Hl) as Hhl.
    rewrite Hframe2; [exact Hhl | eexists; exact Hhl |].
    intros Hlg. rewrite (Hnew l (allLocs_group s i g l Hg Hlg)) in Hl.
    discriminate Hl.
  - intros l Hl. apply allLocs_elem in Hl as (j & gj & Hj & Hlj).
    destruct (decide (j = i)) as [-> | Hne].
    + rewrite list_lookup_insert_eq in Hj by (rewrite Hlen; exact Hi6).
      injection Hj as <-. destruct (Hin2 l Hlj) as [Hlg | ->].
      * exact (Hnew l (allLocs_group s i g l Hg Hlg)).
      * destruct (h0 !! n) as [f0 |] eqn:E; [| reflexivity].
        rewrite (Hkeep n f0 E) in Hn. discriminate Hn.
    + rewrite list_lookup_insert_ne in Hj by congruence.
      exact (Hnew l (allLocs_group s j gj l Hj Hlj)).
  - intros a b ga gb Hab Ha Hb l Hl.
    destruct (decide (a = i)) as [-> | Hai].
    + rewrite list_lookup_insert_eq in Ha by (rewrite Hlen; exact Hi6).
      injection Ha as <-.
      rewrite list_lookup_insert_ne in Hb by congruence.
      destruct (Hin2 l Hl) as [Hlg | ->].
      * exact (Hapart i b g gb Hab Hg Hb l Hlg).
      * intros Hnb. exact (Hmem b gb n Hb Hnb eq_refl).
    + rewrite list_lookup_insert_ne in Ha by congruence.
      destruct (decide (b = i)) as [-> | Hbi].
      * rewrite list_lookup_insert_eq in Hb by (rewrite Hlen; exact Hi6).
        injection Hb as <-. intros Hl2. destruct (Hin2 l Hl2) as [Hlg | ->].
        -- exact (Hapart a i ga g Hai Ha Hg l Hl Hlg).
        -- exact (Hmem a ga n Ha Hl eq_refl).
      * rewrite list_lookup_insert_ne in Hb by congruence.
        exact (Hapart a b ga gb Hab Ha Hb l Hl).
  - intros j gj Hj. destruct (decide (j = i)) as [-> | Hne].
    + rewrite list_lookup_insert_eq in Hj by (rewrite Hlen; exact Hi6).
      injection Hj as <-.
      split; [congruence | split; [exact Hidx2 | split; [exact Hg2 | split]]].
      * intros r. rewrite Hcount2, Hcnt, Hkey2, (contributesTo_snoc _ _ _ _ _ _ Href).
        rewrite Hkg, String.eqb_refl. reflexivity.
      * intros l Hl. rewrite Hkey2, Hkg. destruct (Hin2 l Hl) as [Hlg | ->].
        -- destruct (Hprov l Hlg) as (f' & fo & Hf' & Hinc & Hv & Hnm).
           destruct (Hlab l f') as (fx & Hfx & Hvx & Hnx).
           { rewrite lookup_insert_ne; [exact Hf' |].
             intros E. rewrite <- E, Hn in Hf'. discriminate Hf'. }
           exists fx, fo. split; [exact Hfx |]. rewrite Hkg in Hinc.
           split; [apply in_or_app; left; exact Hinc | split; congruence].
        -- destruct (Hlab n f (lookup_insert_eq _ _ _)) as (fx & Hfx & Hvx & Hnx).
           exists fx, f. split; [exact Hfx |].
           split; [apply in_or_app; right; left; reflexivity | split; assumption].
    + rewrite list_lookup_insert_ne in Hj by congruence.
      destruct (Hgroups j gj Hj) as (Hkeyj & Hidxj & Hgrj & Hcntj & Hprovj).
      pose proof (Hagree j gj Hne Hj) as Hag.
      assert (Hj6 : (j < 6)%nat) by (rewrite <- Hlen; exact (lookup_lt_Some _ _ _ Hj)).
      assert (Hkne : String.eqb key (Key gj) = false).
      { apply String.eqb_neq. intros E. apply Hne.
        apply (facetKey_inj j i Hj6 Hi6). congruence. }
      split; [exact Hkeyj |].
      split; [exact (indexed_agree h h2 gj Hag Hidxj) |].
      split; [exact (grounded_agree h h2 gj Hag Hgrj) | split].
      * intros r. rewrite (countOf_agree h h2 gj r Hag), Hcntj.
        rewrite (contributesTo_snoc _ _ _ _ _ _ Href), Hkne. simpl. lia.
      * intros l Hl. destruct (Hprovj l Hl) as (f' & fo & Hf' & Hinc & Hv & Hnm).
        exists f', fo. rewrite (Hag l Hl).
        split; [exact Hf' | split; [apply in_or_app; left; exact Hinc |]].
        split; assumption.
Qed.

Section TokenResults.

Variable parseExtCommunityValue : string -> result SearchFilter.
Variable parseCommunityValue : string -> result SearchFilter.

(** What is used of the two value parsers, which are declared outside the
    files at hand: the filters they return hold a value with a canonical
    string, as a community and an extended community [tag:int:int] have. *)
Hypothesis parseExtCommunityValue_prints :
  forall text f, parseExtCommunityValue text = Ok f ->
                 exists ref, filterValueAsString (Value f) = Ok ref.
Hypothesis parseCommunityValue_prints :
  forall text f, parseCommunityValue text = Ok f ->
                 exists ref, filterValueAsString (Value f) = Ok ref.

Abbreviation parseTokenText :=
  (parseCommunityFilterText parseExtCommunityValue parseCommunityValue).
Abbreviation addTokenList :=
  (addTokens parseExtCommunityValue parseCommunityValue).
Abbreviation tokenContribution :=
  (contribution parseExtCommunityValue parseCommunityValue).
Abbreviation tokenContributions :=
  (contributions parseExtCommunityValue parseCommunityValue).
Abbreviation tokenParses :=
  (parses parseExtCommunityValue parseCommunityValue).

(** The contribution of a marked token is what [parseCommunityFilterText]
    returns for its text. *)
Lemma contribution_parse (text key : string) (f : SearchFilter) :
  tokenContribution (String "#" text) = Some (key, f) ->
  parseTokenText text = Ok (key, f) /\
  facetOfText text = Some key /\
  exists ref, filterValueAsString (Value f) = Ok ref.
Proof.
  unfold contribution, parseCommunityFilterText, facetOfText.
  rewrite Ascii.eqb_refl.
  destruct (length (Split text ":") <? 2)%nat; [discriminate |].
  destruct (Atoi (hd "" (Split text ":"))) as [z |].
  - destruct (length (Split text ":") =? 2)%nat; cbn [String.eqb];
      (match goal with
       | |- context [if ?b then parseExtCommunityValue text else _] =>
           change b with false
       end);
      cbv iota;
      destruct (parseCommunityValue text) as [f0 | |] eqn:Hp; try discriminate;
      intros [= <- <-]; (split; [reflexivity | split; [reflexivity |]]);
      exact (parseCommunityValue_prints text f0 Hp).
  - change (String.eqb SearchKeyExtCommunities SearchKeyExtCommunities) with true.
    cbv iota.
    destruct (parseExtCommunityValue text) as [f0 | |] eqn:Hp; try discriminate.
    intros [= <- <-]. split; [reflexivity | split; [reflexivity |]].
    exact (parseExtCommunityValue_prints text f0 Hp).
Qed.

Lemma contributions_app (pre post : list string) :
  tokenContributions (pre ++ post)
  = tokenContributions pre ++ tokenContributions post.
Proof. unfold contributions. apply omap_app. Qed.

Lemma contributions_cons (t : string) (rest : list string) :
  tokenContributions (t :: rest)
  = match tokenContribution t with
    | Some c => c :: tokenContributions rest
    | None => tokenContributions rest
    end.
Proof. reflexivity. Qed.

(** The loop of [FiltersFromTokens] on tokens whose marked ones parse. *)
Lemma addTokens_filled (h0 : heap) (tokens : list string) :
  forall (h : heap) (s : SearchFilters) (cs : list (string * SearchFilter)),
    filled h0 h s cs ->
    Z.of_nat (length cs + length tokens) <= max_int ->
    Forall tokenParses tokens ->
    exists h' s',
      addTokenList h s tokens = Ok (h', s') /\
      filled h0 h' s' (cs ++ tokenContributions tokens).
Proof.
  induction tokens as [| value rest IH]; intros h s cs Hinv Hroom Hall.
  - exists h, s. split; [reflexivity |].
    unfold contributions. simpl. rewrite app_nil_r. exact Hinv.
  - apply Forall_cons in Hall as [Hval Hrest].
    cbn [addTokens]. rewrite HasPrefix_isMarked.
    destruct (isMarked value) eqn:Hm.
    + destruct (isMarked_inv value Hm) as [text ->].
      destruct (Hval Hm) as [[key f] Hc].
      destruct (contribution_parse text key f Hc) as (Hp & Hfacet & ref & Href).
      destruct (facetOfText_position text key Hfacet) as (i & Hpos & _).
      destruct (groupPosition_facetKey key i Hpos) as [_ Hi6].
      pose proof Hinv as (Hlen & _).
      destruct (lookup_lt_is_Some_2 s i) as [g Hg]; [lia |].
      destruct (filled_step h0 h s cs key f i g ref Hinv Hpos Hg Href)
        as (h2 & g2 & Hadd & Hinv2).
      { simpl length in Hroom. lia. }
      destruct (IH h2 (<[i := g2]> s) (cs ++ [(key, f)]) Hinv2) as (h' & s' & Hloop & Hinv').
      { rewrite length_app. simpl length in *. lia. }
      { exact Hrest. }
      exists h', s'. split.
      * cbn [dropFirst]. rewrite Hp. cbn [mbind result_bind].
        rewrite (groupByKey_at s key i g Hpos Hg). cbn [mbind result_bind].
        unfold alloc. rewrite Hadd. cbn [mbind result_bind]. rewrite Hpos.
        exact Hloop.
      * rewrite contributions_cons, Hc.
        replace (cs ++ (key, f) :: tokenContributions rest)
          with ((cs ++ [(key, f)]) ++ tokenContributions rest)
          by (rewrite <- app_assoc; reflexivity).
        exact Hinv'.
    + destruct (IH h s cs Hinv) as (h' & s' & Hloop & Hinv').
      { simpl length in Hroom. lia. }
      { exact Hrest. }
      exists h', s'. split; [exact Hloop |].
      rewrite contributions_cons.
      replace (tokenContribution value) with (@None (string * SearchFilter));
        [exact Hinv' |].
      destruct value as [| c text]; [reflexivity |].
      simpl in Hm. unfold contribution. rewrite Hm. reflexivity.
Qed.

Lemma contributions_facet (tokens : list string) (key : string) (f : SearchFilter) :
  In (key, f) (tokenContributions tokens) ->
  exists i, groupPosition key = Some i /\ (i = 2 \/ i = 3 \/ i = 4)%nat.
Proof.
  unfold contributions. intros Hin. apply list_elem_of_In in Hin.
  apply list_elem_of_omap in Hin as (t & _ & Ht).
  destruct t as [| c text]; [discriminate Ht |].
  unfold contribution in Ht.
  destruct (Ascii.eqb c "#"); [| discriminate Ht].
  destruct (facetOfText text) as [k |] eqn:Hk; [| discriminate Ht].
  destruct (if String.eqb k SearchKeyExtCommunities
            then parseExtCommunityValue text else parseCommunityValue text);
    try discriminate Ht.
  injection Ht as <- _. exact (facetOfText_position text k Hk).
Qed.

(** C6: [FiltersFromTokens] on every list of tokens.  The text after the
    marker of a token is classified: fewer than two colon-separated
    segments are an error; a first segment that is no integer makes it an
    extended community, for [parseExtCommunityValue]; otherwise it is for
    [parseCommunityValue], a standard community with two segments and a
    large one with three.  When the text of a marked token is an error and
    the marked tokens before it parse, the whole call returns this error
    and no set.  When all marked tokens parse, the call returns a set of
    six groups with their keys and faithful indexes; a token without the
    marker contributes nothing; every marked token is added to the group of
    its facet: the count of a canonical string in a group is the number of
    tokens of this facet that have it, every filter of a group has the
    value and label of such a token, and the three other groups stay empty;
    no filter that existed before the call is changed. *)
Theorem FiltersFromTokens_classify (h : heap) (tokens : list string) :
  Z.of_nat (length tokens) <= max_int ->
  (forall text,
      (length (Split text ":") < 2)%nat ->
      parseTokenText text = Err "BGP community incomplete") /\
  (forall text f,
      (2 <= length (Split text ":"))%nat ->
      Atoi (hd "" (Split text ":")) = None ->
      parseExtCommunityValue text = Ok f ->
      parseTokenText text = Ok (SearchKeyExtCommunities, f)) /\
  (forall text f z,
      Atoi (hd "" (Split text ":")) = Some z ->
      parseCommunityValue text = Ok f ->
      (length (Split text ":") = 2%nat ->
       parseTokenText text = Ok (SearchKeyCommunities, f)) /\
      (length (Split text ":") = 3%nat ->
       parseTokenText text = Ok (SearchKeyLargeCommunities, f))) /\
  (forall pre text post e,
      tokens = pre ++ String "#" text :: post ->
      Forall tokenParses pre ->
      parseTokenText text = Err e ->
      FiltersFromTokens parseExtCommunityValue parseCommunityValue h tokens
      = Err e) /\
  (Forall tokenParses tokens ->
   exists h' s',
     FiltersFromTokens parseExtCommunityValue parseCommunityValue h tokens
     = Ok (h', s') /\
     length s' = 6%nat /\
     (forall l f, h !! l = Some f -> h' !! l = Some f) /\
     forall i g, s' !! i = Some g ->
       Key g = facetKey i /\ indexed h' g /\
       (forall ref, countOf h' g ref
                    = contributed (Key g) ref (tokenContributions tokens)) /\
       (forall l, l ∈ Filters g ->
          exists f' f, h' !! l = Some f' /\
                       In (Key g, f) (tokenContributions tokens) /\
                       Value f' = Value f /\ Name f' = Name f) /\
       (i <> 2%nat -> i <> 3%nat -> i <> 4%nat -> Filters g = [])).
Proof.
  intros Hroom.
  split; [intros text Hlen; apply parseText_incomplete; exact Hlen |].
  split; [| split; [| split]].
  - intros text f Hlen Hatoi Hf. unfold parseCommunityFilterText.
    destruct (Nat.ltb_spec (length (Split text ":")) 2); [lia |].
    rewrite Hatoi, Hf. reflexivity.
  - intros text f z Hatoi Hf.
    split; intros Hlen; unfold parseCommunityFilterText;
      rewrite Hlen; simpl; rewrite Hatoi, Hf; reflexivity.
  - intros pre text post e -> Hpre He. unfold FiltersFromTokens.
    rewrite addTokens_app.
    destruct (addTokens_filled h pre h NewSearchFilters [] (filled_start h))
      as (h' & s' & Hloop & _).
    { rewrite length_app in Hroom. simpl length in *. lia. }
    { exact Hpre. }
    rewrite Hloop. cbn [mbind result_bind addTokens]. rewrite HasPrefix_hash.
    cbn [dropFirst]. rewrite He. reflexivity.
  - intros Hall. unfold FiltersFromTokens.
    destruct (addTokens_filled h tokens h NewSearchFilters [] (filled_start h))
      as (h' & s' & Hloop & (Hlen & Hkeep & _ & _ & Hgroups)).
    { simpl length. lia. }
    { exact Hall. }
    exists h', s'. split; [exact Hloop | split; [exact Hlen | split; [exact Hkeep |]]].
    intros i g Hi. simpl app in Hgroups.
    destruct (Hgroups i g Hi) as (Hkey & Hidx & _ & Hcnt & Hprov).
    split; [exact Hkey | split; [exact Hidx | split; [exact Hcnt | split; [exact Hprov |]]]].
    intros H2 H3 H4. destruct (Filters g) as [| l fs] eqn:Hfs; [reflexivity |].
    exfalso.
    destruct (Hprov l (list_elem_of_here l fs)) as (f' & f & _ & Hin & _).
    destruct (contributions_facet tokens (Key g) f Hin) as (j & Hpos & Hj).
    destruct (groupPosition_facetKey (Key g) j Hpos) as [Hfk Hj6].
    assert (Hi6 : (i < 6)%nat) by (rewrite <- Hlen; exact (lookup_lt_Some _ _ _ Hi)).
    assert (i = j) by (apply (facetKey_inj i j Hi6 Hj6); congruence).
    lia.
Qed.

End TokenResults.

Lemma SpecModel_parseExtCommunityValue_prints :
  forall text f, SpecModel.parseExtCommunityValue text = Ok f ->
                 exists ref, filterValueAsString (Value f) = Ok ref.
Proof.
  intros text f. unfold SpecModel.parseExtCommunityValue.
  destruct (Split text ":") as [| tag [| a [| b [| c rest]]]]; try discriminate.
  destruct (Atoi a) as [x |]; [| discriminate].
  destruct (Atoi b) as [y |]; [| discriminate].
  intros [= <-]. simpl. eauto.
Defined.

Lemma SpecModel_parseCommunityValue_prints :
  forall text f, SpecModel.parseCommunityValue text = Ok f ->
                 exists ref, filterValueAsString (Value f) = Ok ref.
Proof.
  intros text f. unfold SpecModel.parseCommunityValue.
  destruct (SpecModel.atoiAll (Split text ":")) as [c |]; [| discriminate].
  intros [= <-]. simpl. eauto.
Defined.

(** The scenario of the spec, with a token without marker and a repeated
    token: the standard community is counted twice, the extended community
    once. *)
Lemma FiltersFromTokens_classify_witness :
  exists h' s' gc ge,
    FiltersFromTokens SpecModel.parseExtCommunityValue
      SpecModel.parseCommunityValue exHeap
      ["#65000:100"; "x"; "#RPKI:1:2"; "#65000:100"] = Ok (h', s') /\
    s' !! 2%nat = Some gc /\ countOf h' gc "65000:100" = 2 /\
    s' !! 3%nat = Some ge /\ countOf h' ge "RPKI:1:2" = 1 /\
    h' !! 1%nat = exHeap !! 1%nat.
Proof.
  destruct (proj2 (proj2 (proj2 (proj2
              (FiltersFromTokens_classify
                 SpecModel.parseExtCommunityValue SpecModel.parseCommunityValue
                 SpecModel_parseExtCommunityValue_prints
                 SpecModel_parseCommunityValue_prints
                 exHeap ["#65000:100"; "x"; "#RPKI:1:2"; "#65000:100"]
                 ltac:(rewrite max_int_value; simpl; lia))))))
    as (h' & s' & Hcall & Hlen & Hkeep & Hgroups).
  { repeat constructor; intros Hm; try discriminate Hm; vm_compute; eauto. }
  destruct (lookup_lt_is_Some_2 s' 2%nat) as [gc Hgc]; [lia |].
  destruct (lookup_lt_is_Some_2 s' 3%nat) as [ge Hge]; [lia |].
  destruct (Hgroups 2%nat gc Hgc) as (Hkc & _ & Hcc & _).
  destruct (Hgroups 3%nat ge Hge) as (Hke & _ & Hce & _).
  exists h', s', gc, ge.
  split; [exact Hcall | split; [exact Hgc | split; [| split; [exact Hge | split]]]].
  - rewrite Hcc, Hkc. reflexivity.
  - rewrite Hce, Hke. reflexivity.
  - rewrite (Hkeep 1%nat _ eq_refl). reflexivity.
Defined.

Example FiltersFromTokens_example :
  ('(h, s) ← FiltersFromTokens SpecModel.parseExtCommunityValue
               SpecModel.parseCommunityValue ∅ ["#65000:100"; "#RPKI:1:2"; "x"];
   Ok (map Filters s, h !! 0%nat, h !! 1%nat))
  = Ok ([[]; []; [0%nat]; [1%nat]; []; []],
        Some (exFilter 1 "" (VCommunity [65000; 100])),
        Some (exFilter 1 "" (VExtCommunity [EString "RPKI"; EInt 1; EInt 2]))).
Proof. vm_compute. reflexivity. Qed.

(** A token without segments fails the whole call. *)
Example FiltersFromTokens_incomplete :
  FiltersFromTokens SpecModel.parseExtCommunityValue
    SpecModel.parseCommunityValue ∅ ["#65000:100"; "#65000"; "#RPKI:1:2"]
  = Err "BGP community incomplete".
Proof. vm_compute. reflexivity. Qed.
